(** * A sequential and an interleaving model of the MPMC ring buffer of brain.go

    The buffer of [brain.go] keeps two 64-bit cursors ([writeIndex], [readIndex]),
    one 64-bit cycle counter per slot and three parallel payload arrays.  This
    file embeds [Newbuffer], [Enqueue], [EnqueueBatch], [DequeueBatch] and
    [Dequeue] as executable functions over an explicit buffer state and proves
    the properties the specification states about them.

    Conventions.
    - A [uint64] is a [Z] in [0, 2^64); every addition the source performs on
      [uint64] is written with its wrap-around ([add64], [sub64]).
    - [int64(x)] of a [uint64] is [int64 x]; the signed subtraction wraps too
      ([isub64]).
    - A slice is a [list]; reading or writing outside its length panics, as in
      Go ([load], [store]), and so does [make] for a length the runtime does
      not allocate.
    - A [float64] is a primitive float; the code only copies it.
    - The retry loops take fuel.  In the sequential model no other thread
      changes the state between two iterations, so a compare-and-swap on a
      cursor that was just loaded succeeds, and an iteration that neither
      returns nor breaks repeats for ever: the model answers [Spinning]. *)

From Stdlib Require Import ZArith Lia PrimFloat.
From stdpp Require Import base tactics list.

Local Open Scope Z_scope.

(** ** Machine integers *)

Definition u64 (z : Z) : Z := z mod 2 ^ 64.
Definition add64 (a b : Z) : Z := u64 (a + b).
Definition sub64 (a b : Z) : Z := u64 (a - b).

(** [int64(x)] for a [uint64] value [x]: the same 64 bits read as two's
    complement. *)
Definition int64 (x : Z) : Z := if x <? 2 ^ 63 then x else x - 2 ^ 64.

(** Subtraction on [int64], wrapping on overflow. *)
Definition isub64 (a b : Z) : Z := (a - b + 2 ^ 63) mod 2 ^ 64 - 2 ^ 63.

(** ** Outcomes of a call *)

Inductive outcome (A : Type) : Type :=
| Returned (a : A)
| Panicked
| Spinning.
Arguments Returned {A} a.
Arguments Panicked {A}.
Arguments Spinning {A}.

Definition bind {A B : Type} (m : outcome A) (k : A -> outcome B) : outcome B :=
  match m with
  | Returned a => k a
  | Panicked => Panicked
  | Spinning => Spinning
  end.

Notation "x <- m ;; k" := (bind m (fun x => k))
  (at level 100, m at next level, right associativity).

(** ** Slices *)

Definition load {A : Type} (s : list A) (i : Z) : outcome A :=
  match s !! Z.to_nat i with
  | Some v => Returned v
  | None => Panicked
  end.

Definition store {A : Type} (s : list A) (i : Z) (v : A) : outcome (list A) :=
  if decide (Z.to_nat i < length s)%nat
  then Returned (<[Z.to_nat i := v]> s)
  else Panicked.

(** ** The buffer *)

Record RingBuffer : Type := mkRingBuffer {
  capacity : Z;
  mask : Z;
  writeIndex : Z;
  readIndex : Z;
  cycleState : list Z;
  ids : list Z;
  prices : list float;
  qtys : list Z
}.

Definition set_writeIndex (v : Z) (rb : RingBuffer) : RingBuffer :=
  mkRingBuffer (capacity rb) (mask rb) v (readIndex rb)
               (cycleState rb) (ids rb) (prices rb) (qtys rb).

Definition set_readIndex (v : Z) (rb : RingBuffer) : RingBuffer :=
  mkRingBuffer (capacity rb) (mask rb) (writeIndex rb) v
               (cycleState rb) (ids rb) (prices rb) (qtys rb).

Definition set_cycleState (v : list Z) (rb : RingBuffer) : RingBuffer :=
  mkRingBuffer (capacity rb) (mask rb) (writeIndex rb) (readIndex rb)
               v (ids rb) (prices rb) (qtys rb).

Definition set_ids (v : list Z) (rb : RingBuffer) : RingBuffer :=
  mkRingBuffer (capacity rb) (mask rb) (writeIndex rb) (readIndex rb)
               (cycleState rb) v (prices rb) (qtys rb).

Definition set_prices (v : list float) (rb : RingBuffer) : RingBuffer :=
  mkRingBuffer (capacity rb) (mask rb) (writeIndex rb) (readIndex rb)
               (cycleState rb) (ids rb) v (qtys rb).

Definition set_qtys (v : list Z) (rb : RingBuffer) : RingBuffer :=
  mkRingBuffer (capacity rb) (mask rb) (writeIndex rb) (readIndex rb)
               (cycleState rb) (ids rb) (prices rb) v.

(** [rb.cycleState[off] = v] and the three payload stores, each with Go's
    bounds check. *)
Definition store_cycle (off v : Z) (rb : RingBuffer) : outcome RingBuffer :=
  cs <- store (cycleState rb) off v ;;
  Returned (set_cycleState cs rb).

Definition store_payload (off id : Z) (price : float) (qty : Z)
    (rb : RingBuffer) : outcome RingBuffer :=
  a <- store (ids rb) off id ;;
  b <- store (prices rb) off price ;;
  c <- store (qtys rb) off qty ;;
  Returned (set_qtys c (set_prices b (set_ids a rb))).

(** *** Newbuffer (brain.go, lines 29-46)

    The loop [for i := 0; i < capacity; i++ { cycleState[i] = i }] runs
    [capacity] times over the freshly made slice. *)
Fixpoint init_cycle (todo : nat) (i : Z) (cs : list Z) : list Z :=
  match todo with
  | O => cs
  | S todo' => init_cycle todo' (i + 1) (<[Z.to_nat i := i]> cs)
  end.

Definition Newbuffer (capacity : Z) : RingBuffer :=
  let n := Z.to_nat capacity in
  {| capacity := capacity;
     mask := sub64 capacity 1;
     writeIndex := 0;
     readIndex := 0;
     cycleState := init_cycle n 0 (replicate n 0);
     ids := replicate n 0;
     prices := replicate n 0%float;
     qtys := replicate n 0 |}.

(** [make([]T, len)] for a [uint64] length (runtime.makeslice).  The runtime
    panics with "len out of range" when [len] does not fit an [int] (64 bits
    here) or when [len] elements of [size] bytes are more than it allocates:
    [maxAlloc] bytes, 2^48 on linux/amd64.  Otherwise the slice holds [len]
    zero values.  A machine that runs out of memory below [maxAlloc] ends the
    process instead; either way the call does not return, and [maxAlloc] then
    stands for what the machine grants. *)
Definition make {A : Type} (maxAlloc size : Z) (zero : A) (len : Z) : outcome (list A) :=
  if (len <? 2 ^ 63) && (size * len <=? maxAlloc)
  then Returned (replicate (Z.to_nat len) zero)
  else Panicked.

(** The call [Newbuffer(capacity)] with its four allocations, in the order of
    lines 35-38 ([uint64] and [float64] take 8 bytes, [uint32] takes 4).
    [Newbuffer capacity] above is the buffer this call returns whenever it
    returns. *)
Definition Newbuffer_call (maxAlloc capacity : Z) : outcome RingBuffer :=
  cs <- make maxAlloc 8 0 capacity ;;
  a <- make maxAlloc 8 0 capacity ;;
  b <- make maxAlloc 8 0%float capacity ;;
  c <- make maxAlloc 4 0 capacity ;;
  Returned {| capacity := capacity;
              mask := sub64 capacity 1;
              writeIndex := 0;
              readIndex := 0;
              cycleState := init_cycle (Z.to_nat capacity) 0 cs;
              ids := a;
              prices := b;
              qtys := c |}.

(** *** Enqueue (brain.go, lines 48-75) *)
Fixpoint Enqueue (fuel : nat) (rb : RingBuffer) (id : Z) (price : float) (qty : Z)
    : outcome (RingBuffer * bool) :=
  match fuel with
  | O => Spinning
  | S fuel' =>
      let head := writeIndex rb in
      let offset := Z.land head (mask rb) in
      cycleVal <- load (cycleState rb) offset ;;
      let diff := isub64 (int64 cycleVal) (int64 head) in
      if diff =? 0 then
        let rb := set_writeIndex (add64 head 1) rb in
        rb <- store_payload offset id price qty rb ;;
        rb <- store_cycle offset (add64 head 1) rb ;;
        Returned (rb, true)
      else if diff <? 0 then Returned (rb, false)
      else Enqueue fuel' rb id price qty
  end.

(** *** Dequeue (brain.go, lines 162-190)

    The three out-parameters are assigned exactly when the call returns
    [true]; the model returns them as [Some (id, price, qty)] and returns
    [None] for [false]. *)
Fixpoint Dequeue (fuel : nat) (rb : RingBuffer)
    : outcome (RingBuffer * option (Z * float * Z)) :=
  match fuel with
  | O => Spinning
  | S fuel' =>
      let tail := readIndex rb in
      let offset := Z.land tail (mask rb) in
      cycleVal <- load (cycleState rb) offset ;;
      let diff := isub64 (int64 cycleVal) (int64 (add64 tail 1)) in
      if diff =? 0 then
        let rb := set_readIndex (add64 tail 1) rb in
        id <- load (ids rb) offset ;;
        price <- load (prices rb) offset ;;
        qty <- load (qtys rb) offset ;;
        rb <- store_cycle offset (add64 tail (capacity rb)) rb ;;
        Returned (rb, Some (id, price, qty))
      else if diff <? 0 then Returned (rb, None)
      else Dequeue fuel' rb
  end.

(** *** EnqueueBatch (brain.go, lines 77-114)

    [count] is [uint64(len(ids))]; the lengths of [prices] and [qtys] are
    never read.  The copy loop (lines 102-109) indexes all three inputs with
    the same [i]. *)
Fixpoint EnqueueBatch_copy (todo : nat) (i head : Z) (rb : RingBuffer)
    (src_ids : list Z) (src_prices : list float) (src_qtys : list Z)
    : outcome RingBuffer :=
  match todo with
  | O => Returned rb
  | S todo' =>
      let idx := Z.land (add64 head i) (mask rb) in
      id <- load src_ids i ;;
      price <- load src_prices i ;;
      qty <- load src_qtys i ;;
      rb <- store_payload idx id price qty rb ;;
      rb <- store_cycle idx (add64 (add64 head i) 1) rb ;;
      EnqueueBatch_copy todo' (i + 1) head rb src_ids src_prices src_qtys
  end.

Fixpoint EnqueueBatch (fuel : nat) (rb : RingBuffer)
    (src_ids : list Z) (src_prices : list float) (src_qtys : list Z)
    : outcome (RingBuffer * Z) :=
  match fuel with
  | O => Spinning
  | S fuel' =>
      let count := Z.of_nat (length src_ids) in
      let head := writeIndex rb in
      let offset := Z.land head (mask rb) in
      cycleVal <- load (cycleState rb) offset ;;
      let diff := isub64 (int64 cycleVal) (int64 head) in
      if diff <? 0 then Returned (rb, 0)
      else if diff =? 0 then
        let last := sub64 (add64 head count) 1 in
        let tailOffset := Z.land last (mask rb) in
        tailCycle <- load (cycleState rb) tailOffset ;;
        if isub64 (int64 tailCycle) (int64 last) <? 0 then Returned (rb, 0)
        else
          let rb := set_writeIndex (add64 head count) rb in
          rb <- EnqueueBatch_copy (Z.to_nat count) 0 head rb
                  src_ids src_prices src_qtys ;;
          Returned (rb, count)
      else EnqueueBatch fuel' rb src_ids src_prices src_qtys
  end.

(** *** DequeueBatch (brain.go, lines 116-160)

    The three slices are the caller's output buffers; the model returns their
    new contents.  [limit] is [uint64(len(ids))].  The inner loop of lines
    145-149 waits for the producer of one slot. *)
Fixpoint await_published (fuel : nat) (rb : RingBuffer) (currOffset currIndex : Z)
    : outcome unit :=
  match fuel with
  | O => Spinning
  | S fuel' =>
      c <- load (cycleState rb) currOffset ;;
      if c =? add64 currIndex 1 then Returned tt
      else await_published fuel' rb currOffset currIndex
  end.

Definition out_buffers : Type := list Z * list float * list Z.

Fixpoint DequeueBatch_copy (fuel todo : nat) (i tail : Z) (rb : RingBuffer)
    (dst_ids : list Z) (dst_prices : list float) (dst_qtys : list Z)
    : outcome (RingBuffer * out_buffers) :=
  match todo with
  | O => Returned (rb, (dst_ids, dst_prices, dst_qtys))
  | S todo' =>
      let currIndex := add64 tail i in
      let currOffset := Z.land currIndex (mask rb) in
      _ <- await_published fuel rb currOffset currIndex ;;
      id <- load (ids rb) currOffset ;;
      dst_ids <- store dst_ids i id ;;
      price <- load (prices rb) currOffset ;;
      dst_prices <- store dst_prices i price ;;
      qty <- load (qtys rb) currOffset ;;
      dst_qtys <- store dst_qtys i qty ;;
      rb <- store_cycle currOffset (add64 currIndex (capacity rb)) rb ;;
      DequeueBatch_copy fuel todo' (i + 1) tail rb dst_ids dst_prices dst_qtys
  end.

(** One pass through the outer loop (lines 124-159): every path of the body
    returns, except a failed compare-and-swap, which needs a second thread. *)
Definition DequeueBatch_attempt (fuel : nat) (limit : Z) (rb : RingBuffer)
    (dst_ids : list Z) (dst_prices : list float) (dst_qtys : list Z)
    : outcome (RingBuffer * out_buffers * Z) :=
  let tail := readIndex rb in
  let offset := Z.land tail (mask rb) in
  cycleVal <- load (cycleState rb) offset ;;
  if isub64 (int64 cycleVal) (int64 (add64 tail 1)) <? 0
  then Returned (rb, (dst_ids, dst_prices, dst_qtys), 0)
  else
    let tailOffset := Z.land (sub64 (add64 tail limit) 1) (mask rb) in
    tailCycle <- load (cycleState rb) tailOffset ;;
    if isub64 (int64 tailCycle) (int64 (add64 tail limit)) <? 0
    then Returned (rb, (dst_ids, dst_prices, dst_qtys), 0)
    else
      let rb := set_readIndex (add64 tail limit) rb in
      r <- DequeueBatch_copy fuel (Z.to_nat limit) 0 tail rb
             dst_ids dst_prices dst_qtys ;;
      Returned (r, limit).

Definition DequeueBatch (fuel : nat) (rb : RingBuffer)
    (dst_ids : list Z) (dst_prices : list float) (dst_qtys : list Z)
    : outcome (RingBuffer * out_buffers * Z) :=
  let limit := Z.of_nat (length dst_ids) in
  if limit =? 0 then Returned (rb, (dst_ids, dst_prices, dst_qtys), 0)
  else
    match fuel with
    | O => Spinning
    | S _ => DequeueBatch_attempt fuel limit rb dst_ids dst_prices dst_qtys
    end.

(** ** Sequential programs over one buffer *)

Inductive op : Type :=
| OpEnqueue (id : Z) (price : float) (qty : Z)
| OpDequeue
| OpEnqueueBatch (src_ids : list Z) (src_prices : list float) (src_qtys : list Z)
| OpDequeueBatch (dst_ids : list Z) (dst_prices : list float) (dst_qtys : list Z).

Definition step (fuel : nat) (rb : RingBuffer) (o : op) : outcome RingBuffer :=
  match o with
  | OpEnqueue id price qty =>
      r <- Enqueue fuel rb id price qty ;; Returned (fst r)
  | OpDequeue =>
      r <- Dequeue fuel rb ;; Returned (fst r)
  | OpEnqueueBatch a b c =>
      r <- EnqueueBatch fuel rb a b c ;; Returned (fst r)
  | OpDequeueBatch a b c =>
      r <- DequeueBatch fuel rb a b c ;; Returned (fst (fst r))
  end.

Fixpoint run (fuel : nat) (ops : list op) (rb : RingBuffer) : outcome RingBuffer :=
  match ops with
  | [] => Returned rb
  | o :: ops' => rb' <- step fuel rb o ;; run fuel ops' rb'
  end.

(** The number of records an operation asks to move. *)
Definition op_weight (o : op) : Z :=
  match o with
  | OpEnqueue _ _ _ => 1
  | OpDequeue => 1
  | OpEnqueueBatch a _ _ => Z.of_nat (length a)
  | OpDequeueBatch a _ _ => Z.of_nat (length a)
  end.

Fixpoint ops_weight (ops : list op) : Z :=
  match ops with
  | [] => 0
  | o :: ops' => op_weight o + ops_weight ops'
  end.

(** ** Predicates used in the statements *)

Definition is_pow2 (c : Z) : Prop := exists k, 0 <= k /\ c = 2 ^ k.

(** The position of the window [[t, t + c)] that shares its slot with [x]. *)
Definition window_pos (c t x : Z) : Z := t + (x - t) mod c.

Definition slot (c p : Z) : nat := Z.to_nat (p mod c).


(** The slices have [capacity] entries, [capacity] is a power of two and the
    mask is [capacity - 1]. *)
Record shape (rb : RingBuffer) : Prop := mkShape {
  shape_cap : is_pow2 (capacity rb);
  shape_mask : mask rb = capacity rb - 1;
  shape_cycle : length (cycleState rb) = Z.to_nat (capacity rb);
  shape_ids : length (ids rb) = Z.to_nat (capacity rb);
  shape_prices : length (prices rb) = Z.to_nat (capacity rb);
  shape_qtys : length (qtys rb) = Z.to_nat (capacity rb)
}.

(** The state between two calls of a buffer with at least two slots: the
    positions [[readIndex, writeIndex)] are filled, the positions
    [[writeIndex, readIndex + capacity)] are empty, and no cursor has come
    near [2^63]. *)
Record wf (rb : RingBuffer) : Prop := mkWf {
  wf_shape : shape rb;
  wf_cap2 : 2 <= capacity rb;
  wf_tail : 0 <= readIndex rb <= writeIndex rb;
  wf_occ : writeIndex rb <= readIndex rb + capacity rb;
  wf_bound : writeIndex rb + capacity rb < 2 ^ 63;
  wf_filled : forall p, readIndex rb <= p < writeIndex rb ->
    cycleState rb !! slot (capacity rb) p = Some (p + 1);
  wf_empty : forall p, writeIndex rb <= p < readIndex rb + capacity rb ->
    cycleState rb !! slot (capacity rb) p = Some p
}.

(** The state between two calls of a buffer with a single slot: "filled at
    round k" and "empty at round k + 1" are the same cycle value, and the one
    cycle counter always equals [writeIndex]. *)
Record wf1 (rb : RingBuffer) : Prop := mkWf1 {
  wf1_shape : shape rb;
  wf1_cap : capacity rb = 1;
  wf1_tail : 0 <= readIndex rb <= writeIndex rb;
  wf1_bound : writeIndex rb + 1 < 2 ^ 63;
  wf1_cycle : cycleState rb = [writeIndex rb]
}.

(** The state of slot [s] after a producer has written a record and
    published cycle value [v]. *)
Definition write_slot (s : nat) (id : Z) (price : float) (qty v : Z)
    (rb : RingBuffer) : RingBuffer :=
  mkRingBuffer (capacity rb) (mask rb) (writeIndex rb) (readIndex rb)
               (<[s := v]> (cycleState rb)) (<[s := id]> (ids rb))
               (<[s := price]> (prices rb)) (<[s := qty]> (qtys rb)).

(** [rb'] is [rb] after the records [a], [b], [c] were written at the cursor
    positions [writeIndex rb, writeIndex rb + 1, ...] and each slot's cycle
    was published; nothing else changed. *)
Record enqueued (a : list Z) (b : list float) (c : list Z)
    (rb rb' : RingBuffer) : Prop := mkEnqueued {
  enq_capacity : capacity rb' = capacity rb;
  enq_mask : mask rb' = mask rb;
  enq_head : writeIndex rb' = writeIndex rb + Z.of_nat (length a);
  enq_tail : readIndex rb' = readIndex rb;
  enq_len_cycle : length (cycleState rb') = length (cycleState rb);
  enq_len_ids : length (ids rb') = length (ids rb);
  enq_len_prices : length (prices rb') = length (prices rb);
  enq_len_qtys : length (qtys rb') = length (qtys rb);
  enq_slots : forall j : nat, (j < length a)%nat ->
    cycleState rb' !! slot (capacity rb) (writeIndex rb + Z.of_nat j)
      = Some (writeIndex rb + Z.of_nat j + 1) /\
    ids rb' !! slot (capacity rb) (writeIndex rb + Z.of_nat j) = a !! j /\
    prices rb' !! slot (capacity rb) (writeIndex rb + Z.of_nat j) = b !! j /\
    qtys rb' !! slot (capacity rb) (writeIndex rb + Z.of_nat j) = c !! j;
  enq_others : forall s : nat,
    (forall j : nat, (j < length a)%nat ->
       slot (capacity rb) (writeIndex rb + Z.of_nat j) <> s) ->
    cycleState rb' !! s = cycleState rb !! s /\
    ids rb' !! s = ids rb !! s /\
    prices rb' !! s = prices rb !! s /\
    qtys rb' !! s = qtys rb !! s
}.

(** [rb'] is [rb] after [n] records were taken at the cursor positions
    [readIndex rb, readIndex rb + 1, ...] and each slot was released for the
    next lap; the payload arrays are not written. *)
Record dequeued (n : nat) (rb rb' : RingBuffer) : Prop := mkDequeued {
  deq_capacity : capacity rb' = capacity rb;
  deq_mask : mask rb' = mask rb;
  deq_head : writeIndex rb' = writeIndex rb;
  deq_tail : readIndex rb' = readIndex rb + Z.of_nat n;
  deq_ids : ids rb' = ids rb;
  deq_prices : prices rb' = prices rb;
  deq_qtys : qtys rb' = qtys rb;
  deq_len_cycle : length (cycleState rb') = length (cycleState rb);
  deq_slots : forall j : nat, (j < n)%nat ->
    cycleState rb' !! slot (capacity rb) (readIndex rb + Z.of_nat j)
      = Some (readIndex rb + Z.of_nat j + capacity rb);
  deq_others : forall s : nat,
    (forall j : nat, (j < n)%nat ->
       slot (capacity rb) (readIndex rb + Z.of_nat j) <> s) ->
    cycleState rb' !! s = cycleState rb !! s
}.

(** The buffer states a sequential program reaches from a fresh buffer of
    capacity [c].  The specification takes cursor wrap-around as not occurring
    within the lifetime of a buffer (section 3, "Cursor"); the bound on the
    records requested over the whole program states that assumption. *)
Definition reachable (c : Z) (rb : RingBuffer) : Prop :=
  exists (fuel : nat) (ops : list op),
    ops_weight ops + c < 2 ^ 63 /\ run fuel ops (Newbuffer c) = Returned rb.

(** The three slices of a batch call are long enough for the first one's
    length, which is the only length the code reads. *)
Definition op_aligned (o : op) : Prop :=
  match o with
  | OpEnqueueBatch a b c | OpDequeueBatch a b c =>
      (length a <= length b)%nat /\ (length a <= length c)%nat
  | _ => True
  end.

(** The state between two calls, for either kind of capacity. *)
Definition inv (rb : RingBuffer) : Prop := wf rb \/ wf1 rb.

(** ** Interleaved execution

    Several goroutines share one buffer.  The operations of [sync/atomic] are
    sequentially consistent, so an execution is an interleaving: each load,
    store or compare-and-swap of a cursor or of a cycle counter, and each read
    or write of one payload field, is one step of the goroutine that performs
    it; the steps of different goroutines interleave in any order.  Between two such accesses a
    goroutine only computes on its locals.  The locals of a call in progress
    are the arguments of its program point. *)

(** Program points of Enqueue (brain.go, lines 55, 57, 62, 70, 71, 72, 73). *)
Inductive enq_pc : Type :=
| EnqLoadHead
| EnqLoadCycle (head : Z)
| EnqCas (head : Z)
| EnqWriteId (head : Z)
| EnqWritePrice (head : Z)
| EnqWriteQty (head : Z)
| EnqStoreCycle (head : Z).

Definition Enqueue_step (id : Z) (price : float) (qty : Z) (rb : RingBuffer)
    (p : enq_pc) : outcome (RingBuffer * (enq_pc + bool)) :=
  match p with
  | EnqLoadHead => Returned (rb, inl (EnqLoadCycle (writeIndex rb)))
  | EnqLoadCycle head =>
      cycleVal <- load (cycleState rb) (Z.land head (mask rb)) ;;
      let diff := isub64 (int64 cycleVal) (int64 head) in
      if diff =? 0 then Returned (rb, inl (EnqCas head))
      else if diff <? 0 then Returned (rb, inr false)
      else Returned (rb, inl EnqLoadHead)
  | EnqCas head =>
      if writeIndex rb =? head
      then Returned (set_writeIndex (add64 head 1) rb, inl (EnqWriteId head))
      else Returned (rb, inl EnqLoadHead)
  | EnqWriteId head =>
      a <- store (ids rb) (Z.land head (mask rb)) id ;;
      Returned (set_ids a rb, inl (EnqWritePrice head))
  | EnqWritePrice head =>
      b <- store (prices rb) (Z.land head (mask rb)) price ;;
      Returned (set_prices b rb, inl (EnqWriteQty head))
  | EnqWriteQty head =>
      c <- store (qtys rb) (Z.land head (mask rb)) qty ;;
      Returned (set_qtys c rb, inl (EnqStoreCycle head))
  | EnqStoreCycle head =>
      rb <- store_cycle (Z.land head (mask rb)) (add64 head 1) rb ;;
      Returned (rb, inr true)
  end.

(** Program points of Dequeue (lines 169, 171, 176, 184, 185, 186, 188). *)
Inductive deq_pc : Type :=
| DeqLoadTail
| DeqLoadCycle (tail : Z)
| DeqCas (tail : Z)
| DeqReadId (tail : Z)
| DeqReadPrice (tail id : Z)
| DeqReadQty (tail id : Z) (price : float)
| DeqStoreCycle (tail id : Z) (price : float) (qty : Z).

Definition Dequeue_step (rb : RingBuffer) (p : deq_pc)
    : outcome (RingBuffer * (deq_pc + option (Z * float * Z))) :=
  match p with
  | DeqLoadTail => Returned (rb, inl (DeqLoadCycle (readIndex rb)))
  | DeqLoadCycle tail =>
      cycleVal <- load (cycleState rb) (Z.land tail (mask rb)) ;;
      let diff := isub64 (int64 cycleVal) (int64 (add64 tail 1)) in
      if diff =? 0 then Returned (rb, inl (DeqCas tail))
      else if diff <? 0 then Returned (rb, inr None)
      else Returned (rb, inl DeqLoadTail)
  | DeqCas tail =>
      if readIndex rb =? tail
      then Returned (set_readIndex (add64 tail 1) rb, inl (DeqReadId tail))
      else Returned (rb, inl DeqLoadTail)
  | DeqReadId tail =>
      id <- load (ids rb) (Z.land tail (mask rb)) ;;
      Returned (rb, inl (DeqReadPrice tail id))
  | DeqReadPrice tail id =>
      price <- load (prices rb) (Z.land tail (mask rb)) ;;
      Returned (rb, inl (DeqReadQty tail id price))
  | DeqReadQty tail id price =>
      qty <- load (qtys rb) (Z.land tail (mask rb)) ;;
      Returned (rb, inl (DeqStoreCycle tail id price qty))
  | DeqStoreCycle tail id price qty =>
      rb <- store_cycle (Z.land tail (mask rb)) (add64 tail (capacity rb)) rb ;;
      Returned (rb, inr (Some (id, price, qty)))
  end.

(** Program points of EnqueueBatch (lines 85, 88, 96, 101, 105, 106, 107,
    108).  The copy loop writes slot after slot without reading any cycle
    counter. *)
Inductive eb_pc : Type :=
| EbLoadHead
| EbLoadCycle (head : Z)
| EbLoadLastCycle (head : Z)
| EbCas (head : Z)
| EbWriteId (head i : Z)
| EbWritePrice (head i : Z)
| EbWriteQty (head i : Z)
| EbStoreCycle (head i : Z).

(** The loop test [i < count] of line 102. *)
Definition eb_loop (count head i : Z) : eb_pc + Z :=
  if i <? count then inl (EbWriteId head i) else inr count.

Definition EnqueueBatch_step (src_ids : list Z) (src_prices : list float)
    (src_qtys : list Z) (rb : RingBuffer) (p : eb_pc)
    : outcome (RingBuffer * (eb_pc + Z)) :=
  let count := Z.of_nat (length src_ids) in
  match p with
  | EbLoadHead => Returned (rb, inl (EbLoadCycle (writeIndex rb)))
  | EbLoadCycle head =>
      cycleVal <- load (cycleState rb) (Z.land head (mask rb)) ;;
      let diff := isub64 (int64 cycleVal) (int64 head) in
      if diff <? 0 then Returned (rb, inr 0)
      else if diff =? 0 then Returned (rb, inl (EbLoadLastCycle head))
      else Returned (rb, inl EbLoadHead)
  | EbLoadLastCycle head =>
      let last := sub64 (add64 head count) 1 in
      tailCycle <- load (cycleState rb) (Z.land last (mask rb)) ;;
      if isub64 (int64 tailCycle) (int64 last) <? 0 then Returned (rb, inr 0)
      else Returned (rb, inl (EbCas head))
  | EbCas head =>
      if writeIndex rb =? head
      then Returned (set_writeIndex (add64 head count) rb, eb_loop count head 0)
      else Returned (rb, inl EbLoadHead)
  | EbWriteId head i =>
      v <- load src_ids i ;;
      a <- store (ids rb) (Z.land (add64 head i) (mask rb)) v ;;
      Returned (set_ids a rb, inl (EbWritePrice head i))
  | EbWritePrice head i =>
      v <- load src_prices i ;;
      b <- store (prices rb) (Z.land (add64 head i) (mask rb)) v ;;
      Returned (set_prices b rb, inl (EbWriteQty head i))
  | EbWriteQty head i =>
      v <- load src_qtys i ;;
      c <- store (qtys rb) (Z.land (add64 head i) (mask rb)) v ;;
      Returned (set_qtys c rb, inl (EbStoreCycle head i))
  | EbStoreCycle head i =>
      rb <- store_cycle (Z.land (add64 head i) (mask rb))
              (add64 (add64 head i) 1) rb ;;
      Returned (rb, eb_loop count head (i + 1))
  end.

(** Program points of DequeueBatch (lines 125, 128, 135, 140, 146, 151, 152,
    153, 155); the output buffers filled so far travel with the program
    point. *)
Inductive db_pc : Type :=
| DbLoadTail (outs : out_buffers)
| DbLoadCycle (tail : Z) (outs : out_buffers)
| DbLoadLastCycle (tail : Z) (outs : out_buffers)
| DbCas (tail : Z) (outs : out_buffers)
| DbWait (tail i : Z) (outs : out_buffers)
| DbReadId (tail i : Z) (outs : out_buffers)
| DbReadPrice (tail i : Z) (outs : out_buffers)
| DbReadQty (tail i : Z) (outs : out_buffers)
| DbStoreCycle (tail i : Z) (outs : out_buffers).

(** The loop test [i < limit] of line 141. *)
Definition db_loop (limit tail i : Z) (outs : out_buffers)
    : db_pc + Z * out_buffers :=
  if i <? limit then inl (DbWait tail i outs) else inr (limit, outs).

Definition DequeueBatch_step (limit : Z) (rb : RingBuffer) (p : db_pc)
    : outcome (RingBuffer * (db_pc + Z * out_buffers)) :=
  match p with
  | DbLoadTail outs =>
      if limit =? 0 then Returned (rb, inr (0, outs))
      else Returned (rb, inl (DbLoadCycle (readIndex rb) outs))
  | DbLoadCycle tail outs =>
      cycleVal <- load (cycleState rb) (Z.land tail (mask rb)) ;;
      if isub64 (int64 cycleVal) (int64 (add64 tail 1)) <? 0
      then Returned (rb, inr (0, outs))
      else Returned (rb, inl (DbLoadLastCycle tail outs))
  | DbLoadLastCycle tail outs =>
      tailCycle <- load (cycleState rb)
                     (Z.land (sub64 (add64 tail limit) 1) (mask rb)) ;;
      if isub64 (int64 tailCycle) (int64 (add64 tail limit)) <? 0
      then Returned (rb, inr (0, outs))
      else Returned (rb, inl (DbCas tail outs))
  | DbCas tail outs =>
      if readIndex rb =? tail
      then Returned (set_readIndex (add64 tail limit) rb, db_loop limit tail 0 outs)
      else Returned (rb, inl (DbLoadTail outs))
  | DbWait tail i outs =>
      c <- load (cycleState rb) (Z.land (add64 tail i) (mask rb)) ;;
      if c =? add64 (add64 tail i) 1
      then Returned (rb, inl (DbReadId tail i outs))
      else Returned (rb, inl (DbWait tail i outs))
  | DbReadId tail i (di, dp, dq) =>
      v <- load (ids rb) (Z.land (add64 tail i) (mask rb)) ;;
      di <- store di i v ;;
      Returned (rb, inl (DbReadPrice tail i (di, dp, dq)))
  | DbReadPrice tail i (di, dp, dq) =>
      v <- load (prices rb) (Z.land (add64 tail i) (mask rb)) ;;
      dp <- store dp i v ;;
      Returned (rb, inl (DbReadQty tail i (di, dp, dq)))
  | DbReadQty tail i (di, dp, dq) =>
      v <- load (qtys rb) (Z.land (add64 tail i) (mask rb)) ;;
      dq <- store dq i v ;;
      Returned (rb, inl (DbStoreCycle tail i (di, dp, dq)))
  | DbStoreCycle tail i outs =>
      rb <- store_cycle (Z.land (add64 tail i) (mask rb))
              (add64 (add64 tail i) (capacity rb)) rb ;;
      Returned (rb, db_loop limit tail (i + 1) outs)
  end.

(** *** Goroutines *)

Inductive call : Type :=
| CallEnqueue (id : Z) (price : float) (qty : Z)
| CallDequeue
| CallEnqueueBatch (src_ids : list Z) (src_prices : list float) (src_qtys : list Z)
| CallDequeueBatch (dst_ids : list Z) (dst_prices : list float) (dst_qtys : list Z).

Inductive answer : Type :=
| AnsEnqueue (ok : bool)
| AnsDequeue (r : option (Z * float * Z))
| AnsEnqueueBatch (n : Z)
| AnsDequeueBatch (n : Z) (outs : out_buffers).

Inductive frame : Type :=
| InEnqueue (id : Z) (price : float) (qty : Z) (p : enq_pc)
| InDequeue (p : deq_pc)
| InEnqueueBatch (src_ids : list Z) (src_prices : list float) (src_qtys : list Z)
    (p : eb_pc)
| InDequeueBatch (limit : Z) (p : db_pc).

Definition enter (c : call) : frame :=
  match c with
  | CallEnqueue id price qty => InEnqueue id price qty EnqLoadHead
  | CallDequeue => InDequeue DeqLoadTail
  | CallEnqueueBatch a b c => InEnqueueBatch a b c EbLoadHead
  | CallDequeueBatch a b c =>
      InDequeueBatch (Z.of_nat (length a)) (DbLoadTail (a, b, c))
  end.

Definition frame_step (rb : RingBuffer) (f : frame)
    : outcome (RingBuffer * (frame + answer)) :=
  match f with
  | InEnqueue id price qty p =>
      r <- Enqueue_step id price qty rb p ;;
      Returned (fst r, match snd r with
                       | inl p' => inl (InEnqueue id price qty p')
                       | inr ok => inr (AnsEnqueue ok)
                       end)
  | InDequeue p =>
      r <- Dequeue_step rb p ;;
      Returned (fst r, match snd r with
                       | inl p' => inl (InDequeue p')
                       | inr v => inr (AnsDequeue v)
                       end)
  | InEnqueueBatch a b c p =>
      r <- EnqueueBatch_step a b c rb p ;;
      Returned (fst r, match snd r with
                       | inl p' => inl (InEnqueueBatch a b c p')
                       | inr n => inr (AnsEnqueueBatch n)
                       end)
  | InDequeueBatch limit p =>
      r <- DequeueBatch_step limit rb p ;;
      Returned (fst r, match snd r with
                       | inl p' => inl (InDequeueBatch limit p')
                       | inr (n, outs) => inr (AnsDequeueBatch n outs)
                       end)
  end.

(** A goroutine: the call it is inside, the calls it still has to make, and
    the calls it has finished with their results. *)
Record thread : Type := mkThread {
  running : option (call * frame);
  pending : list call;
  history : list (call * answer)
}.

Definition thread_step (rb : RingBuffer) (th : thread) : outcome (RingBuffer * thread) :=
  let resume (c : call) (f : frame) (rest : list call) :=
    r <- frame_step rb f ;;
    Returned (fst r, match snd r with
                     | inl f' => mkThread (Some (c, f')) rest (history th)
                     | inr a => mkThread None rest (history th ++ [(c, a)])
                     end) in
  match running th, pending th with
  | Some (c, f), rest => resume c f rest
  | None, c :: rest => resume c (enter c) rest
  | None, [] => Returned (rb, th)
  end.

Record system : Type := mkSystem {
  buffer : RingBuffer;
  threads : list thread
}.

(** One step of goroutine [k]. *)
Definition sched (sys : system) (k : nat) : outcome system :=
  match threads sys !! k with
  | None => Returned sys
  | Some th =>
      r <- thread_step (buffer sys) th ;;
      Returned (mkSystem (fst r) (<[k := snd r]> (threads sys)))
  end.

(** An interleaving is the list of the goroutines that step, in order. *)
Fixpoint exec (schedule : list nat) (sys : system) : outcome system :=
  match schedule with
  | [] => Returned sys
  | k :: schedule' => sys' <- sched sys k ;; exec schedule' sys'
  end.

(** One goroutine alone, from a program point to the end of its call. *)
Fixpoint solo (n : nat) (rb : RingBuffer) (f : frame) : outcome (RingBuffer * answer) :=
  match n with
  | O => Spinning
  | S n' =>
      r <- frame_step rb f ;;
      match snd r with
      | inl f' => solo n' (fst r) f'
      | inr a => Returned (fst r, a)
      end
  end.

(** The ids a finished call has put into the buffer, and the ids it has taken
    out. *)
Definition accepted (e : call * answer) : list Z :=
  match e with
  | (CallEnqueue id _ _, AnsEnqueue true) => [id]
  | (CallEnqueueBatch src_ids _ _, AnsEnqueueBatch n) => take (Z.to_nat n) src_ids
  | _ => []
  end.

Definition delivered (e : call * answer) : list Z :=
  match e with
  | (_, AnsDequeue (Some (id, _, _))) => [id]
  | (_, AnsDequeueBatch n (dst_ids, _, _)) => take (Z.to_nat n) dst_ids
  | _ => []
  end.

Definition all_accepted (sys : system) : list Z :=
  concat (map (fun th => concat (map accepted (history th))) (threads sys)).

Definition all_delivered (sys : system) : list Z :=
  concat (map (fun th => concat (map delivered (history th))) (threads sys)).

(** Every goroutine has finished its program. *)
Definition quiescent (sys : system) : Prop :=
  Forall (fun th => running th = None /\ pending th = []) (threads sys).

(** One producer and two consumers on a buffer of capacity 4. *)
Definition lossy_start : system :=
  mkSystem (Newbuffer 4)
    [ mkThread None
        [CallEnqueue 1 100 1; CallEnqueue 2 100 1; CallEnqueue 3 100 1;
         CallEnqueue 4 100 1;
         CallEnqueueBatch [5; 6; 7; 8] [100; 100; 100; 100]%float [1; 1; 1; 1]] [];
      mkThread None [CallDequeue; CallDequeue; CallDequeue; CallDequeue; CallDequeue] [];
      mkThread None [CallDequeue; CallDequeue] [] ].

(** The producer enqueues four records; consumer 1 takes the first; consumer
    2 wins the compare-and-swap for the second and is preempted before it
    reads the payload; consumer 1 takes the third and fourth; the producer
    enqueues a batch of four; consumer 2 resumes; both consumers drain until
    Dequeue answers [false]. *)
Definition lossy_schedule : list nat :=
  replicate 28 0%nat ++ replicate 7 1%nat ++ replicate 3 2%nat ++
  replicate 14 1%nat ++ replicate 20 0%nat ++ replicate 4 2%nat ++
  replicate 9 1%nat ++ replicate 2 2%nat.

(** ** The buffer as a queue of records *)

Abbreviation record := (Z * float * Z)%type.

#[global] Instance float_inhabited : Inhabited float := populate 0%float.

(** The record stored in the slot of cursor position [p]. *)
Definition record_at (rb : RingBuffer) (p : Z) : record :=
  (ids rb !!! slot (capacity rb) p,
   prices rb !!! slot (capacity rb) p,
   qtys rb !!! slot (capacity rb) p).

(** The records waiting in the buffer, oldest first: those of the cursor
    positions [readIndex, ..., writeIndex - 1]. *)
Definition contents (rb : RingBuffer) : list record :=
  record_at rb <$> seqZ (readIndex rb) (writeIndex rb - readIndex rb).

(** The three parallel slices of a batch, as records. *)
Definition records (a : list Z) (b : list float) (c : list Z) : list record :=
  zip (zip a b) c.

(** A bounded first-in first-out queue of capacity [c]: what each operation
    does to the list of waiting records. *)
Definition queue_step (c : Z) (q : list record) (o : op) : list record :=
  match o with
  | OpEnqueue id price qty =>
      if Z.of_nat (length q) <? c then q ++ [(id, price, qty)] else q
  | OpDequeue => drop 1 q
  | OpEnqueueBatch a b c0 =>
      if Z.of_nat (length q) + Z.of_nat (length a) <=? c
      then q ++ records a b c0 else q
  | OpDequeueBatch a _ _ =>
      if (length a <=? length q)%nat then drop (length a) q else q
  end.

(** A batch as the single-record calls in the same order. *)
Definition enqueue_each (a : list Z) (b : list float) (c : list Z) : list op :=
  (fun r : record => OpEnqueue r.1.1 r.1.2 r.2) <$> records a b c.
(** * Arithmetic of cursors and slots *)

Lemma u64_small z : 0 <= z < 2 ^ 64 -> u64 z = z.
Proof. intros H. unfold u64. apply Z.mod_small. exact H. Qed.

Lemma add64_small a b : 0 <= a + b < 2 ^ 64 -> add64 a b = a + b.
Proof. apply u64_small. Qed.

Lemma sub64_small a b : 0 <= a - b < 2 ^ 64 -> sub64 a b = a - b.
Proof. apply u64_small. Qed.

Lemma int64_small x : x < 2 ^ 63 -> int64 x = x.
Proof. intros H. unfold int64. destruct (Z.ltb_spec x (2 ^ 63)); lia. Qed.

Lemma isub64_small a b : - 2 ^ 63 <= a - b < 2 ^ 63 -> isub64 a b = a - b.
Proof. intros H. unfold isub64. rewrite Z.mod_small; lia. Qed.

(** The signed lap difference of two cursors that are both below [2^63]. *)
Lemma lap_diff_small c k :
  0 <= c < 2 ^ 63 -> 0 <= k < 2 ^ 63 -> isub64 (int64 c) (int64 k) = c - k.
Proof.
  intros Hc Hk. rewrite !int64_small by lia. apply isub64_small. lia.
Qed.


Lemma is_pow2_pos c : is_pow2 c -> 1 <= c.
Proof. intros (k & Hk & ->). pose proof (Z.pow_pos_nonneg 2 k). lia. Qed.

Lemma is_pow2_cases c : is_pow2 c -> c = 1 \/ (2 <= c /\ exists k, 1 <= k /\ c = 2 ^ k).
Proof.
  intros (k & Hk & ->). destruct (Z.eq_dec k 0) as [-> | Hne].
  - left. reflexivity.
  - right. split.
    + replace k with (Z.succ (k - 1)) by lia.
      rewrite Z.pow_succ_r by lia.
      pose proof (Z.pow_pos_nonneg 2 (k - 1)). lia.
    + exists k. split; [lia | reflexivity].
Qed.

(** Masking with [capacity - 1] is the remainder by [capacity]. *)
Lemma land_mask c x : is_pow2 c -> Z.land x (c - 1) = x mod c.
Proof.
  intros (k & Hk & ->).
  replace (2 ^ k - 1) with (Z.ones k) by (rewrite Z.ones_equiv; lia).
  apply Z.land_ones. exact Hk.
Qed.


Lemma window_pos_range c t x : 0 < c -> t <= window_pos c t x < t + c.
Proof.
  intros Hc. unfold window_pos. pose proof (Z.mod_pos_bound (x - t) c Hc). lia.
Qed.

Lemma window_pos_mod c t x : 0 < c -> window_pos c t x mod c = x mod c.
Proof.
  intros Hc. unfold window_pos.
  rewrite Zplus_mod_idemp_r. f_equal. lia.
Qed.

Lemma window_pos_trichotomy c t x :
  0 < c ->
  window_pos c t x = x \/ window_pos c t x + c <= x \/ x + c <= window_pos c t x.
Proof.
  intros Hc. unfold window_pos.
  pose proof (Z.div_mod (x - t) c ltac:(lia)) as Hdm.
  pose proof (Z.mod_pos_bound (x - t) c Hc) as Hr.
  destruct (Z.lt_trichotomy ((x - t) / c) 0) as [Hd | [Hd | Hd]]; nia.
Qed.

Lemma window_pos_inside c t x : 0 < c -> t <= x < t + c -> window_pos c t x = x.
Proof.
  intros Hc Hx. pose proof (window_pos_range c t x Hc).
  destruct (window_pos_trichotomy c t x Hc) as [? | [? | ?]]; lia.
Qed.

(** Two positions of one window that share a slot are equal. *)
Lemma window_slot_inj c t p q :
  0 < c -> t <= p < t + c -> t <= q < t + c -> p mod c = q mod c -> p = q.
Proof.
  intros Hc Hp Hq Heq.
  rewrite <- (window_pos_inside c t p Hc Hp), <- (window_pos_inside c t q Hc Hq).
  unfold window_pos. f_equal.
  rewrite <- (Zminus_mod_idemp_l p), <- (Zminus_mod_idemp_l q), Heq. reflexivity.
Qed.


Lemma slot_lt c p : 0 < c -> (slot c p < Z.to_nat c)%nat.
Proof. intros Hc. unfold slot. pose proof (Z.mod_pos_bound p c Hc). lia. Qed.

Lemma slot_inj c t p q :
  0 < c -> t <= p < t + c -> t <= q < t + c -> slot c p = slot c q -> p = q.
Proof.
  intros Hc Hp Hq Heq. apply (window_slot_inj c t); try assumption.
  unfold slot in Heq.
  pose proof (Z.mod_pos_bound p c Hc). pose proof (Z.mod_pos_bound q c Hc). lia.
Qed.

Lemma slot_window_pos c t x : 0 < c -> slot c (window_pos c t x) = slot c x.
Proof. intros Hc. unfold slot. rewrite window_pos_mod by assumption. reflexivity. Qed.

(** * Slices: loads and stores that stay in range *)

Lemma load_Some {A : Type} (s : list A) (i : Z) (v : A) :
  s !! Z.to_nat i = Some v -> load s i = Returned v.
Proof. intros H. unfold load. rewrite H. reflexivity. Qed.

Lemma load_None {A : Type} (s : list A) (i : Z) :
  s !! Z.to_nat i = None -> load s i = Panicked.
Proof. intros H. unfold load. rewrite H. reflexivity. Qed.

Lemma store_lt {A : Type} (s : list A) (i : Z) (v : A) :
  (Z.to_nat i < length s)%nat -> store s i v = Returned (<[Z.to_nat i := v]> s).
Proof. intros H. unfold store. destruct (decide _); [reflexivity | contradiction]. Qed.

Lemma bind_Returned {A B : Type} (m : outcome A) (k : A -> outcome B) (b : B) :
  bind m k = Returned b -> exists a, m = Returned a /\ k a = Returned b.
Proof. destruct m as [a | |]; simpl; intros H; [eauto | discriminate | discriminate]. Qed.

(** * Newbuffer *)

Lemma init_cycle_length todo i cs : length (init_cycle todo i cs) = length cs.
Proof.
  revert i cs. induction todo as [| todo IH]; intros i cs; simpl.
  - reflexivity.
  - rewrite IH. apply length_insert.
Qed.

Lemma init_cycle_lookup todo i cs (j : nat) :
  0 <= i -> (Z.to_nat i + todo <= length cs)%nat ->
  init_cycle todo i cs !! j =
    if decide (Z.to_nat i <= j < Z.to_nat i + todo)%nat then Some (Z.of_nat j) else cs !! j.
Proof.
  revert i cs. induction todo as [| todo IH]; intros i cs Hi Hlen; simpl.
  - destruct (decide _); [lia | reflexivity].
  - rewrite IH by (rewrite ?length_insert; lia).
    replace (Z.to_nat (i + 1)) with (S (Z.to_nat i)) by lia.
    destruct (decide (S (Z.to_nat i) <= j < S (Z.to_nat i) + todo)%nat) as [Hin | Hout].
    + destruct (decide _); [reflexivity | lia].
    + destruct (decide (Z.to_nat i = j)) as [<- | Hne].
      * rewrite list_lookup_insert_eq by lia.
        destruct (decide _); [f_equal; lia | lia].
      * rewrite list_lookup_insert_ne by assumption.
        destruct (decide _); [lia | reflexivity].
Qed.

Lemma Newbuffer_cycle c i :
  0 <= i < c -> cycleState (Newbuffer c) !! Z.to_nat i = Some i.
Proof.
  intros Hi. simpl. rewrite init_cycle_lookup by (rewrite ?length_replicate; lia).
  destruct (decide _); [f_equal; lia | lia].
Qed.

Lemma Newbuffer_fields (c : Z) :
  capacity (Newbuffer c) = c /\
  mask (Newbuffer c) = (c - 1) mod 2 ^ 64 /\
  writeIndex (Newbuffer c) = 0 /\
  readIndex (Newbuffer c) = 0 /\
  length (cycleState (Newbuffer c)) = Z.to_nat c /\
  length (ids (Newbuffer c)) = Z.to_nat c /\
  length (prices (Newbuffer c)) = Z.to_nat c /\
  length (qtys (Newbuffer c)) = Z.to_nat c /\
  (forall i, 0 <= i < c -> cycleState (Newbuffer c) !! Z.to_nat i = Some i).
Proof.
  repeat split; try reflexivity.
  - simpl. rewrite init_cycle_length. apply length_replicate.
  - simpl. apply length_replicate.
  - simpl. apply length_replicate.
  - simpl. apply length_replicate.
  - apply Newbuffer_cycle.
Qed.

Lemma make_granted {A : Type} (maxAlloc size : Z) (zero : A) (len : Z) :
  len < 2 ^ 63 -> size * len <= maxAlloc ->
  make maxAlloc size zero len = Returned (replicate (Z.to_nat len) zero).
Proof.
  intros Hint Hmem. unfold make.
  destruct (Z.ltb_spec len (2 ^ 63)); [| lia].
  destruct (Z.leb_spec (size * len) maxAlloc); [reflexivity | lia].
Qed.

Lemma make_refused {A : Type} (maxAlloc size : Z) (zero : A) (len : Z) :
  ~ (len < 2 ^ 63 /\ size * len <= maxAlloc) ->
  make maxAlloc size zero len = Panicked.
Proof.
  intros Hno. unfold make.
  destruct (Z.ltb_spec len (2 ^ 63)); [| reflexivity].
  destruct (Z.leb_spec (size * len) maxAlloc); [tauto | reflexivity].
Qed.

(** C1 (as amended): [Newbuffer] has no validation and no error result; what
    it does depends on the size of the capacity alone, never on its being a
    power of two or nonzero.  For every [uint64] capacity whose slices the
    runtime allocates (the capacity fits an [int] and [8 * capacity] bytes are
    within the allocation limit), zero and non-powers of two included, the
    call returns a buffer whose [capacity] field is the argument, whose mask
    is [capacity - 1] with [uint64] wrap-around, whose cursors are both 0,
    whose four slices have [capacity] entries and whose cycle array holds
    [cycleState[i] = i].  For every larger capacity the first [make] panics. *)
Theorem Newbuffer_validates_nothing (maxAlloc c : Z) :
  0 <= c < 2 ^ 64 ->
  (c < 2 ^ 63 /\ 8 * c <= maxAlloc ->
   Newbuffer_call maxAlloc c = Returned (Newbuffer c) /\
   capacity (Newbuffer c) = c /\
   mask (Newbuffer c) = (c - 1) mod 2 ^ 64 /\
   writeIndex (Newbuffer c) = 0 /\
   readIndex (Newbuffer c) = 0 /\
   length (cycleState (Newbuffer c)) = Z.to_nat c /\
   length (ids (Newbuffer c)) = Z.to_nat c /\
   length (prices (Newbuffer c)) = Z.to_nat c /\
   length (qtys (Newbuffer c)) = Z.to_nat c /\
   (forall i, 0 <= i < c -> cycleState (Newbuffer c) !! Z.to_nat i = Some i)) /\
  (~ (c < 2 ^ 63 /\ 8 * c <= maxAlloc) -> Newbuffer_call maxAlloc c = Panicked).
Proof.
  intros Hc. split.
  - intros [Hint Hmem]. split; [| apply Newbuffer_fields].
    unfold Newbuffer_call.
    rewrite !make_granted by lia. reflexivity.
  - intros Hno. unfold Newbuffer_call.
    rewrite (make_refused maxAlloc 8 0 c Hno). reflexivity.
Qed.

Lemma Newbuffer_validates_nothing_witness :
  0 <= 3 < 2 ^ 64 /\
  Newbuffer_call (2 ^ 48) 3 = Returned (Newbuffer 3) /\
  capacity (Newbuffer 3) = 3 /\ mask (Newbuffer 3) = 2.
Proof.
  split; [lia |].
  destruct (Newbuffer_validates_nothing (2 ^ 48) 3 ltac:(lia)) as [Hok _].
  destruct (Hok ltac:(lia)) as (H0 & H1 & H2 & _).
  split; [exact H0 |]. split; [exact H1 | exact H2].
Defined.

(** C1 (as stated) fails: with capacity 3, which is not a power of two, the
    call [Newbuffer(3)] returns a buffer, and that buffer accepts a record and
    hands it back. *)
Lemma Newbuffer_3_is_usable :
  3 <> 0 /\ ~ is_pow2 3 /\
  Newbuffer_call (2 ^ 48) 3 = Returned (Newbuffer 3) /\
  Newbuffer 3 = mkRingBuffer 3 2 0 0 [0; 1; 2] [0; 0; 0] [0; 0; 0]%float [0; 0; 0] /\
  Enqueue 1 (Newbuffer 3) 7 100%float 1 =
    Returned (mkRingBuffer 3 2 1 0 [1; 1; 2] [7; 0; 0] [100; 0; 0]%float [1; 0; 0], true) /\
  Dequeue 1 (mkRingBuffer 3 2 1 0 [1; 1; 2] [7; 0; 0] [100; 0; 0]%float [1; 0; 0]) =
    Returned (mkRingBuffer 3 2 1 1 [3; 1; 2] [7; 0; 0] [100; 0; 0]%float [1; 0; 0],
              Some (7, 100%float, 1)).
Proof.
  split; [lia |]. split.
  - intros (k & Hk & Heq).
    destruct (Z.eq_dec k 0) as [-> | ?]; [discriminate |].
    destruct (Z.eq_dec k 1) as [-> | ?]; [discriminate |].
    assert (2 ^ 2 <= 2 ^ k) by (apply Z.pow_le_mono_r; lia).
    change (2 ^ 2) with 4 in *. lia.
  - repeat split; vm_compute; reflexivity.
Qed.

(** * Reading and writing one slot of a well-shaped buffer *)

Section Shape.
Variable rb : RingBuffer.
Hypothesis Hshape : shape rb.

Lemma shape_cap_pos : 1 <= capacity rb.
Proof. apply is_pow2_pos, Hshape. Qed.

Lemma offset_slot x : Z.to_nat (Z.land x (mask rb)) = slot (capacity rb) x.
Proof.
  rewrite (shape_mask rb Hshape), land_mask by apply Hshape. reflexivity.
Qed.

Lemma slot_lt_cycle x : (slot (capacity rb) x < length (cycleState rb))%nat.
Proof.
  rewrite (shape_cycle rb Hshape). apply slot_lt. pose proof shape_cap_pos. lia.
Qed.

Lemma cycle_defined x : exists v, cycleState rb !! slot (capacity rb) x = Some v.
Proof. apply lookup_lt_is_Some_2, slot_lt_cycle. Qed.

Lemma store_slot {B : Type} x id price qty v (k : RingBuffer -> outcome B) :
  (rb1 <- store_payload (Z.land x (mask rb)) id price qty rb ;;
   rb2 <- store_cycle (Z.land x (mask rb)) v rb1 ;;
   k rb2)
  = k (write_slot (slot (capacity rb) x) id price qty v rb).
Proof.
  pose proof shape_cap_pos as Hc.
  assert (Hlt : (slot (capacity rb) x < Z.to_nat (capacity rb))%nat)
    by (apply slot_lt; lia).
  unfold store_payload, store_cycle.
  rewrite (store_lt (ids rb)) by (rewrite offset_slot, (shape_ids rb Hshape); exact Hlt).
  cbn [bind].
  rewrite (store_lt (prices rb)) by (rewrite offset_slot, (shape_prices rb Hshape); exact Hlt).
  cbn [bind].
  rewrite (store_lt (qtys rb)) by (rewrite offset_slot, (shape_qtys rb Hshape); exact Hlt).
  cbn [bind set_ids set_prices set_qtys cycleState].
  rewrite (store_lt (cycleState rb)) by (rewrite offset_slot, (shape_cycle rb Hshape); exact Hlt).
  cbn [bind]. rewrite !offset_slot. reflexivity.
Qed.

Lemma release_slot {B : Type} x v (k : RingBuffer -> outcome B) :
  (rb1 <- store_cycle (Z.land x (mask rb)) v rb ;; k rb1)
  = k (set_cycleState (<[slot (capacity rb) x := v]> (cycleState rb)) rb).
Proof.
  unfold store_cycle.
  rewrite store_lt by (rewrite offset_slot; apply slot_lt_cycle).
  cbn [bind]. rewrite offset_slot. reflexivity.
Qed.

Lemma load_slot {A B : Type} (s : list A) x a (k : A -> outcome B) :
  s !! slot (capacity rb) x = Some a ->
  (y <- load s (Z.land x (mask rb)) ;; k y) = k a.
Proof.
  intros H. rewrite (load_Some s _ a) by (rewrite offset_slot; exact H).
  reflexivity.
Qed.
End Shape.

Lemma shape_write_slot rb s id price qty v : shape rb -> shape (write_slot s id price qty v rb).
Proof.
  intros [H1 H2 H3 H4 H5 H6].
  constructor; cbn [write_slot capacity mask cycleState ids prices qtys];
    rewrite ?length_insert; assumption.
Qed.

Lemma shape_set_writeIndex rb v : shape rb -> shape (set_writeIndex v rb).
Proof. intros [H1 H2 H3 H4 H5 H6]. constructor; assumption. Qed.

Lemma shape_set_readIndex rb v : shape rb -> shape (set_readIndex v rb).
Proof. intros [H1 H2 H3 H4 H5 H6]. constructor; assumption. Qed.

Lemma shape_set_cycleState rb cs :
  length cs = length (cycleState rb) -> shape rb -> shape (set_cycleState cs rb).
Proof.
  intros Hlen [H1 H2 H3 H4 H5 H6].
  constructor; cbn [set_cycleState capacity mask cycleState ids prices qtys];
    try assumption. congruence.
Qed.

(** * The cycle value of any slot of a quiescent buffer *)

Section Quiescent.
Variable rb : RingBuffer.
Hypothesis Hwf : wf rb.

Let c := capacity rb.
Let h := writeIndex rb.
Let t := readIndex rb.

Lemma wf_cycle_at x :
  cycleState rb !! slot c x =
    Some (if window_pos c t x <? h then window_pos c t x + 1 else window_pos c t x).
Proof.
  pose proof (wf_cap2 rb Hwf) as Hc. fold c in Hc.
  rewrite <- (slot_window_pos c t x) by lia.
  pose proof (window_pos_range c t x ltac:(lia)) as Hr.
  destruct (Z.ltb_spec (window_pos c t x) h).
  - apply (wf_filled rb Hwf). fold t h. lia.
  - apply (wf_empty rb Hwf). fold t h c. lia.
Qed.

Lemma Enqueue_wf fuel id price qty :
  Enqueue (S fuel) rb id price qty =
    if h <? t + c
    then Returned (write_slot (slot c h) id price qty (h + 1)
                     (set_writeIndex (h + 1) rb), true)
    else Returned (rb, false).
Proof.
  pose proof (wf_cap2 rb Hwf) as Hc. pose proof (wf_tail rb Hwf) as Ht.
  pose proof (wf_occ rb Hwf) as Ho. pose proof (wf_bound rb Hwf) as Hb.
  pose proof (wf_shape rb Hwf) as Hs.
  fold t h c in Hc, Ht, Ho, Hb.
  cbn [Enqueue]. fold h.
  rewrite (load_slot rb Hs _ h _ _ (wf_cycle_at h)).
  pose proof (window_pos_range c t h ltac:(lia)) as Hr.
  pose proof (window_pos_trichotomy c t h ltac:(lia)) as Htri.
  destruct (Z.ltb_spec h (t + c)) as [Hroom | Hfull].
  - rewrite (window_pos_inside c t h) by lia.
    rewrite Z.ltb_irrefl, lap_diff_small, Z.sub_diag by lia.
    cbn [Z.eqb]. rewrite add64_small by lia.
    change (mask rb) with (mask (set_writeIndex (h + 1) rb)).
    rewrite (store_slot _ (shape_set_writeIndex rb (h + 1) Hs)).
    reflexivity.
  - assert (Hp : window_pos c t h = t) by lia. rewrite Hp.
    destruct (Z.ltb_spec t h); [| lia].
    rewrite lap_diff_small by lia.
    destruct (Z.eqb_spec (t + 1 - h) 0); [lia |].
    destruct (Z.ltb_spec (t + 1 - h) 0); [reflexivity | lia].
Qed.

Lemma Dequeue_wf_empty fuel : t = h -> Dequeue (S fuel) rb = Returned (rb, None).
Proof.
  intros Hempty.
  pose proof (wf_cap2 rb Hwf) as Hc. pose proof (wf_tail rb Hwf) as Ht.
  pose proof (wf_bound rb Hwf) as Hb. pose proof (wf_shape rb Hwf) as Hs.
  fold t h c in Hc, Ht, Hb.
  cbn [Dequeue]. fold t.
  rewrite (load_slot rb Hs _ t _ _ (wf_cycle_at t)).
  rewrite (window_pos_inside c t t) by lia.
  destruct (Z.ltb_spec t h); [lia |].
  rewrite add64_small, lap_diff_small by lia.
  destruct (Z.eqb_spec (t - (t + 1)) 0); [lia |].
  destruct (Z.ltb_spec (t - (t + 1)) 0); [reflexivity | lia].
Qed.

Lemma Dequeue_wf_take fuel :
  t < h ->
  exists id price qty,
    ids rb !! slot c t = Some id /\
    prices rb !! slot c t = Some price /\
    qtys rb !! slot c t = Some qty /\
    Dequeue (S fuel) rb =
      Returned (set_cycleState (<[slot c t := t + c]> (cycleState rb))
                  (set_readIndex (t + 1) rb),
                Some (id, price, qty)).
Proof.
  intros Hne.
  pose proof (wf_cap2 rb Hwf) as Hc. pose proof (wf_tail rb Hwf) as Ht.
  pose proof (wf_bound rb Hwf) as Hb. pose proof (wf_shape rb Hwf) as Hs.
  fold t h c in Hc, Ht, Hb.
  assert (Hlt : (slot c t < Z.to_nat c)%nat) by (apply slot_lt; lia).
  destruct (lookup_lt_is_Some_2 (ids rb) (slot c t)) as [id Hid];
    [rewrite (shape_ids rb Hs); exact Hlt |].
  destruct (lookup_lt_is_Some_2 (prices rb) (slot c t)) as [price Hprice];
    [rewrite (shape_prices rb Hs); exact Hlt |].
  destruct (lookup_lt_is_Some_2 (qtys rb) (slot c t)) as [qty Hqty];
    [rewrite (shape_qtys rb Hs); exact Hlt |].
  exists id, price, qty. repeat (split; [assumption |]).
  cbn [Dequeue]. fold t.
  rewrite (load_slot rb Hs _ t _ _ (wf_cycle_at t)).
  rewrite (window_pos_inside c t t) by lia.
  destruct (Z.ltb_spec t h); [| lia].
  rewrite add64_small, lap_diff_small, Z.sub_diag by lia.
  cbn [Z.eqb].
  pose proof (shape_set_readIndex rb (t + 1) Hs) as Hs'.
  change (mask rb) with (mask (set_readIndex (t + 1) rb)).
  rewrite (load_slot _ Hs' (ids _) t id) by exact Hid.
  rewrite (load_slot _ Hs' (prices _) t price) by exact Hprice.
  rewrite (load_slot _ Hs' (qtys _) t qty) by exact Hqty.
  rewrite (release_slot _ Hs').
  cbn [capacity set_readIndex]. fold c. rewrite add64_small by lia.
  reflexivity.
Qed.
End Quiescent.

(** * Publishing and releasing slots keeps the buffer quiescent *)

Lemma slot_add_cap c x : 0 < c -> slot c (x + c) = slot c x.
Proof.
  intros Hc. unfold slot. f_equal.
  replace (x + c) with (x + 1 * c) by lia. apply Z_mod_plus_full.
Qed.

Lemma shape_enqueued a b c0 rb rb' : shape rb -> enqueued a b c0 rb rb' -> shape rb'.
Proof.
  intros [H1 H2 H3 H4 H5 H6] E.
  constructor;
    rewrite ?(enq_capacity _ _ _ _ _ E), ?(enq_mask _ _ _ _ _ E),
            ?(enq_len_cycle _ _ _ _ _ E), ?(enq_len_ids _ _ _ _ _ E),
            ?(enq_len_prices _ _ _ _ _ E), ?(enq_len_qtys _ _ _ _ _ E);
    assumption.
Qed.

Lemma shape_dequeued n rb rb' : shape rb -> dequeued n rb rb' -> shape rb'.
Proof.
  intros [H1 H2 H3 H4 H5 H6] D.
  constructor;
    rewrite ?(deq_capacity _ _ _ D), ?(deq_mask _ _ _ D),
            ?(deq_len_cycle _ _ _ D), ?(deq_ids _ _ _ D),
            ?(deq_prices _ _ _ D), ?(deq_qtys _ _ _ D);
    assumption.
Qed.

Lemma wf_enqueued a b c0 rb rb' :
  wf rb -> enqueued a b c0 rb rb' ->
  writeIndex rb + Z.of_nat (length a) <= readIndex rb + capacity rb ->
  writeIndex rb + Z.of_nat (length a) + capacity rb < 2 ^ 63 ->
  wf rb'.
Proof.
  intros Hwf E Hroom Hbound.
  pose proof (wf_cap2 rb Hwf) as Hc. pose proof (wf_tail rb Hwf) as Ht.
  pose proof (wf_occ rb Hwf) as Ho.
  set (n := Z.of_nat (length a)) in *.
  constructor;
    rewrite ?(enq_capacity _ _ _ _ _ E), ?(enq_head _ _ _ _ _ E),
            ?(enq_tail _ _ _ _ _ E); fold n; try lia.
  - exact (shape_enqueued _ _ _ _ _ (wf_shape rb Hwf) E).
  - intros p Hp. destruct (Z_lt_le_dec p (writeIndex rb)) as [Hold | Hnew].
    + destruct (enq_others _ _ _ _ _ E (slot (capacity rb) p)) as [-> _].
      * intros j Hj Heq.
        apply (slot_inj (capacity rb) (readIndex rb)) in Heq; lia.
      * apply (wf_filled rb Hwf). lia.
    + destruct (enq_slots _ _ _ _ _ E (Z.to_nat (p - writeIndex rb))) as [Hcyc _];
        [lia |].
      replace (writeIndex rb + Z.of_nat (Z.to_nat (p - writeIndex rb))) with p in Hcyc
        by lia.
      exact Hcyc.
  - intros p Hp.
    destruct (enq_others _ _ _ _ _ E (slot (capacity rb) p)) as [-> _].
    + intros j Hj Heq.
      apply (slot_inj (capacity rb) (readIndex rb)) in Heq; lia.
    + apply (wf_empty rb Hwf). lia.
Qed.

Lemma wf_dequeued n rb rb' :
  wf rb -> dequeued n rb rb' ->
  readIndex rb + Z.of_nat n <= writeIndex rb ->
  wf rb'.
Proof.
  intros Hwf D Hroom.
  pose proof (wf_cap2 rb Hwf) as Hc. pose proof (wf_tail rb Hwf) as Ht.
  pose proof (wf_occ rb Hwf) as Ho. pose proof (wf_bound rb Hwf) as Hb.
  constructor;
    rewrite ?(deq_capacity _ _ _ D), ?(deq_head _ _ _ D), ?(deq_tail _ _ _ D);
    try lia.
  - exact (shape_dequeued _ _ _ (wf_shape rb Hwf) D).
  - intros p Hp.
    rewrite (deq_others _ _ _ D (slot (capacity rb) p)).
    + apply (wf_filled rb Hwf). lia.
    + intros j Hj Heq.
      apply (slot_inj (capacity rb) (readIndex rb)) in Heq; lia.
  - intros p Hp. destruct (Z_lt_le_dec p (readIndex rb + capacity rb)) as [Hold | Hnew].
    + rewrite (deq_others _ _ _ D (slot (capacity rb) p)).
      * apply (wf_empty rb Hwf). lia.
      * intros j Hj Heq.
        apply (slot_inj (capacity rb) (readIndex rb)) in Heq; lia.
    + pose proof (deq_slots _ _ _ D (Z.to_nat (p - readIndex rb - capacity rb))
                    ltac:(lia)) as Hcyc.
      replace (readIndex rb + Z.of_nat (Z.to_nat (p - readIndex rb - capacity rb)))
        with (p - capacity rb) in Hcyc by lia.
      replace (p - capacity rb + capacity rb) with p in Hcyc by lia.
      rewrite <- (slot_add_cap (capacity rb) (p - capacity rb)) in Hcyc by lia.
      replace (p - capacity rb + capacity rb) with p in Hcyc by lia.
      exact Hcyc.
Qed.

Lemma enqueued_single rb id price qty :
  shape rb ->
  enqueued [id] [price] [qty] rb
    (write_slot (slot (capacity rb) (writeIndex rb)) id price qty (writeIndex rb + 1)
       (set_writeIndex (writeIndex rb + 1) rb)).
Proof.
  intros Hs. pose proof (shape_cap_pos rb Hs) as Hc.
  assert (Hlt : (slot (capacity rb) (writeIndex rb) < Z.to_nat (capacity rb))%nat)
    by (apply slot_lt; lia).
  constructor;
    cbn [write_slot set_writeIndex capacity mask writeIndex readIndex
         cycleState ids prices qtys length];
    rewrite ?length_insert; try reflexivity.
  - intros j Hj. assert (j = 0%nat) as -> by lia.
    cbn [Z.of_nat]. rewrite Z.add_0_r.
    rewrite !list_lookup_insert_eq
      by (rewrite ?(shape_cycle rb Hs), ?(shape_ids rb Hs),
                  ?(shape_prices rb Hs), ?(shape_qtys rb Hs); exact Hlt).
    repeat split; reflexivity.
  - intros s Hne. specialize (Hne 0%nat ltac:(lia)).
    cbn [Z.of_nat] in Hne. rewrite Z.add_0_r in Hne.
    rewrite !list_lookup_insert_ne by exact Hne.
    repeat split; reflexivity.
Qed.

Lemma dequeued_single rb :
  shape rb ->
  dequeued 1 rb
    (set_cycleState
       (<[slot (capacity rb) (readIndex rb) := readIndex rb + capacity rb]> (cycleState rb))
       (set_readIndex (readIndex rb + 1) rb)).
Proof.
  intros Hs. pose proof (shape_cap_pos rb Hs) as Hc.
  assert (Hlt : (slot (capacity rb) (readIndex rb) < Z.to_nat (capacity rb))%nat)
    by (apply slot_lt; lia).
  constructor;
    cbn [set_cycleState set_readIndex capacity mask writeIndex readIndex
         cycleState ids prices qtys];
    rewrite ?length_insert; try reflexivity.
  - intros j Hj. assert (j = 0%nat) as -> by lia.
    cbn [Z.of_nat]. rewrite Z.add_0_r.
    apply list_lookup_insert_eq. rewrite (shape_cycle rb Hs). exact Hlt.
  - intros s Hne. specialize (Hne 0%nat ltac:(lia)).
    cbn [Z.of_nat] in Hne. rewrite Z.add_0_r in Hne.
    apply list_lookup_insert_ne. exact Hne.
Qed.

(** * The copy loop of EnqueueBatch *)

Lemma load_Returned {A : Type} (s : list A) (i : Z) (v : A) :
  load s i = Returned v -> s !! Z.to_nat i = Some v.
Proof. unfold load. destruct (s !! Z.to_nat i); intros [=]. congruence. Qed.

Lemma EnqueueBatch_copy_inv a b c0 head :
  forall (todo i : nat) (rb rb' : RingBuffer),
    shape rb -> 0 <= head -> head + Z.of_nat (i + todo) < 2 ^ 64 ->
    Z.of_nat todo <= capacity rb ->
    EnqueueBatch_copy todo (Z.of_nat i) head rb a b c0 = Returned rb' ->
    (capacity rb' = capacity rb /\ mask rb' = mask rb /\
     writeIndex rb' = writeIndex rb /\ readIndex rb' = readIndex rb) /\
    (length (cycleState rb') = length (cycleState rb) /\
     length (ids rb') = length (ids rb) /\
     length (prices rb') = length (prices rb) /\
     length (qtys rb') = length (qtys rb)) /\
    (forall j : nat, (i <= j < i + todo)%nat ->
       cycleState rb' !! slot (capacity rb) (head + Z.of_nat j)
         = Some (head + Z.of_nat j + 1) /\
       ids rb' !! slot (capacity rb) (head + Z.of_nat j) = a !! j /\
       prices rb' !! slot (capacity rb) (head + Z.of_nat j) = b !! j /\
       qtys rb' !! slot (capacity rb) (head + Z.of_nat j) = c0 !! j) /\
    (forall s : nat,
       (forall j : nat, (i <= j < i + todo)%nat ->
          slot (capacity rb) (head + Z.of_nat j) <> s) ->
       cycleState rb' !! s = cycleState rb !! s /\
       ids rb' !! s = ids rb !! s /\
       prices rb' !! s = prices rb !! s /\
       qtys rb' !! s = qtys rb !! s).
Proof.
  induction todo as [| todo IH]; intros i rb rb' Hs Hhead Hbound Hcap Hrun.
  - cbn [EnqueueBatch_copy] in Hrun. injection Hrun as <-.
    repeat split; intros; try reflexivity; lia.
  - cbn [EnqueueBatch_copy] in Hrun.
    apply bind_Returned in Hrun as (id & Hid & Hrun).
    apply bind_Returned in Hrun as (price & Hprice & Hrun).
    apply bind_Returned in Hrun as (qty & Hqty & Hrun).
    apply load_Returned in Hid, Hprice, Hqty. rewrite Nat2Z.id in Hid, Hprice, Hqty.
    rewrite !add64_small in Hrun by lia.
    rewrite (store_slot rb Hs) in Hrun.
    replace (Z.of_nat i + 1) with (Z.of_nat (S i)) in Hrun by lia.
    set (s0 := slot (capacity rb) (head + Z.of_nat i)) in *.
    set (rb1 := write_slot s0 id price qty (head + Z.of_nat i + 1) rb) in *.
    pose proof (shape_cap_pos rb Hs) as Hc.
    assert (Hlt : (s0 < Z.to_nat (capacity rb))%nat) by (apply slot_lt; lia).
    apply IH in Hrun as (Hscal & Hlen & Hslots & Hothers);
      [ | apply shape_write_slot; exact Hs | exact Hhead | lia
        | cbn [rb1 write_slot capacity]; lia ].
    cbn [rb1 write_slot capacity mask writeIndex readIndex cycleState ids prices qtys]
      in Hscal, Hlen, Hslots, Hothers.
    rewrite !length_insert in Hlen.
    split; [exact Hscal |]. split; [exact Hlen |]. split.
    + intros j Hj. destruct (decide (j = i)) as [-> | Hne].
      * fold s0. destruct (Hothers s0) as (-> & -> & -> & ->).
        { intros j' Hj' Heq. unfold s0 in Heq.
          apply (slot_inj (capacity rb) (head + Z.of_nat i)) in Heq; lia. }
        rewrite !list_lookup_insert_eq
          by (rewrite ?(shape_cycle rb Hs), ?(shape_ids rb Hs),
                      ?(shape_prices rb Hs), ?(shape_qtys rb Hs); exact Hlt).
        rewrite Hid, Hprice, Hqty. repeat split; reflexivity.
      * apply Hslots. lia.
    + intros s Hne.
      destruct (Hothers s) as (-> & -> & -> & ->).
      { intros j Hj. apply Hne. lia. }
      assert (s0 <> s) by (apply Hne; lia).
      rewrite !list_lookup_insert_ne by assumption.
      repeat split; reflexivity.
Qed.

Lemma EnqueueBatch_copy_total a b c0 head :
  forall (todo i : nat) (rb : RingBuffer),
    shape rb ->
    (i + todo <= length a)%nat -> (i + todo <= length b)%nat ->
    (i + todo <= length c0)%nat ->
    exists rb', EnqueueBatch_copy todo (Z.of_nat i) head rb a b c0 = Returned rb'.
Proof.
  induction todo as [| todo IH]; intros i rb Hs Ha Hb Hc.
  - eexists. reflexivity.
  - cbn [EnqueueBatch_copy].
    destruct (lookup_lt_is_Some_2 a i ltac:(lia)) as [id Hid].
    destruct (lookup_lt_is_Some_2 b i ltac:(lia)) as [price Hprice].
    destruct (lookup_lt_is_Some_2 c0 i ltac:(lia)) as [qty Hqty].
    rewrite (load_Some a _ id), (load_Some b _ price), (load_Some c0 _ qty)
      by (rewrite Nat2Z.id; assumption).
    cbn [bind]. rewrite (store_slot rb Hs).
    replace (Z.of_nat i + 1) with (Z.of_nat (S i)) by lia.
    apply IH; [apply shape_write_slot; exact Hs | lia | lia | lia].
Qed.

(** A short [prices] or [qtys] makes the copy loop index out of range. *)
Lemma EnqueueBatch_copy_short a b c0 head :
  forall (todo i : nat) (rb : RingBuffer),
    shape rb ->
    (i + todo <= length a)%nat ->
    ((length b < i + todo)%nat \/ (length c0 < i + todo)%nat) ->
    (i <= length b)%nat -> (i <= length c0)%nat ->
    EnqueueBatch_copy todo (Z.of_nat i) head rb a b c0 = Panicked.
Proof.
  induction todo as [| todo IH]; intros i rb Hs Ha Hshort Hb Hc.
  - lia.
  - cbn [EnqueueBatch_copy].
    destruct (lookup_lt_is_Some_2 a i ltac:(lia)) as [id Hid].
    rewrite (load_Some a _ id) by (rewrite Nat2Z.id; assumption).
    cbn [bind].
    destruct (b !! i) as [price |] eqn:Hprice;
      [| rewrite load_None by (rewrite Nat2Z.id; assumption); reflexivity].
    rewrite (load_Some b _ price) by (rewrite Nat2Z.id; assumption).
    cbn [bind].
    destruct (c0 !! i) as [qty |] eqn:Hqty;
      [| rewrite load_None by (rewrite Nat2Z.id; assumption); reflexivity].
    rewrite (load_Some c0 _ qty) by (rewrite Nat2Z.id; assumption).
    cbn [bind]. rewrite (store_slot rb Hs).
    replace (Z.of_nat i + 1) with (Z.of_nat (S i)) by lia.
    apply lookup_lt_Some in Hprice, Hqty.
    apply IH; [apply shape_write_slot; exact Hs | lia | lia | lia | lia].
Qed.

(** * EnqueueBatch on a quiescent buffer *)

Lemma set_writeIndex_same rb : set_writeIndex (writeIndex rb) rb = rb.
Proof. destruct rb. reflexivity. Qed.

(** With no record to write, the call returns 0 and leaves the state as it
    was, whenever the head slot is not ahead of the head cursor. *)
Lemma EnqueueBatch_nil rb fuel b c0 v :
  shape rb -> 0 <= writeIndex rb < 2 ^ 64 ->
  cycleState rb !! slot (capacity rb) (writeIndex rb) = Some v ->
  isub64 (int64 v) (int64 (writeIndex rb)) <= 0 ->
  EnqueueBatch (S fuel) rb [] b c0 = Returned (rb, 0).
Proof.
  intros Hs Hh Hv Hdiff. cbn [EnqueueBatch length Z.of_nat].
  rewrite (load_slot rb Hs _ _ _ _ Hv).
  destruct (Z.ltb_spec (isub64 (int64 v) (int64 (writeIndex rb))) 0); [reflexivity |].
  destruct (Z.eqb_spec (isub64 (int64 v) (int64 (writeIndex rb))) 0); [| lia].
  destruct (cycle_defined rb Hs (sub64 (add64 (writeIndex rb) 0) 1)) as [w Hw].
  rewrite (load_slot rb Hs _ _ _ _ Hw).
  destruct (_ <? 0); [reflexivity |].
  rewrite add64_small by lia. rewrite Z.add_0_r, set_writeIndex_same.
  reflexivity.
Qed.

Section QuiescentBatch.
Variable rb : RingBuffer.
Hypothesis Hwf : wf rb.

Let c := capacity rb.
Let h := writeIndex rb.
Let t := readIndex rb.

Lemma EnqueueBatch_wf_unfold fuel a b c0 :
  (1 <= length a)%nat ->
  h + Z.of_nat (length a) < 2 ^ 63 ->
  EnqueueBatch (S fuel) rb a b c0 =
    if h + Z.of_nat (length a) <=? t + c
    then rb1 <- EnqueueBatch_copy (length a) 0 h
                  (set_writeIndex (h + Z.of_nat (length a)) rb) a b c0 ;;
         Returned (rb1, Z.of_nat (length a))
    else Returned (rb, 0).
Proof.
  intros Hn Hbound.
  pose proof (wf_cap2 rb Hwf) as Hc. pose proof (wf_tail rb Hwf) as Ht.
  pose proof (wf_occ rb Hwf) as Ho. pose proof (wf_shape rb Hwf) as Hs.
  pose proof (wf_bound rb Hwf) as Hb.
  fold t h c in Hc, Ht, Ho, Hb.
  set (n := Z.of_nat (length a)) in *.
  cbn [EnqueueBatch]. fold h n.
  rewrite (load_slot rb Hs _ h _ _ (wf_cycle_at rb Hwf h)). fold c t h.
  pose proof (window_pos_range c t h ltac:(lia)) as Hr.
  pose proof (window_pos_trichotomy c t h ltac:(lia)) as Htri.
  destruct (Z_lt_le_dec h (t + c)) as [Hroom | Hfull].
  - rewrite (window_pos_inside c t h) by lia.
    rewrite Z.ltb_irrefl, lap_diff_small, Z.sub_diag by lia.
    cbn [Z.ltb Z.eqb Z.compare].
    rewrite (add64_small h n), (sub64_small (h + n) 1) by lia.
    rewrite (load_slot rb Hs _ (h + n - 1) _ _ (wf_cycle_at rb Hwf (h + n - 1))).
    fold c t h.
    pose proof (window_pos_range c t (h + n - 1) ltac:(lia)) as Hr'.
    pose proof (window_pos_trichotomy c t (h + n - 1) ltac:(lia)) as Htri'.
    set (p := window_pos c t (h + n - 1)) in *.
    destruct (Z.ltb_spec p h) as [Hfilled | Hfree];
      rewrite lap_diff_small by lia.
    + destruct (Z.ltb_spec (p + 1 - (h + n - 1)) 0); [| lia].
      destruct (Z.leb_spec (h + n) (t + c)); [lia | reflexivity].
    + destruct Htri' as [Heq | [Hlap | Hlap]]; [| | lia].
      * destruct (Z.ltb_spec (p - (h + n - 1)) 0); [lia |].
        destruct (Z.leb_spec (h + n) (t + c)); [| lia].
        unfold n at 1. rewrite Nat2Z.id. reflexivity.
      * destruct (Z.ltb_spec (p - (h + n - 1)) 0); [| lia].
        destruct (Z.leb_spec (h + n) (t + c)); [lia | reflexivity].
  - assert (Hp : window_pos c t h = t) by lia. rewrite Hp.
    destruct (Z.ltb_spec t h); [| lia].
    rewrite lap_diff_small by lia.
    destruct (Z.ltb_spec (t + 1 - h) 0); [| lia].
    destruct (Z.leb_spec (h + n) (t + c)); [lia | reflexivity].
Qed.
End QuiescentBatch.

(** * The copy loop of DequeueBatch *)

Lemma store_Returned {A : Type} (s s' : list A) (i : Z) (v : A) :
  store s i v = Returned s' ->
  (Z.to_nat i < length s)%nat /\ s' = <[Z.to_nat i := v]> s.
Proof.
  unfold store. destruct (decide _); intros [=]. split; [assumption | congruence].
Qed.

Lemma await_published_inv fuel rb x :
  shape rb ->
  await_published fuel rb (Z.land x (mask rb)) x = Returned tt ->
  cycleState rb !! slot (capacity rb) x = Some (add64 x 1).
Proof.
  intros Hs. induction fuel as [| fuel IH]; cbn [await_published]; [discriminate |].
  intros Hrun. apply bind_Returned in Hrun as (v & Hv & Hrun).
  apply load_Returned in Hv. rewrite (offset_slot rb Hs) in Hv.
  destruct (Z.eqb_spec v (add64 x 1)) as [-> | Hne]; [exact Hv | auto].
Qed.

Lemma await_published_ok fuel rb x :
  shape rb ->
  cycleState rb !! slot (capacity rb) x = Some (add64 x 1) ->
  await_published (S fuel) rb (Z.land x (mask rb)) x = Returned tt.
Proof.
  intros Hs Hv. cbn [await_published].
  rewrite (load_slot rb Hs _ _ _ _ Hv). rewrite Z.eqb_refl. reflexivity.
Qed.

(** Without another thread an unpublished slot is waited for without end. *)
Lemma await_published_spin fuel rb x v :
  shape rb ->
  cycleState rb !! slot (capacity rb) x = Some v -> v <> add64 x 1 ->
  await_published fuel rb (Z.land x (mask rb)) x = Spinning.
Proof.
  intros Hs Hv Hne. induction fuel as [| fuel IH]; cbn [await_published]; [reflexivity |].
  rewrite (load_slot rb Hs _ _ _ _ Hv).
  destruct (Z.eqb_spec v (add64 x 1)); [contradiction | exact IH].
Qed.

Lemma DequeueBatch_copy_inv fuel tail :
  forall (todo i : nat) (rb : RingBuffer) (di : list Z) (dp : list float) (dq : list Z)
         (rb' : RingBuffer) (di' : list Z) (dp' : list float) (dq' : list Z),
    shape rb -> 0 <= tail ->
    tail + Z.of_nat (i + todo) + capacity rb < 2 ^ 64 ->
    Z.of_nat todo <= capacity rb ->
    DequeueBatch_copy fuel todo (Z.of_nat i) tail rb di dp dq
      = Returned (rb', (di', dp', dq')) ->
    (capacity rb' = capacity rb /\ mask rb' = mask rb /\
     writeIndex rb' = writeIndex rb /\ readIndex rb' = readIndex rb) /\
    (ids rb' = ids rb /\ prices rb' = prices rb /\ qtys rb' = qtys rb /\
     length (cycleState rb') = length (cycleState rb)) /\
    (length di' = length di /\ length dp' = length dp /\ length dq' = length dq) /\
    (forall j : nat, (i <= j < i + todo)%nat ->
       cycleState rb !! slot (capacity rb) (tail + Z.of_nat j)
         = Some (tail + Z.of_nat j + 1) /\
       cycleState rb' !! slot (capacity rb) (tail + Z.of_nat j)
         = Some (tail + Z.of_nat j + capacity rb) /\
       di' !! j = ids rb !! slot (capacity rb) (tail + Z.of_nat j) /\
       dp' !! j = prices rb !! slot (capacity rb) (tail + Z.of_nat j) /\
       dq' !! j = qtys rb !! slot (capacity rb) (tail + Z.of_nat j)) /\
    (forall s : nat,
       (forall j : nat, (i <= j < i + todo)%nat ->
          slot (capacity rb) (tail + Z.of_nat j) <> s) ->
       cycleState rb' !! s = cycleState rb !! s) /\
    (forall j : nat, ~ (i <= j < i + todo)%nat ->
       di' !! j = di !! j /\ dp' !! j = dp !! j /\ dq' !! j = dq !! j).
Proof.
  induction todo as [| todo IH];
    intros i rb di dp dq rb' di' dp' dq' Hs Htail Hbound Hcap Hrun.
  - cbn [DequeueBatch_copy] in Hrun. injection Hrun as <- <- <- <-.
    repeat split; intros; try reflexivity; lia.
  - cbn [DequeueBatch_copy] in Hrun.
    pose proof (shape_cap_pos rb Hs) as Hc.
    rewrite !add64_small in Hrun by lia.
    apply bind_Returned in Hrun as ([] & Hw & Hrun).
    apply (await_published_inv _ _ _ Hs) in Hw. rewrite add64_small in Hw by lia.
    apply bind_Returned in Hrun as (id & Hid & Hrun).
    apply bind_Returned in Hrun as (di1 & Hdi & Hrun).
    apply bind_Returned in Hrun as (price & Hprice & Hrun).
    apply bind_Returned in Hrun as (dp1 & Hdp & Hrun).
    apply bind_Returned in Hrun as (qty & Hqty & Hrun).
    apply bind_Returned in Hrun as (dq1 & Hdq & Hrun).
    apply load_Returned in Hid, Hprice, Hqty.
    rewrite (offset_slot rb Hs) in Hid, Hprice, Hqty.
    apply store_Returned in Hdi as [Hdi_lt ->].
    apply store_Returned in Hdp as [Hdp_lt ->].
    apply store_Returned in Hdq as [Hdq_lt ->].
    rewrite Nat2Z.id in Hdi_lt, Hdp_lt, Hdq_lt, Hrun.
    rewrite (release_slot rb Hs) in Hrun.
    replace (Z.of_nat i + 1) with (Z.of_nat (S i)) in Hrun by lia.
    set (s0 := slot (capacity rb) (tail + Z.of_nat i)) in *.
    assert (Hlt : (s0 < length (cycleState rb))%nat) by apply (slot_lt_cycle rb Hs).
    apply IH in Hrun as (Hscal & Hpay & Hlen & Hslots & Hothers & Hout);
      [ | apply shape_set_cycleState; [apply length_insert | exact Hs] | exact Htail
        | cbn [set_cycleState capacity]; lia | cbn [set_cycleState capacity]; lia ].
    cbn [set_cycleState capacity mask writeIndex readIndex cycleState ids prices qtys]
      in Hscal, Hpay, Hlen, Hslots, Hothers, Hout.
    repeat rewrite length_insert in Hlen. repeat rewrite length_insert in Hpay.
    assert (Hdistinct : forall j : nat, (S i <= j < S i + todo)%nat ->
              slot (capacity rb) (tail + Z.of_nat j) <> s0).
    { intros j Hj Heq. unfold s0 in Heq.
      apply (slot_inj (capacity rb) (tail + Z.of_nat i)) in Heq; lia. }
    split; [exact Hscal |]. split; [exact Hpay |]. split; [exact Hlen |].
    split; [| split].
    + intros j Hj. destruct (decide (j = i)) as [-> | Hne].
      * fold s0. rewrite (Hothers s0 Hdistinct).
        destruct (Hout i ltac:(lia)) as (-> & -> & ->).
        rewrite !list_lookup_insert_eq by assumption.
        repeat split; congruence.
      * destruct (Hslots j ltac:(lia)) as (H1 & H2 & H3 & H4 & H5).
        rewrite list_lookup_insert_ne in H1 by (apply not_eq_sym, Hdistinct; lia).
        repeat split; assumption.
    + intros s Hne. rewrite Hothers by (intros j Hj; apply Hne; lia).
      apply list_lookup_insert_ne. apply Hne. lia.
    + intros j Hj. destruct (Hout j ltac:(lia)) as (-> & -> & ->).
      rewrite !list_lookup_insert_ne by lia. repeat split; reflexivity.
Qed.

Section DequeueCopy.
Variables (fuel : nat) (tail : Z).

(** The slots of the positions [tail + i, ..., tail + i + todo - 1] are
    published. *)
Let published (rb : RingBuffer) (i todo : nat) : Prop :=
  forall j : nat, (i <= j < i + todo)%nat ->
    cycleState rb !! slot (capacity rb) (tail + Z.of_nat j)
      = Some (tail + Z.of_nat j + 1).

Lemma published_step rb i todo v :
  shape rb -> Z.of_nat (S todo) <= capacity rb ->
  published rb i (S todo) ->
  published
    (set_cycleState
       (<[slot (capacity rb) (tail + Z.of_nat i) := v]> (cycleState rb)) rb)
    (S i) todo.
Proof.
  intros Hs Hcap Hpub j Hj. cbn [set_cycleState capacity cycleState].
  rewrite list_lookup_insert_ne; [apply Hpub; lia |].
  intros Heq. apply (slot_inj (capacity rb) (tail + Z.of_nat i)) in Heq; lia.
Qed.

Lemma DequeueBatch_copy_total :
  forall (todo i : nat) (rb : RingBuffer) (di : list Z) (dp : list float) (dq : list Z),
    shape rb -> 0 <= tail ->
    tail + Z.of_nat (i + todo) + capacity rb < 2 ^ 64 ->
    Z.of_nat todo <= capacity rb ->
    published rb i todo ->
    (i + todo <= length di)%nat -> (i + todo <= length dp)%nat ->
    (i + todo <= length dq)%nat ->
    exists r, DequeueBatch_copy (S fuel) todo (Z.of_nat i) tail rb di dp dq = Returned r.
Proof.
  induction todo as [| todo IH]; intros i rb di dp dq Hs Htail Hbound Hcap Hpub Hi Hp Hq.
  - eexists. reflexivity.
  - cbn [DequeueBatch_copy].
    pose proof (shape_cap_pos rb Hs) as Hc.
    rewrite !add64_small by lia.
    rewrite await_published_ok by (try exact Hs; rewrite add64_small by lia; apply Hpub; lia).
    cbn [bind].
    set (s0 := slot (capacity rb) (tail + Z.of_nat i)).
    assert (Hlt : (s0 < Z.to_nat (capacity rb))%nat) by (apply slot_lt; lia).
    destruct (lookup_lt_is_Some_2 (ids rb) s0) as [id Hid];
      [rewrite (shape_ids rb Hs); exact Hlt |].
    destruct (lookup_lt_is_Some_2 (prices rb) s0) as [price Hprice];
      [rewrite (shape_prices rb Hs); exact Hlt |].
    destruct (lookup_lt_is_Some_2 (qtys rb) s0) as [qty Hqty];
      [rewrite (shape_qtys rb Hs); exact Hlt |].
    rewrite (load_slot rb Hs (ids rb) _ id) by exact Hid.
    rewrite (store_lt di) by lia. cbn [bind].
    rewrite (load_slot rb Hs (prices rb) _ price) by exact Hprice.
    rewrite (store_lt dp) by lia. cbn [bind].
    rewrite (load_slot rb Hs (qtys rb) _ qty) by exact Hqty.
    rewrite (store_lt dq) by lia. cbn [bind].
    rewrite (release_slot rb Hs).
    replace (Z.of_nat i + 1) with (Z.of_nat (S i)) by lia.
    apply IH;
      first [ apply shape_set_cycleState; [apply length_insert | exact Hs]
            | apply published_step; assumption
            | exact Htail
            | cbn [set_cycleState capacity]; rewrite ?length_insert; lia ].
Qed.

(** A short [prices] or [qtys] output buffer makes the copy loop index out
    of range. *)
Lemma DequeueBatch_copy_short :
  forall (todo i : nat) (rb : RingBuffer) (di : list Z) (dp : list float) (dq : list Z),
    shape rb -> 0 <= tail ->
    tail + Z.of_nat (i + todo) + capacity rb < 2 ^ 64 ->
    Z.of_nat todo <= capacity rb ->
    published rb i todo ->
    (i + todo <= length di)%nat ->
    ((length dp < i + todo)%nat \/ (length dq < i + todo)%nat) ->
    (i <= length dp)%nat -> (i <= length dq)%nat ->
    DequeueBatch_copy (S fuel) todo (Z.of_nat i) tail rb di dp dq = Panicked.
Proof.
  induction todo as [| todo IH];
    intros i rb di dp dq Hs Htail Hbound Hcap Hpub Hi Hshort Hp Hq.
  - lia.
  - cbn [DequeueBatch_copy].
    pose proof (shape_cap_pos rb Hs) as Hc.
    rewrite !add64_small by lia.
    rewrite await_published_ok by (try exact Hs; rewrite add64_small by lia; apply Hpub; lia).
    cbn [bind].
    set (s0 := slot (capacity rb) (tail + Z.of_nat i)).
    assert (Hlt : (s0 < Z.to_nat (capacity rb))%nat) by (apply slot_lt; lia).
    destruct (lookup_lt_is_Some_2 (ids rb) s0) as [id Hid];
      [rewrite (shape_ids rb Hs); exact Hlt |].
    destruct (lookup_lt_is_Some_2 (prices rb) s0) as [price Hprice];
      [rewrite (shape_prices rb Hs); exact Hlt |].
    destruct (lookup_lt_is_Some_2 (qtys rb) s0) as [qty Hqty];
      [rewrite (shape_qtys rb Hs); exact Hlt |].
    rewrite (load_slot rb Hs (ids rb) _ id) by exact Hid.
    rewrite (store_lt di) by lia. cbn [bind].
    rewrite (load_slot rb Hs (prices rb) _ price) by exact Hprice.
    unfold store at 1. destruct (decide (Z.to_nat (Z.of_nat i) < length dp)%nat);
      [| reflexivity].
    cbn [bind].
    rewrite (load_slot rb Hs (qtys rb) _ qty) by exact Hqty.
    unfold store at 1. destruct (decide (Z.to_nat (Z.of_nat i) < length dq)%nat);
      [| reflexivity].
    cbn [bind].
    rewrite (release_slot rb Hs).
    replace (Z.of_nat i + 1) with (Z.of_nat (S i)) by lia.
    apply IH;
      first [ apply shape_set_cycleState; [apply length_insert | exact Hs]
            | apply published_step; assumption
            | exact Htail
            | cbn [set_cycleState capacity]; rewrite ?length_insert; lia ].
Qed.
End DequeueCopy.

(** * The batch operations on a quiescent buffer *)

Section QuiescentBatches.
Variable rb : RingBuffer.
Hypothesis Hwf : wf rb.

Let c := capacity rb.
Let h := writeIndex rb.
Let t := readIndex rb.

Lemma DequeueBatch_wf_unfold fuel di dp dq :
  (1 <= length di)%nat ->
  t + Z.of_nat (length di) < 2 ^ 63 ->
  DequeueBatch (S fuel) rb di dp dq =
    if t + Z.of_nat (length di) <=? h
    then r <- DequeueBatch_copy (S fuel) (length di) 0 t
                (set_readIndex (t + Z.of_nat (length di)) rb) di dp dq ;;
         Returned (r, Z.of_nat (length di))
    else Returned (rb, (di, dp, dq), 0).
Proof.
  intros Hn Hbound.
  pose proof (wf_cap2 rb Hwf) as Hc. pose proof (wf_tail rb Hwf) as Ht.
  pose proof (wf_occ rb Hwf) as Ho. pose proof (wf_shape rb Hwf) as Hs.
  pose proof (wf_bound rb Hwf) as Hb.
  fold t h c in Hc, Ht, Ho, Hb.
  set (n := Z.of_nat (length di)) in *.
  unfold DequeueBatch. fold n.
  destruct (Z.eqb_spec n 0); [lia |].
  unfold DequeueBatch_attempt. fold t.
  rewrite (load_slot rb Hs _ t _ _ (wf_cycle_at rb Hwf t)). fold c t h.
  rewrite (window_pos_inside c t t) by lia.
  rewrite (add64_small t 1), (add64_small t n), (sub64_small (t + n) 1) by lia.
  destruct (Z.ltb_spec t h) as [Hne | Hempty]; rewrite lap_diff_small by lia.
  - destruct (Z.ltb_spec (t + 1 - (t + 1)) 0); [lia |].
    rewrite (load_slot rb Hs _ (t + n - 1) _ _ (wf_cycle_at rb Hwf (t + n - 1))).
    fold c t h.
    pose proof (window_pos_range c t (t + n - 1) ltac:(lia)) as Hr'.
    pose proof (window_pos_trichotomy c t (t + n - 1) ltac:(lia)) as Htri'.
    set (p := window_pos c t (t + n - 1)) in *.
    destruct (Z.ltb_spec p h) as [Hfilled | Hfree];
      rewrite lap_diff_small by lia.
    + destruct Htri' as [Heq | [Hlap | Hlap]]; [| | lia].
      * destruct (Z.ltb_spec (p + 1 - (t + n)) 0); [lia |].
        destruct (Z.leb_spec (t + n) h); [| lia].
        unfold n at 1. rewrite Nat2Z.id. reflexivity.
      * destruct (Z.ltb_spec (p + 1 - (t + n)) 0); [| lia].
        destruct (Z.leb_spec (t + n) h); [lia | reflexivity].
    + destruct (Z.ltb_spec (p - (t + n)) 0); [| lia].
      destruct (Z.leb_spec (t + n) h); [lia | reflexivity].
  - destruct (Z.ltb_spec (t - (t + 1)) 0); [| lia].
    destruct (Z.leb_spec (t + n) h); [lia | reflexivity].
Qed.

(** The head slot is never ahead of the head cursor. *)
Lemma wf_head_not_ahead :
  exists v, cycleState rb !! slot c h = Some v /\ isub64 (int64 v) (int64 h) <= 0.
Proof.
  pose proof (wf_cap2 rb Hwf) as Hc. pose proof (wf_tail rb Hwf) as Ht.
  pose proof (wf_occ rb Hwf) as Ho. pose proof (wf_bound rb Hwf) as Hb.
  fold t h c in Hc, Ht, Ho, Hb.
  eexists. split; [apply (wf_cycle_at rb Hwf h) |]. fold c t h.
  pose proof (window_pos_range c t h ltac:(lia)).
  pose proof (window_pos_trichotomy c t h ltac:(lia)).
  destruct (Z.ltb_spec (window_pos c t h) h); rewrite lap_diff_small by lia; lia.
Qed.

(** What a returning EnqueueBatch has done. *)
Lemma EnqueueBatch_wf_returned fuel a b c0 rb' r :
  h + Z.of_nat (length a) < 2 ^ 63 ->
  EnqueueBatch (S fuel) rb a b c0 = Returned (rb', r) ->
  (r = 0 /\ rb' = rb) \/
  (r = Z.of_nat (length a) /\ (1 <= length a)%nat /\
   h + Z.of_nat (length a) <= t + c /\ enqueued a b c0 rb rb').
Proof.
  intros Hbound Hrun.
  pose proof (wf_cap2 rb Hwf) as Hc. pose proof (wf_tail rb Hwf) as Ht.
  pose proof (wf_occ rb Hwf) as Ho. pose proof (wf_shape rb Hwf) as Hs.
  pose proof (wf_bound rb Hwf) as Hb.
  fold t h c in Hc, Ht, Ho, Hb.
  destruct a as [| a0 a'].
  - destruct wf_head_not_ahead as (v & Hv & Hle).
    rewrite (EnqueueBatch_nil rb fuel b c0 v) in Hrun; try assumption.
    + injection Hrun as <- <-. left. split; reflexivity.
    + fold h. lia.
  - set (a := a0 :: a') in *.
    assert (Hn : (1 <= length a)%nat) by (cbn [a length]; lia).
    rewrite (EnqueueBatch_wf_unfold rb Hwf) in Hrun by assumption. fold c t h in Hrun.
    destruct (Z.leb_spec (h + Z.of_nat (length a)) (t + c)) as [Hroom | Hnoroom].
    + apply bind_Returned in Hrun as (rb1 & Hcopy & Hret).
      injection Hret as <- <-.
      change 0 with (Z.of_nat 0) in Hcopy.
      apply EnqueueBatch_copy_inv in Hcopy
        as ((E1 & E2 & E3 & E4) & (L1 & L2 & L3 & L4) & Hslots & Hothers);
        [ | apply shape_set_writeIndex; exact Hs | fold h; lia
          | cbn [Nat.add]; fold h; lia
          | cbn [set_writeIndex capacity]; fold c; lia ].
      cbn [set_writeIndex capacity mask writeIndex readIndex cycleState
           ids prices qtys Nat.add] in *.
      right. split; [reflexivity |]. split; [exact Hn |]. split; [exact Hroom |].
      constructor; try assumption.
      * intros j Hj. apply Hslots. lia.
      * intros s Hne. apply Hothers. intros j Hj. apply Hne. lia.
    + injection Hrun as <- <-. left. split; reflexivity.
Qed.

Lemma EnqueueBatch_wf_total fuel a b c0 :
  h + Z.of_nat (length a) < 2 ^ 63 ->
  (length a <= length b)%nat -> (length a <= length c0)%nat ->
  exists rb' r, EnqueueBatch (S fuel) rb a b c0 = Returned (rb', r).
Proof.
  intros Hbound Hlb Hlc.
  pose proof (wf_cap2 rb Hwf) as Hc. pose proof (wf_tail rb Hwf) as Ht.
  pose proof (wf_shape rb Hwf) as Hs. pose proof (wf_bound rb Hwf) as Hb.
  fold t h c in Hc, Ht, Hb.
  destruct (Nat.eq_dec (length a) 0%nat) as [Hz | Hnz].
  - destruct a; [| discriminate].
    destruct wf_head_not_ahead as (v & Hv & Hle).
    exists rb, 0. apply (EnqueueBatch_nil rb fuel b c0 v); try assumption.
    fold h. lia.
  - rewrite (EnqueueBatch_wf_unfold rb Hwf) by (fold h c; lia). fold c t h.
    destruct (Z.leb_spec (h + Z.of_nat (length a)) (t + c)); [| eauto].
    change 0 with (Z.of_nat 0).
    destruct (EnqueueBatch_copy_total a b c0 h (length a) 0
                (set_writeIndex (h + Z.of_nat (length a)) rb)) as [rb1 ->];
      [apply shape_set_writeIndex; exact Hs | cbn [Nat.add]; lia ..|].
    cbn [bind]. eauto.
Qed.

(** What a returning DequeueBatch has done. *)
Lemma DequeueBatch_wf_returned fuel di dp dq rb' di' dp' dq' r :
  t + Z.of_nat (length di) < 2 ^ 63 ->
  DequeueBatch fuel rb di dp dq = Returned (rb', (di', dp', dq'), r) ->
  (r = 0 /\ rb' = rb /\ di' = di /\ dp' = dp /\ dq' = dq) \/
  (r = Z.of_nat (length di) /\ (1 <= length di)%nat /\
   t + Z.of_nat (length di) <= h /\ dequeued (length di) rb rb' /\
   (length di' = length di /\ length dp' = length dp /\ length dq' = length dq) /\
   (forall j : nat, (j < length di)%nat ->
      di' !! j = ids rb !! slot c (t + Z.of_nat j) /\
      dp' !! j = prices rb !! slot c (t + Z.of_nat j) /\
      dq' !! j = qtys rb !! slot c (t + Z.of_nat j)) /\
   (forall j : nat, (length di <= j)%nat -> dp' !! j = dp !! j /\ dq' !! j = dq !! j)).
Proof.
  intros Hbound Hrun.
  pose proof (wf_cap2 rb Hwf) as Hc. pose proof (wf_tail rb Hwf) as Ht.
  pose proof (wf_occ rb Hwf) as Ho. pose proof (wf_shape rb Hwf) as Hs.
  pose proof (wf_bound rb Hwf) as Hb.
  fold t h c in Hc, Ht, Ho, Hb.
  destruct (Nat.eq_dec (length di) 0%nat) as [Hz | Hnz].
  - unfold DequeueBatch in Hrun. rewrite Hz in Hrun. cbn [Z.of_nat Z.eqb] in Hrun.
    injection Hrun as <- <- <- <- <-. left. repeat split; reflexivity.
  - destruct fuel as [| fuel'].
    { unfold DequeueBatch in Hrun.
      destruct (Z.eqb_spec (Z.of_nat (length di)) 0); [lia | discriminate]. }
    rewrite (DequeueBatch_wf_unfold fuel') in Hrun by lia.
    destruct (Z.leb_spec (t + Z.of_nat (length di)) h) as [Havail | Hshort].
    + apply bind_Returned in Hrun as ([rb1 [[di1 dp1] dq1]] & Hcopy & Hret).
      injection Hret as <- <- <- <- <-.
      change 0 with (Z.of_nat 0) in Hcopy.
      apply DequeueBatch_copy_inv in Hcopy
        as ((E1 & E2 & E3 & E4) & (P1 & P2 & P3 & L) & Hlen & Hslots & Hothers & Hout);
        [ | apply shape_set_readIndex; exact Hs | fold t; lia
          | cbn [Nat.add set_readIndex capacity]; fold t c; lia
          | cbn [set_readIndex capacity]; fold c; lia ].
      cbn [set_readIndex capacity mask writeIndex readIndex cycleState
           ids prices qtys Nat.add] in *.
      right. split; [reflexivity |]. split; [lia |]. split; [exact Havail |].
      split; [| split; [exact Hlen | split]].
      * constructor; try assumption.
        -- intros j Hj. apply Hslots. lia.
        -- intros s Hne. apply Hothers. intros j Hj. apply Hne. lia.
      * intros j Hj. destruct (Hslots j ltac:(lia)) as (_ & _ & H1 & H2 & H3).
        repeat split; assumption.
      * intros j Hj. destruct (Hout j ltac:(lia)) as (_ & H2 & H3).
        split; assumption.
    + injection Hrun as <- <- <- <- <-. left. repeat split; reflexivity.
Qed.

Lemma DequeueBatch_wf_total fuel di dp dq :
  t + Z.of_nat (length di) < 2 ^ 63 ->
  (length di <= length dp)%nat -> (length di <= length dq)%nat ->
  exists r, DequeueBatch (S fuel) rb di dp dq = Returned r.
Proof.
  intros Hbound Hp Hq.
  pose proof (wf_cap2 rb Hwf) as Hc. pose proof (wf_tail rb Hwf) as Ht.
  pose proof (wf_occ rb Hwf) as Ho. pose proof (wf_shape rb Hwf) as Hs.
  pose proof (wf_bound rb Hwf) as Hb.
  fold t h c in Hc, Ht, Ho, Hb.
  destruct (Nat.eq_dec (length di) 0%nat) as [Hz | Hnz].
  - unfold DequeueBatch. rewrite Hz. cbn [Z.of_nat Z.eqb]. eauto.
  - rewrite (DequeueBatch_wf_unfold fuel) by lia.
    destruct (Z.leb_spec (t + Z.of_nat (length di)) h) as [Havail | Hshort]; [| eauto].
    change 0 with (Z.of_nat 0).
    destruct (DequeueBatch_copy_total fuel t (length di) 0
                (set_readIndex (t + Z.of_nat (length di)) rb) di dp dq) as [r ->];
      [ apply shape_set_readIndex; exact Hs | fold t; lia
      | cbn [Nat.add set_readIndex capacity]; fold c; lia
      | cbn [set_readIndex capacity]; fold c; lia
      | | cbn [Nat.add]; lia .. | ].
    + intros j Hj. cbn [set_readIndex capacity cycleState].
      apply (wf_filled rb Hwf). fold t h. lia.
    + cbn [bind]. eauto.
Qed.
End QuiescentBatches.

(** * One operation on a quiescent buffer with at least two slots *)

Lemma step_wf fuel rb o rb' :
  wf rb ->
  writeIndex rb + op_weight o + capacity rb < 2 ^ 63 ->
  step fuel rb o = Returned rb' ->
  wf rb' /\ capacity rb' = capacity rb /\
  writeIndex rb' <= writeIndex rb + op_weight o.
Proof.
  intros Hwf Hbound Hrun.
  pose proof (wf_tail rb Hwf) as Ht. pose proof (wf_shape rb Hwf) as Hs.
  pose proof (wf_cap2 rb Hwf) as Hc.
  destruct o as [id price qty | | a b c0 | di dp dq]; cbn [step op_weight] in *.
  - destruct fuel as [| fuel]; [discriminate |].
    rewrite (Enqueue_wf rb Hwf) in Hrun.
    destruct (Z.ltb_spec (writeIndex rb) (readIndex rb + capacity rb)) as [Hroom | Hfull];
      cbn [bind fst] in Hrun; injection Hrun as <-.
    + split; [| split; [reflexivity | cbn; lia]].
      apply (wf_enqueued [id] [price] [qty] rb); cbn [length Z.of_nat]; try lia;
        [exact Hwf | apply enqueued_single; exact Hs].
    + split; [exact Hwf | split; [reflexivity | lia]].
  - destruct fuel as [| fuel]; [discriminate |].
    destruct (Z.eq_dec (readIndex rb) (writeIndex rb)) as [Hempty | Hne].
    + rewrite (Dequeue_wf_empty rb Hwf fuel Hempty) in Hrun.
      cbn [bind fst] in Hrun. injection Hrun as <-.
      split; [exact Hwf | split; [reflexivity | lia]].
    + destruct (Dequeue_wf_take rb Hwf fuel ltac:(lia))
        as (id & price & qty & _ & _ & _ & Heq).
      rewrite Heq in Hrun. cbn [bind fst] in Hrun. injection Hrun as <-.
      split; [| split; [reflexivity | cbn; lia]].
      apply (wf_dequeued 1 rb); [exact Hwf | apply dequeued_single; exact Hs | lia].
  - destruct fuel as [| fuel]; [discriminate |].
    apply bind_Returned in Hrun as ([rb1 r] & Hcall & Hret).
    cbn [fst] in Hret. injection Hret as ->.
    apply (EnqueueBatch_wf_returned rb Hwf) in Hcall as [[_ ->] | (_ & Hn & Hroom & E)];
      [| | lia].
    + split; [exact Hwf | split; [reflexivity | lia]].
    + split; [apply (wf_enqueued a b c0 rb); assumption |].
      rewrite (enq_capacity _ _ _ _ _ E), (enq_head _ _ _ _ _ E). lia.
  - apply bind_Returned in Hrun as ([[rb1 [[di' dp'] dq']] r] & Hcall & Hret).
    cbn [fst] in Hret. injection Hret as ->.
    apply (DequeueBatch_wf_returned rb Hwf) in Hcall
      as [(_ & -> & _) | (_ & Hn & Havail & D & _)]; [| | lia].
    + split; [exact Hwf | split; [reflexivity | lia]].
    + split; [apply (wf_dequeued (length di) rb); assumption |].
      rewrite (deq_capacity _ _ _ D), (deq_head _ _ _ D). lia.
Qed.

Lemma step_wf_total fuel rb o :
  wf rb ->
  writeIndex rb + op_weight o + capacity rb < 2 ^ 63 ->
  op_aligned o ->
  exists rb', step (S fuel) rb o = Returned rb'.
Proof.
  intros Hwf Hbound Hal.
  pose proof (wf_tail rb Hwf) as Ht. pose proof (wf_cap2 rb Hwf) as Hc.
  destruct o as [id price qty | | a b c0 | di dp dq]; cbn [step op_weight op_aligned] in *.
  - rewrite (Enqueue_wf rb Hwf). destruct (_ <? _); cbn [bind]; eauto.
  - destruct (Z.eq_dec (readIndex rb) (writeIndex rb)) as [Hempty | Hne].
    + rewrite (Dequeue_wf_empty rb Hwf fuel Hempty). cbn [bind]. eauto.
    + destruct (Dequeue_wf_take rb Hwf fuel ltac:(lia))
        as (id & price & qty & _ & _ & _ & ->).
      cbn [bind]. eauto.
  - destruct (EnqueueBatch_wf_total rb Hwf fuel a b c0) as (rb' & r & ->);
      [lia | tauto | tauto |].
    cbn [bind]. eauto.
  - destruct (DequeueBatch_wf_total rb Hwf fuel di dp dq) as (r & ->);
      [lia | tauto | tauto |].
    cbn [bind]. eauto.
Qed.

Lemma Newbuffer_shape c : is_pow2 c -> c < 2 ^ 64 -> shape (Newbuffer c).
Proof.
  intros Hp Hlt. pose proof (is_pow2_pos c Hp) as Hc.
  constructor; cbn [Newbuffer capacity mask cycleState ids prices qtys];
    rewrite ?init_cycle_length, ?length_replicate; try reflexivity.
  - exact Hp.
  - apply sub64_small. lia.
Qed.

Lemma Newbuffer_wf c : is_pow2 c -> 2 <= c -> c < 2 ^ 63 -> wf (Newbuffer c).
Proof.
  intros Hp Hc Hlt. constructor.
  - apply Newbuffer_shape; [exact Hp | lia].
  - exact Hc.
  - cbn. lia.
  - cbn [Newbuffer capacity writeIndex readIndex]. lia.
  - cbn [Newbuffer capacity writeIndex readIndex]. lia.
  - cbn [Newbuffer capacity writeIndex readIndex]. lia.
  - intros p Hp'. change (capacity (Newbuffer c)) with c.
    change (writeIndex (Newbuffer c)) with 0 in Hp'.
    change (readIndex (Newbuffer c)) with 0 in Hp'.
    change (capacity (Newbuffer c)) with c in Hp'.
    unfold slot. rewrite Z.mod_small by lia. apply Newbuffer_cycle. lia.
Qed.

Lemma singleton_lookup {A : Type} (l : list A) (v : A) :
  length l = 1%nat -> l !! 0%nat = Some v -> l = [v].
Proof.
  destruct l as [| x [| y l]]; cbn; intros Hlen Hv; try discriminate.
  congruence.
Qed.

Lemma Newbuffer_wf1 : wf1 (Newbuffer 1).
Proof.
  constructor.
  - apply Newbuffer_shape; [exists 0; split; [lia | reflexivity] | lia].
  - reflexivity.
  - cbn. lia.
  - cbn. lia.
  - reflexivity.
Qed.

(** * Batches written to or taken from a well-shaped buffer *)

Lemma EnqueueBatch_copy_enqueued rb rb' a b c0 :
  shape rb -> 0 <= writeIndex rb ->
  writeIndex rb + Z.of_nat (length a) < 2 ^ 64 ->
  Z.of_nat (length a) <= capacity rb ->
  EnqueueBatch_copy (length a) 0 (writeIndex rb)
    (set_writeIndex (writeIndex rb + Z.of_nat (length a)) rb) a b c0 = Returned rb' ->
  enqueued a b c0 rb rb'.
Proof.
  intros Hs Hh Hbound Hcap Hcopy.
  change 0 with (Z.of_nat 0) in Hcopy.
  apply EnqueueBatch_copy_inv in Hcopy
    as ((E1 & E2 & E3 & E4) & (L1 & L2 & L3 & L4) & Hslots & Hothers);
    [ | apply shape_set_writeIndex; exact Hs | exact Hh
      | cbn [Nat.add]; lia | cbn [set_writeIndex capacity]; lia ].
  cbn [set_writeIndex capacity mask writeIndex readIndex cycleState
       ids prices qtys Nat.add] in *.
  constructor; try assumption.
  - intros j Hj. apply Hslots. lia.
  - intros s Hne. apply Hothers. intros j Hj. apply Hne. lia.
Qed.

Lemma DequeueBatch_copy_dequeued fuel rb rb' di dp dq di' dp' dq' :
  shape rb -> 0 <= readIndex rb ->
  readIndex rb + Z.of_nat (length di) + capacity rb < 2 ^ 64 ->
  Z.of_nat (length di) <= capacity rb ->
  DequeueBatch_copy fuel (length di) 0 (readIndex rb)
    (set_readIndex (readIndex rb + Z.of_nat (length di)) rb) di dp dq
    = Returned (rb', (di', dp', dq')) ->
  dequeued (length di) rb rb' /\
  (forall j : nat, (j < length di)%nat ->
     cycleState rb !! slot (capacity rb) (readIndex rb + Z.of_nat j)
       = Some (readIndex rb + Z.of_nat j + 1)).
Proof.
  intros Hs Ht Hbound Hcap Hcopy.
  change 0 with (Z.of_nat 0) in Hcopy.
  apply DequeueBatch_copy_inv in Hcopy
    as ((E1 & E2 & E3 & E4) & (P1 & P2 & P3 & L) & Hlen & Hslots & Hothers & Hout);
    [ | apply shape_set_readIndex; exact Hs | exact Ht
      | cbn [Nat.add set_readIndex capacity]; lia
      | cbn [set_readIndex capacity]; lia ].
  cbn [set_readIndex capacity mask writeIndex readIndex cycleState
       ids prices qtys Nat.add] in *.
  split.
  - constructor; try assumption.
    + intros j Hj. apply Hslots. lia.
    + intros s Hne. apply Hothers. intros j Hj. apply Hne. lia.
  - intros j Hj. apply Hslots. lia.
Qed.

(** * One operation on a buffer with a single slot *)

Section SingleSlot.
Variable rb : RingBuffer.
Hypothesis Hone : wf1 rb.

Let h := writeIndex rb.
Let t := readIndex rb.

Lemma wf1_slot x : slot (capacity rb) x = 0%nat.
Proof. rewrite (wf1_cap rb Hone). unfold slot. rewrite Z.mod_1_r. reflexivity. Qed.

Lemma wf1_cycle_at x : cycleState rb !! slot (capacity rb) x = Some h.
Proof. rewrite wf1_slot, (wf1_cycle rb Hone). reflexivity. Qed.

Lemma wf1_head_not_ahead :
  exists v, cycleState rb !! slot (capacity rb) h = Some v /\
            isub64 (int64 v) (int64 h) <= 0.
Proof.
  pose proof (wf1_tail rb Hone) as Ht. pose proof (wf1_bound rb Hone) as Hb.
  fold t h in Ht, Hb.
  exists h. split; [apply wf1_cycle_at |]. rewrite lap_diff_small by lia. lia.
Qed.

Lemma Enqueue_wf1 fuel id price qty :
  Enqueue (S fuel) rb id price qty =
    Returned (write_slot 0 id price qty (h + 1) (set_writeIndex (h + 1) rb), true).
Proof.
  pose proof (wf1_tail rb Hone) as Ht. pose proof (wf1_bound rb Hone) as Hb.
  pose proof (wf1_shape rb Hone) as Hs.
  fold t h in Ht, Hb.
  cbn [Enqueue]. fold h.
  rewrite (load_slot rb Hs _ h _ _ (wf1_cycle_at h)).
  rewrite lap_diff_small, Z.sub_diag by lia. cbn [Z.eqb].
  rewrite add64_small by lia.
  change (mask rb) with (mask (set_writeIndex (h + 1) rb)).
  rewrite (store_slot _ (shape_set_writeIndex rb (h + 1) Hs)).
  cbn [set_writeIndex capacity]. rewrite wf1_slot. reflexivity.
Qed.

Lemma wf1_published id price qty :
  h + 2 < 2 ^ 63 ->
  wf1 (write_slot 0 id price qty (h + 1) (set_writeIndex (h + 1) rb)).
Proof.
  intros Hb. pose proof (wf1_tail rb Hone) as Ht. fold t h in Ht.
  constructor.
  - apply shape_write_slot, shape_set_writeIndex, (wf1_shape rb Hone).
  - exact (wf1_cap rb Hone).
  - cbn [write_slot set_writeIndex writeIndex readIndex]. fold t. lia.
  - cbn [write_slot set_writeIndex writeIndex]. lia.
  - cbn [write_slot set_writeIndex writeIndex cycleState].
    rewrite (wf1_cycle rb Hone). reflexivity.
Qed.

Lemma Dequeue_wf1_returned fuel rb' r :
  Dequeue fuel rb = Returned (rb', r) ->
  wf1 rb' /\ writeIndex rb' = h.
Proof.
  pose proof (wf1_tail rb Hone) as Ht. pose proof (wf1_bound rb Hone) as Hb.
  pose proof (wf1_shape rb Hone) as Hs.
  fold t h in Ht, Hb.
  induction fuel as [| fuel IH]; cbn [Dequeue]; [discriminate |].
  fold t. rewrite (load_slot rb Hs _ t _ _ (wf1_cycle_at t)).
  rewrite add64_small, lap_diff_small by lia.
  destruct (Z.eqb_spec (h - (t + 1)) 0) as [Heq | Hne].
  - intros Hrun.
    apply bind_Returned in Hrun as (id & _ & Hrun).
    apply bind_Returned in Hrun as (price & _ & Hrun).
    apply bind_Returned in Hrun as (qty & _ & Hrun).
    pose proof (shape_set_readIndex rb (t + 1) Hs) as Hs'.
    change (mask rb) with (mask (set_readIndex (t + 1) rb)) in Hrun.
    rewrite (release_slot _ Hs') in Hrun. injection Hrun as <- _.
    cbn [set_readIndex capacity cycleState]. rewrite wf1_slot, (wf1_cap rb Hone).
    rewrite add64_small by lia.
    split; [| reflexivity].
    constructor;
      cbn [set_cycleState set_readIndex capacity writeIndex readIndex cycleState].
    + apply shape_set_cycleState; [apply length_insert | exact Hs'].
    + exact (wf1_cap rb Hone).
    + fold h. lia.
    + fold h. lia.
    + rewrite (wf1_cycle rb Hone). fold h. cbn. f_equal. lia.
  - destruct (Z.ltb_spec (h - (t + 1)) 0); [| exact IH].
    intros [= <- _]. split; [exact Hone | reflexivity].
Qed.

Lemma EnqueueBatch_wf1_returned fuel a b c0 rb' r :
  h + Z.of_nat (length a) + 1 < 2 ^ 63 ->
  EnqueueBatch (S fuel) rb a b c0 = Returned (rb', r) ->
  wf1 rb' /\ writeIndex rb' <= h + Z.of_nat (length a).
Proof.
  intros Hbound Hrun.
  pose proof (wf1_tail rb Hone) as Ht. pose proof (wf1_shape rb Hone) as Hs.
  fold t h in Ht.
  destruct (Nat.eq_dec (length a) 0%nat) as [Hz | Hnz].
  - destruct a; [| discriminate].
    destruct wf1_head_not_ahead as (v & Hv & Hle).
    rewrite (EnqueueBatch_nil rb fuel b c0 v) in Hrun; try assumption; [| fold h; lia].
    injection Hrun as <- _. split; [exact Hone | fold h; lia].
  - set (n := Z.of_nat (length a)) in *.
    cbn [EnqueueBatch] in Hrun. fold h n in Hrun.
    rewrite (load_slot rb Hs _ h _ _ (wf1_cycle_at h)) in Hrun.
    rewrite lap_diff_small, Z.sub_diag in Hrun by lia.
    cbn [Z.ltb Z.eqb Z.compare] in Hrun.
    rewrite (add64_small h n), (sub64_small (h + n) 1) in Hrun by lia.
    rewrite (load_slot rb Hs _ (h + n - 1) _ _ (wf1_cycle_at (h + n - 1))) in Hrun.
    rewrite lap_diff_small in Hrun by lia.
    destruct (Z.ltb_spec (h - (h + n - 1)) 0).
    + injection Hrun as <- _. split; [exact Hone | fold h; lia].
    + assert (Hn1 : length a = 1%nat) by lia.
      apply bind_Returned in Hrun as (rb1 & Hcopy & Hret). injection Hret as <- _.
      unfold n in Hcopy. rewrite Nat2Z.id in Hcopy.
      apply EnqueueBatch_copy_enqueued in Hcopy;
        [ | exact Hs | fold h; lia | fold h; lia | rewrite (wf1_cap rb Hone); lia ].
      pose proof (shape_enqueued _ _ _ _ _ Hs Hcopy) as Hs1.
      destruct (enq_slots _ _ _ _ _ Hcopy 0%nat ltac:(lia)) as (Hcyc & _).
      rewrite wf1_slot in Hcyc. cbn [Z.of_nat] in Hcyc. rewrite Z.add_0_r in Hcyc.
      split.
      * constructor.
        -- exact Hs1.
        -- rewrite (enq_capacity _ _ _ _ _ Hcopy). exact (wf1_cap rb Hone).
        -- rewrite (enq_head _ _ _ _ _ Hcopy), (enq_tail _ _ _ _ _ Hcopy). lia.
        -- rewrite (enq_head _ _ _ _ _ Hcopy). fold h n. lia.
        -- rewrite (enq_head _ _ _ _ _ Hcopy), Hn1. cbn [Z.of_nat Pos.of_succ_nat].
           apply singleton_lookup; [| exact Hcyc].
           rewrite (enq_len_cycle _ _ _ _ _ Hcopy), (wf1_cycle rb Hone). reflexivity.
      * rewrite (enq_head _ _ _ _ _ Hcopy). fold h n. lia.
Qed.
End SingleSlot.

(** With one slot, a batch dequeue of two or more records releases the slot
    in its first round and then waits for a publication nobody will make. *)
Lemma DequeueBatch_copy_single_slot fuel tail m (i : nat) rb di dp dq r :
  shape rb -> capacity rb = 1 -> 0 <= tail ->
  tail + Z.of_nat i + 3 < 2 ^ 64 ->
  DequeueBatch_copy fuel (S (S m)) (Z.of_nat i) tail rb di dp dq <> Returned r.
Proof.
  intros Hs Hcap Htail Hbound Hrun.
  cbn [DequeueBatch_copy] in Hrun.
  rewrite !add64_small in Hrun by lia.
  apply bind_Returned in Hrun as ([] & _ & Hrun).
  apply bind_Returned in Hrun as (id & _ & Hrun).
  apply bind_Returned in Hrun as (di1 & _ & Hrun).
  apply bind_Returned in Hrun as (price & _ & Hrun).
  apply bind_Returned in Hrun as (dp1 & _ & Hrun).
  apply bind_Returned in Hrun as (qty & _ & Hrun).
  apply bind_Returned in Hrun as (dq1 & _ & Hrun).
  rewrite (release_slot rb Hs) in Hrun.
  set (rb2 := set_cycleState _ rb) in Hrun.
  assert (Hs2 : shape rb2)
    by (apply shape_set_cycleState; [apply length_insert | exact Hs]).
  apply bind_Returned in Hrun as ([] & Hw & _).
  change (mask rb) with (mask rb2) in Hw.
  apply (await_published_inv _ _ _ Hs2) in Hw.
  rewrite add64_small in Hw by lia.
  cbn [rb2 set_cycleState capacity cycleState] in Hw.
  rewrite Hcap in Hw. unfold slot in Hw. rewrite !Z.mod_1_r in Hw.
  rewrite list_lookup_insert_eq in Hw
    by (rewrite (shape_cycle rb Hs), Hcap; cbn; lia).
  injection Hw as Hw. lia.
Qed.

Section SingleSlotDequeueBatch.
Variable rb : RingBuffer.
Hypothesis Hone : wf1 rb.

Let h := writeIndex rb.
Let t := readIndex rb.

Lemma DequeueBatch_wf1_returned fuel di dp dq rb' outs r :
  h + Z.of_nat (length di) + 1 < 2 ^ 63 ->
  DequeueBatch fuel rb di dp dq = Returned (rb', outs, r) ->
  wf1 rb' /\ writeIndex rb' = h.
Proof.
  intros Hbound Hrun.
  pose proof (wf1_tail rb Hone) as Ht. pose proof (wf1_shape rb Hone) as Hs.
  pose proof (wf1_cap rb Hone) as Hcap.
  fold t h in Ht.
  unfold DequeueBatch in Hrun.
  set (n := Z.of_nat (length di)) in *.
  destruct (Z.eqb_spec n 0) as [Hz | Hnz].
  { injection Hrun as <- _ _. split; [exact Hone | reflexivity]. }
  destruct fuel as [| fuel]; [discriminate |].
  unfold DequeueBatch_attempt in Hrun. fold t in Hrun.
  rewrite (load_slot rb Hs _ t _ _ (wf1_cycle_at rb Hone t)) in Hrun. fold h in Hrun.
  rewrite (add64_small t 1), (add64_small t n), (sub64_small (t + n) 1) in Hrun by lia.
  rewrite lap_diff_small in Hrun by lia.
  destruct (Z.ltb_spec (h - (t + 1)) 0).
  { injection Hrun as <- _ _. split; [exact Hone | reflexivity]. }
  rewrite (load_slot rb Hs _ (t + n - 1) _ _ (wf1_cycle_at rb Hone (t + n - 1))) in Hrun.
  fold h in Hrun. rewrite lap_diff_small in Hrun by lia.
  destruct (Z.ltb_spec (h - (t + n)) 0).
  { injection Hrun as <- _ _. split; [exact Hone | reflexivity]. }
  apply bind_Returned in Hrun as ([rb1 [[di1 dp1] dq1]] & Hcopy & Hret).
  injection Hret as <- _ _.
  unfold n in Hcopy at 1. rewrite Nat2Z.id in Hcopy.
  destruct (length di) as [| [| m]] eqn:Hlen; [lia | |].
  - rewrite <- Hlen in Hcopy. fold t in Hcopy.
    replace n with (Z.of_nat (length di)) in Hcopy by (unfold n; lia).
    apply DequeueBatch_copy_dequeued in Hcopy as [D Hpub];
      [ | exact Hs | fold t; lia | fold t; rewrite Hcap; lia | rewrite Hcap; lia ].
    rewrite Hlen in D, Hpub.
    pose proof (Hpub 0%nat ltac:(lia)) as Hp0.
    rewrite (wf1_cycle_at rb Hone) in Hp0. fold h t in Hp0.
    cbn [Z.of_nat] in Hp0. injection Hp0 as Hp0.
    pose proof (deq_slots _ _ _ D 0%nat ltac:(lia)) as Hc0.
    rewrite (wf1_slot rb Hone), Hcap in Hc0. fold t in Hc0. cbn [Z.of_nat] in Hc0.
    split; [| exact (deq_head _ _ _ D)].
    constructor.
    + exact (shape_dequeued _ _ _ Hs D).
    + rewrite (deq_capacity _ _ _ D). exact Hcap.
    + rewrite (deq_head _ _ _ D), (deq_tail _ _ _ D). fold h t. lia.
    + rewrite (deq_head _ _ _ D). fold h. lia.
    + rewrite (deq_head _ _ _ D). fold h.
      apply singleton_lookup.
      * rewrite (deq_len_cycle _ _ _ D), (wf1_cycle rb Hone). reflexivity.
      * rewrite Hc0. f_equal. lia.
  - exfalso. change 0 with (Z.of_nat 0) in Hcopy.
    apply DequeueBatch_copy_single_slot in Hcopy; try assumption.
    + apply shape_set_readIndex. exact Hs.
    + fold t. lia.
    + fold t. cbn [Z.of_nat]. lia.
Qed.
End SingleSlotDequeueBatch.

(** * Every state a sequential program reaches is quiescent *)

Lemma op_weight_nonneg o : 0 <= op_weight o.
Proof. destruct o; cbn; lia. Qed.

Lemma ops_weight_nonneg ops : 0 <= ops_weight ops.
Proof.
  induction ops as [| o ops IH]; cbn [ops_weight]; [lia |].
  pose proof (op_weight_nonneg o). lia.
Qed.

Lemma step_wf1 fuel rb o rb' :
  wf1 rb ->
  writeIndex rb + op_weight o + capacity rb < 2 ^ 63 ->
  step fuel rb o = Returned rb' ->
  wf1 rb' /\ writeIndex rb' <= writeIndex rb + op_weight o.
Proof.
  intros Hone Hbound Hrun. pose proof (wf1_cap rb Hone) as Hcap.
  rewrite Hcap in Hbound.
  destruct o as [id price qty | | a b c0 | di dp dq]; cbn [step op_weight] in *.
  - destruct fuel as [| fuel]; [discriminate |].
    rewrite (Enqueue_wf1 rb Hone) in Hrun. cbn [bind fst] in Hrun.
    injection Hrun as <-. split; [apply wf1_published; [exact Hone | lia] | cbn; lia].
  - apply bind_Returned in Hrun as ([rb1 r] & Hcall & Hret).
    cbn [fst] in Hret. injection Hret as ->.
    apply (Dequeue_wf1_returned rb Hone) in Hcall as [H1 ->]. split; [exact H1 | lia].
  - destruct fuel as [| fuel]; [discriminate |].
    apply bind_Returned in Hrun as ([rb1 r] & Hcall & Hret).
    cbn [fst] in Hret. injection Hret as ->.
    apply (EnqueueBatch_wf1_returned rb Hone) in Hcall; [exact Hcall | lia].
  - apply bind_Returned in Hrun as ([[rb1 outs] r] & Hcall & Hret).
    cbn [fst] in Hret. injection Hret as ->.
    apply (DequeueBatch_wf1_returned rb Hone) in Hcall as [H1 ->]; [| lia].
    split; [exact H1 |]. pose proof (op_weight_nonneg (OpDequeueBatch di dp dq)).
    cbn [op_weight] in H. lia.
Qed.

Lemma step_inv fuel rb o rb' :
  inv rb ->
  writeIndex rb + op_weight o + capacity rb < 2 ^ 63 ->
  step fuel rb o = Returned rb' ->
  inv rb' /\ capacity rb' = capacity rb /\
  writeIndex rb' <= writeIndex rb + op_weight o.
Proof.
  intros [Hwf | Hone] Hbound Hrun.
  - destruct (step_wf fuel rb o rb' Hwf Hbound Hrun) as (H1 & H2 & H3).
    split; [left; exact H1 | split; assumption].
  - destruct (step_wf1 fuel rb o rb' Hone Hbound Hrun) as (H1 & H3).
    split; [right; exact H1 |]. split; [| exact H3].
    rewrite (wf1_cap rb' H1), (wf1_cap rb Hone). reflexivity.
Qed.

Lemma run_inv fuel ops :
  forall rb rb',
    inv rb ->
    writeIndex rb + ops_weight ops + capacity rb < 2 ^ 63 ->
    run fuel ops rb = Returned rb' ->
    inv rb' /\ capacity rb' = capacity rb /\
    writeIndex rb' <= writeIndex rb + ops_weight ops.
Proof.
  induction ops as [| o ops IH]; intros rb rb' Hinv Hbound Hrun;
    cbn [run ops_weight] in *.
  - injection Hrun as <-. split; [exact Hinv | split; [reflexivity | lia]].
  - apply bind_Returned in Hrun as (rb1 & Hstep & Hrun).
    pose proof (ops_weight_nonneg ops) as Hw.
    pose proof (op_weight_nonneg o) as Hw'.
    apply step_inv in Hstep as (Hinv1 & Hcap1 & Hh1); [| exact Hinv | lia].
    apply IH in Hrun as (Hinv' & Hcap' & Hh'); [| exact Hinv1 | rewrite Hcap1; lia].
    split; [exact Hinv' | split; [congruence | lia]].
Qed.

Lemma Newbuffer_inv c : is_pow2 c -> c < 2 ^ 63 -> inv (Newbuffer c).
Proof.
  intros Hp Hlt. destruct (is_pow2_cases c Hp) as [-> | [Hc _]].
  - right. exact Newbuffer_wf1.
  - left. apply Newbuffer_wf; assumption.
Qed.

Lemma reachable_inv c rb :
  is_pow2 c -> reachable c rb -> inv rb /\ capacity rb = c.
Proof.
  intros Hp (fuel & ops & Hbound & Hrun).
  pose proof (ops_weight_nonneg ops) as Hw.
  apply run_inv in Hrun as (Hinv & Hcap & _).
  - split; [exact Hinv | exact Hcap].
  - apply Newbuffer_inv; [exact Hp | lia].
  - cbn [Newbuffer writeIndex capacity]. lia.
Qed.

(** * The claims of the specification *)

Lemma run_total fuel ops :
  forall rb,
    wf rb ->
    writeIndex rb + ops_weight ops + capacity rb < 2 ^ 63 ->
    Forall op_aligned ops ->
    exists rb', run (S fuel) ops rb = Returned rb'.
Proof.
  induction ops as [| o ops IH]; intros rb Hwf Hbound Hal; cbn [run ops_weight] in *.
  - eauto.
  - pose proof (ops_weight_nonneg ops) as Hw.
    pose proof (op_weight_nonneg o) as Hw'.
    apply Forall_cons in Hal as [Ho Hal].
    destruct (step_wf_total fuel rb o Hwf ltac:(lia) Ho) as [rb1 Hstep].
    rewrite Hstep. cbn [bind].
    apply step_wf in Hstep as (Hwf1 & Hcap1 & Hh1); [| exact Hwf | lia].
    apply IH; [exact Hwf1 | rewrite Hcap1; lia | exact Hal].
Qed.

Lemma inv_cycle_form rb off :
  inv rb -> 0 <= off < capacity rb ->
  exists k, 0 <= k /\
    (cycleState rb !! Z.to_nat off = Some (k * capacity rb + off) \/
     cycleState rb !! Z.to_nat off = Some (k * capacity rb + off + 1)).
Proof.
  intros [Hwf | Hone] Hoff.
  - pose proof (wf_cap2 rb Hwf) as Hc. pose proof (wf_tail rb Hwf) as Ht.
    set (p := window_pos (capacity rb) (readIndex rb) off).
    pose proof (window_pos_range (capacity rb) (readIndex rb) off ltac:(lia)) as Hr.
    pose proof (window_pos_mod (capacity rb) (readIndex rb) off ltac:(lia)) as Hm.
    fold p in Hr, Hm. rewrite (Z.mod_small off) in Hm by lia.
    pose proof (Z.div_mod p (capacity rb) ltac:(lia)) as Hdm. rewrite Hm in Hdm.
    exists (p / capacity rb). split; [apply Z.div_pos; lia |].
    pose proof (wf_cycle_at rb Hwf off) as Hv. fold p in Hv.
    unfold slot in Hv. rewrite (Z.mod_small off) in Hv by lia.
    rewrite Hv. destruct (p <? writeIndex rb); [right | left]; f_equal; lia.
  - pose proof (wf1_cap rb Hone) as Hc. pose proof (wf1_tail rb Hone) as Ht.
    rewrite Hc in *. assert (off = 0) as -> by lia.
    exists (writeIndex rb). split; [lia |]. left.
    rewrite (wf1_cycle rb Hone).
    replace (writeIndex rb * 1 + 0) with (writeIndex rb) by lia. reflexivity.
Qed.

(** C2: every state a sequential program of Enqueue, Dequeue, EnqueueBatch and
    DequeueBatch calls reaches from [Newbuffer c], [c] a power of two, has
    [cycleState[off] = k * c + off] or [cycleState[off] = k * c + off + 1] for
    some natural [k], for every slot [off].  The fresh buffer has
    [head = tail = 0] and [cycleState[i] = i].  With at least two slots and
    batch slices as long as their first one, every call of the program
    returns.  (Cursor wrap-around is taken as not occurring, as the
    specification does: the program requests fewer than [2^63 - c]
    records.) *)
Theorem slot_cycle_invariant (c : Z) (ops : list op) :
  is_pow2 c ->
  ops_weight ops + c < 2 ^ 63 ->
  (writeIndex (Newbuffer c) = 0 /\ readIndex (Newbuffer c) = 0 /\
   forall i, 0 <= i < c -> cycleState (Newbuffer c) !! Z.to_nat i = Some i) /\
  (forall fuel rb,
     run fuel ops (Newbuffer c) = Returned rb ->
     forall off, 0 <= off < c ->
     exists k, 0 <= k /\
       (cycleState rb !! Z.to_nat off = Some (k * c + off) \/
        cycleState rb !! Z.to_nat off = Some (k * c + off + 1))) /\
  (2 <= c -> Forall op_aligned ops ->
   forall fuel, exists rb, run (S fuel) ops (Newbuffer c) = Returned rb).
Proof.
  intros Hp Hbound. pose proof (ops_weight_nonneg ops) as Hw.
  split; [| split].
  - split; [reflexivity | split; [reflexivity | apply Newbuffer_cycle]].
  - intros fuel rb Hrun off Hoff.
    destruct (reachable_inv c rb Hp) as [Hinv Hcap].
    { exists fuel, ops. split; assumption. }
    rewrite <- Hcap in *. apply inv_cycle_form; assumption.
  - intros Hc Hal fuel. apply run_total; [| cbn; lia | exact Hal].
    apply Newbuffer_wf; [exact Hp | exact Hc | lia].
Qed.

Lemma slot_cycle_invariant_witness :
  is_pow2 4 /\
  ops_weight [OpEnqueue 1 100 1; OpEnqueueBatch [2; 3] [100; 100]%float [1; 1];
              OpDequeue; OpDequeueBatch [0; 0] [0; 0]%float [0; 0];
              OpEnqueue 4 100 1] + 4 < 2 ^ 63 /\
  run 1 [OpEnqueue 1 100 1; OpEnqueueBatch [2; 3] [100; 100]%float [1; 1];
         OpDequeue; OpDequeueBatch [0; 0] [0; 0]%float [0; 0];
         OpEnqueue 4 100 1] (Newbuffer 4)
    = Returned (mkRingBuffer 4 3 4 3 [4; 5; 6; 4] [1; 2; 3; 4]
                  [100; 100; 100; 100]%float [1; 1; 1; 1]) /\
  exists k, 0 <= k /\
    ([4; 5; 6; 4] !! Z.to_nat 3 = Some (k * 4 + 3) \/
     [4; 5; 6; 4] !! Z.to_nat 3 = Some (k * 4 + 3 + 1)).
Proof.
  assert (Hp : is_pow2 4) by (exists 2; split; [lia | reflexivity]).
  assert (Hw : ops_weight [OpEnqueue 1 100 1;
                           OpEnqueueBatch [2; 3] [100; 100]%float [1; 1];
                           OpDequeue; OpDequeueBatch [0; 0] [0; 0]%float [0; 0];
                           OpEnqueue 4 100 1] + 4 < 2 ^ 63)
    by (vm_compute; reflexivity).
  split; [exact Hp |]. split; [exact Hw |]. split; [vm_compute; reflexivity |].
  destruct (slot_cycle_invariant 4 _ Hp Hw) as (_ & H & _).
  apply (H 1%nat (mkRingBuffer 4 3 4 3 [4; 5; 6; 4] [1; 2; 3; 4]
                    [100; 100; 100; 100]%float [1; 1; 1; 1]));
    [vm_compute; reflexivity | lia].
Defined.

(** C3 (as stated) fails for capacity 1, a power of two: two Enqueue calls on
    a fresh single-slot buffer both succeed and leave [head - tail = 2]. *)
Lemma occupancy_exceeds_capacity_1 :
  is_pow2 1 /\
  run 1 [OpEnqueue 1 100 1; OpEnqueue 2 100 1] (Newbuffer 1)
    = Returned (mkRingBuffer 1 0 2 0 [2] [2] [100]%float [1]) /\
  ~ (2 - 0 <= 1).
Proof.
  split; [exists 0; split; [lia | reflexivity] |].
  split; [vm_compute; reflexivity | lia].
Qed.

(** C3 (as amended): for a power-of-two capacity of at least 2, every state a
    sequential program of Enqueue, Dequeue, EnqueueBatch and DequeueBatch
    calls reaches from the fresh buffer, the fresh buffer included and
    whatever the batch lengths, has [tail <= head] and
    [head - tail <= capacity].  (Cursor wrap-around is taken as not occurring:
    the program requests fewer than [2^63 - c] records.) *)
Theorem bounded_occupancy (c : Z) (fuel : nat) (ops : list op) (rb : RingBuffer) :
  is_pow2 c -> 2 <= c ->
  ops_weight ops + c < 2 ^ 63 ->
  run fuel ops (Newbuffer c) = Returned rb ->
  capacity rb = c /\
  0 <= readIndex rb <= writeIndex rb /\
  writeIndex rb - readIndex rb <= capacity rb.
Proof.
  intros Hp Hc Hbound Hrun.
  destruct (reachable_inv c rb Hp) as [[Hwf | Hone] Hcap].
  { exists fuel, ops. split; assumption. }
  - pose proof (wf_tail rb Hwf). pose proof (wf_occ rb Hwf).
    split; [exact Hcap | split; lia].
  - pose proof (wf1_cap rb Hone). lia.
Qed.

Lemma bounded_occupancy_witness :
  run 1 [OpEnqueueBatch [1; 2; 3] [100; 100; 100]%float [1; 1; 1];
         OpEnqueueBatch [4; 5] [100; 100]%float [1; 1];
         OpEnqueue 6 100 1; OpDequeue] (Newbuffer 4)
    = Returned (mkRingBuffer 4 3 4 1 [4; 2; 3; 4] [1; 2; 3; 6]
                  [100; 100; 100; 100]%float [1; 1; 1; 1]) /\
  0 <= 1 <= 4 /\ 4 - 1 <= 4.
Proof.
  assert (Hrun :
    run 1 [OpEnqueueBatch [1; 2; 3] [100; 100; 100]%float [1; 1; 1];
           OpEnqueueBatch [4; 5] [100; 100]%float [1; 1];
           OpEnqueue 6 100 1; OpDequeue] (Newbuffer 4)
      = Returned (mkRingBuffer 4 3 4 1 [4; 2; 3; 4] [1; 2; 3; 6]
                    [100; 100; 100; 100]%float [1; 1; 1; 1]))
    by (vm_compute; reflexivity).
  split; [exact Hrun |].
  refine (proj2 (bounded_occupancy 4 1 _ _ _ _ _ Hrun)).
  - exists 2. split; [lia | reflexivity].
  - lia.
  - vm_compute. reflexivity.
Defined.

Lemma inv_shape rb : inv rb -> shape rb.
Proof. intros [H | H]; [exact (wf_shape rb H) | exact (wf1_shape rb H)]. Qed.

Lemma inv_head_range rb : inv rb -> 0 <= writeIndex rb /\ writeIndex rb + 1 < 2 ^ 63.
Proof.
  intros [H | H].
  - pose proof (wf_tail rb H). pose proof (wf_bound rb H). pose proof (wf_cap2 rb H). lia.
  - pose proof (wf1_tail rb H). pose proof (wf1_bound rb H). lia.
Qed.

Lemma inv_head_not_ahead rb :
  inv rb ->
  exists v, cycleState rb !! slot (capacity rb) (writeIndex rb) = Some v /\
            isub64 (int64 v) (int64 (writeIndex rb)) <= 0.
Proof. intros [H | H]; [apply wf_head_not_ahead | apply wf1_head_not_ahead]; exact H. Qed.

(** On a buffer with at least two slots the head slot is behind the head
    cursor exactly when [capacity] records are waiting. *)
Lemma wf_head_behind_iff_full rb v :
  wf rb ->
  cycleState rb !! slot (capacity rb) (writeIndex rb) = Some v ->
  (0 <= isub64 (int64 v) (int64 (writeIndex rb)) <->
   writeIndex rb - readIndex rb < capacity rb).
Proof.
  intros Hwf Hv.
  pose proof (wf_cap2 rb Hwf) as Hc. pose proof (wf_tail rb Hwf) as Ht.
  pose proof (wf_occ rb Hwf) as Ho. pose proof (wf_bound rb Hwf) as Hb.
  rewrite (wf_cycle_at rb Hwf) in Hv. injection Hv as <-.
  pose proof (window_pos_range (capacity rb) (readIndex rb) (writeIndex rb) ltac:(lia)).
  pose proof (window_pos_trichotomy (capacity rb) (readIndex rb) (writeIndex rb)
                ltac:(lia)).
  destruct (Z.ltb_spec (window_pos (capacity rb) (readIndex rb) (writeIndex rb))
              (writeIndex rb));
    rewrite lap_diff_small by lia; lia.
Qed.

Lemma Enqueue_unfold rb fuel id price qty v :
  shape rb -> 0 <= writeIndex rb -> writeIndex rb + 1 < 2 ^ 64 ->
  cycleState rb !! slot (capacity rb) (writeIndex rb) = Some v ->
  isub64 (int64 v) (int64 (writeIndex rb)) <= 0 ->
  Enqueue (S fuel) rb id price qty =
    if isub64 (int64 v) (int64 (writeIndex rb)) =? 0
    then Returned (write_slot (slot (capacity rb) (writeIndex rb)) id price qty
                     (writeIndex rb + 1) (set_writeIndex (writeIndex rb + 1) rb), true)
    else Returned (rb, false).
Proof.
  intros Hs Hh Hb Hv Hle. cbn [Enqueue].
  rewrite (load_slot rb Hs _ _ _ _ Hv).
  destruct (Z.eqb_spec (isub64 (int64 v) (int64 (writeIndex rb))) 0).
  - rewrite add64_small by lia.
    change (mask rb) with (mask (set_writeIndex (writeIndex rb + 1) rb)).
    rewrite (store_slot _ (shape_set_writeIndex rb (writeIndex rb + 1) Hs)).
    reflexivity.
  - destruct (Z.ltb_spec (isub64 (int64 v) (int64 (writeIndex rb))) 0); [reflexivity | lia].
Qed.

(** C5: in every reachable state of a buffer of power-of-two capacity,
    Enqueue returns, and it returns [true] exactly when the cycle of the head
    slot is not behind the head cursor.  On [true] the new state is the old
    one with [writeIndex + 1], the record stored at offset
    [writeIndex & mask] of the three payload arrays, and
    [cycleState[offset] = writeIndex + 1]; on [false] the state is unchanged.
    With at least two slots, "not behind" is [head - tail < capacity]. *)
Theorem Enqueue_true_iff_not_full (c : Z) (rb : RingBuffer) (fuel : nat)
    (id : Z) (price : float) (qty : Z) :
  is_pow2 c -> reachable c rb ->
  exists (cycleVal : Z) (rb' : RingBuffer) (ok : bool),
    cycleState rb !! Z.to_nat (Z.land (writeIndex rb) (mask rb)) = Some cycleVal /\
    Enqueue (S fuel) rb id price qty = Returned (rb', ok) /\
    (ok = true <-> 0 <= isub64 (int64 cycleVal) (int64 (writeIndex rb))) /\
    (ok = true ->
       rb' = mkRingBuffer (capacity rb) (mask rb) (writeIndex rb + 1) (readIndex rb)
               (<[Z.to_nat (Z.land (writeIndex rb) (mask rb)) := writeIndex rb + 1]>
                  (cycleState rb))
               (<[Z.to_nat (Z.land (writeIndex rb) (mask rb)) := id]> (ids rb))
               (<[Z.to_nat (Z.land (writeIndex rb) (mask rb)) := price]> (prices rb))
               (<[Z.to_nat (Z.land (writeIndex rb) (mask rb)) := qty]> (qtys rb))) /\
    (ok = false -> rb' = rb) /\
    (2 <= c -> (ok = true <-> writeIndex rb - readIndex rb < c)).
Proof.
  intros Hp Hreach.
  destruct (reachable_inv c rb Hp Hreach) as [Hinv Hcap].
  pose proof (inv_shape rb Hinv) as Hs.
  destruct (inv_head_range rb Hinv) as [Hh Hb].
  destruct (inv_head_not_ahead rb Hinv) as (v & Hv & Hle).
  rewrite (offset_slot rb Hs).
  pose proof (Enqueue_unfold rb fuel id price qty v Hs Hh ltac:(lia) Hv Hle) as Hrun.
  assert (Hfull : 2 <= c ->
            (0 <= isub64 (int64 v) (int64 (writeIndex rb)) <->
             writeIndex rb - readIndex rb < c)).
  { intros Hc. destruct Hinv as [Hwf | Hone].
    - rewrite <- Hcap. apply wf_head_behind_iff_full; assumption.
    - pose proof (wf1_cap rb Hone). lia. }
  destruct (Z.eqb_spec (isub64 (int64 v) (int64 (writeIndex rb))) 0) as [Hz | Hnz].
  - exists v, (write_slot (slot (capacity rb) (writeIndex rb)) id price qty
                 (writeIndex rb + 1) (set_writeIndex (writeIndex rb + 1) rb)), true.
    split; [exact Hv |]. split; [exact Hrun |].
    split; [split; [lia | reflexivity] |].
    split; [reflexivity |]. split; [discriminate |].
    intros Hc. split; [intros _; apply Hfull; lia | reflexivity].
  - exists v, rb, false.
    split; [exact Hv |]. split; [exact Hrun |].
    split; [split; [discriminate | lia] |].
    split; [discriminate |]. split; [reflexivity |].
    intros Hc. split; [discriminate |]. intros Hroom. apply Hfull in Hroom; lia.
Qed.

Lemma Enqueue_true_iff_not_full_witness :
  exists (cycleVal : Z) (rb' : RingBuffer) (ok : bool),
    Enqueue 1 (mkRingBuffer 2 1 2 0 [1; 2] [7; 8] [100; 100]%float [1; 1])
      9 100%float 1 = Returned (rb', ok) /\
    (ok = true <-> 0 <= isub64 (int64 cycleVal) (int64 2)).
Proof.
  assert (Hp : is_pow2 2) by (exists 1; split; [lia | reflexivity]).
  assert (Hr : reachable 2 (mkRingBuffer 2 1 2 0 [1; 2] [7; 8] [100; 100]%float [1; 1])).
  { exists 1%nat, [OpEnqueue 7 100 1; OpEnqueue 8 100 1].
    split; vm_compute; reflexivity. }
  destruct (Enqueue_true_iff_not_full 2 _ 0 9 100%float 1 Hp Hr)
    as (v & rb' & ok & _ & Hrun & Hiff & _).
  exists v, rb', ok. split; [exact Hrun | exact Hiff].
Defined.

(** C6: scenario S1.  On a fresh buffer of capacity 4 the four records
    (1,100.0,1) ... (4,100.0,1) are accepted, a fifth Enqueue (of any record)
    returns [false] and changes nothing, four Dequeue calls then yield the ids
    1, 2, 3, 4 in that order, and a fifth Dequeue returns [false]. *)
Theorem scenario_S1 (fuel : nat) (id5 : Z) (price5 : float) (qty5 : Z) :
  exists rb1 rb2 rb3 rb4 rb5 rb6 rb7 rb8,
    Enqueue (S fuel) (Newbuffer 4) 1 100%float 1 = Returned (rb1, true) /\
    Enqueue (S fuel) rb1 2 100%float 1 = Returned (rb2, true) /\
    Enqueue (S fuel) rb2 3 100%float 1 = Returned (rb3, true) /\
    Enqueue (S fuel) rb3 4 100%float 1 = Returned (rb4, true) /\
    Enqueue (S fuel) rb4 id5 price5 qty5 = Returned (rb4, false) /\
    Dequeue (S fuel) rb4 = Returned (rb5, Some (1, 100%float, 1)) /\
    Dequeue (S fuel) rb5 = Returned (rb6, Some (2, 100%float, 1)) /\
    Dequeue (S fuel) rb6 = Returned (rb7, Some (3, 100%float, 1)) /\
    Dequeue (S fuel) rb7 = Returned (rb8, Some (4, 100%float, 1)) /\
    Dequeue (S fuel) rb8 = Returned (rb8, None).
Proof.
  exists (mkRingBuffer 4 3 1 0 [1; 1; 2; 3] [1; 0; 0; 0] [100; 0; 0; 0]%float [1; 0; 0; 0]).
  exists (mkRingBuffer 4 3 2 0 [1; 2; 2; 3] [1; 2; 0; 0] [100; 100; 0; 0]%float [1; 1; 0; 0]).
  exists (mkRingBuffer 4 3 3 0 [1; 2; 3; 3] [1; 2; 3; 0] [100; 100; 100; 0]%float [1; 1; 1; 0]).
  exists (mkRingBuffer 4 3 4 0 [1; 2; 3; 4] [1; 2; 3; 4] [100; 100; 100; 100]%float [1; 1; 1; 1]).
  exists (mkRingBuffer 4 3 4 1 [4; 2; 3; 4] [1; 2; 3; 4] [100; 100; 100; 100]%float [1; 1; 1; 1]).
  exists (mkRingBuffer 4 3 4 2 [4; 5; 3; 4] [1; 2; 3; 4] [100; 100; 100; 100]%float [1; 1; 1; 1]).
  exists (mkRingBuffer 4 3 4 3 [4; 5; 6; 4] [1; 2; 3; 4] [100; 100; 100; 100]%float [1; 1; 1; 1]).
  exists (mkRingBuffer 4 3 4 4 [4; 5; 6; 7] [1; 2; 3; 4] [100; 100; 100; 100]%float [1; 1; 1; 1]).
  repeat split; vm_compute; reflexivity.
Qed.

(** A reachable buffer whose cursors are equal has its tail slot behind
    [tail + 1]. *)
Lemma reachable_empty_tail_behind c rb :
  is_pow2 c -> reachable c rb -> readIndex rb = writeIndex rb ->
  exists v,
    cycleState rb !! Z.to_nat (Z.land (readIndex rb) (mask rb)) = Some v /\
    isub64 (int64 v) (int64 (add64 (readIndex rb) 1)) < 0.
Proof.
  intros Hp Hreach Heq.
  destruct (reachable_inv c rb Hp Hreach) as [Hinv Hcap].
  pose proof (inv_shape rb Hinv) as Hs. rewrite (offset_slot rb Hs).
  destruct Hinv as [Hwf | Hone].
  - pose proof (wf_cap2 rb Hwf). pose proof (wf_tail rb Hwf). pose proof (wf_bound rb Hwf).
    exists (readIndex rb). split.
    + apply (wf_empty rb Hwf). lia.
    + rewrite add64_small, lap_diff_small by lia. lia.
  - pose proof (wf1_tail rb Hone). pose proof (wf1_bound rb Hone).
    exists (writeIndex rb). split; [apply (wf1_cycle_at rb Hone) |].
    rewrite add64_small, lap_diff_small by lia. lia.
Qed.

Lemma Dequeue_behind rb fuel v :
  cycleState rb !! Z.to_nat (Z.land (readIndex rb) (mask rb)) = Some v ->
  isub64 (int64 v) (int64 (add64 (readIndex rb) 1)) < 0 ->
  Dequeue (S fuel) rb = Returned (rb, None).
Proof.
  intros Hv Hlt. cbn [Dequeue]. rewrite (load_Some _ _ v Hv). cbn [bind].
  destruct (Z.eqb_spec (isub64 (int64 v) (int64 (add64 (readIndex rb) 1))) 0); [lia |].
  destruct (Z.ltb_spec (isub64 (int64 v) (int64 (add64 (readIndex rb) 1))) 0);
    [reflexivity | lia].
Qed.

Lemma DequeueBatch_behind rb fuel v di dp dq :
  cycleState rb !! Z.to_nat (Z.land (readIndex rb) (mask rb)) = Some v ->
  isub64 (int64 v) (int64 (add64 (readIndex rb) 1)) < 0 ->
  DequeueBatch (S fuel) rb di dp dq = Returned (rb, (di, dp, dq), 0).
Proof.
  intros Hv Hlt. unfold DequeueBatch, DequeueBatch_attempt.
  destruct (_ =? 0); [reflexivity |].
  rewrite (load_Some _ _ v Hv). cbn [bind].
  destruct (Z.ltb_spec (isub64 (int64 v) (int64 (add64 (readIndex rb) 1))) 0);
    [reflexivity | lia].
Qed.

(** C7: whenever the cycle of the tail slot is behind [tail + 1] (as it is in
    every reachable state with [head = tail]), Dequeue returns [false] and
    DequeueBatch returns 0, both leaving the cursors, every cycle and every
    payload entry as they were, and the output buffers untouched; a second
    call does the same. *)
Theorem empty_dequeue_is_idempotent (rb : RingBuffer) (fuel : nat) (cycleVal : Z)
    (dst_ids : list Z) (dst_prices : list float) (dst_qtys : list Z) :
  cycleState rb !! Z.to_nat (Z.land (readIndex rb) (mask rb)) = Some cycleVal ->
  isub64 (int64 cycleVal) (int64 (add64 (readIndex rb) 1)) < 0 ->
  Dequeue (S fuel) rb = Returned (rb, None) /\
  (r <- Dequeue (S fuel) rb ;; Dequeue (S fuel) (fst r)) = Returned (rb, None) /\
  DequeueBatch (S fuel) rb dst_ids dst_prices dst_qtys
    = Returned (rb, (dst_ids, dst_prices, dst_qtys), 0) /\
  (r <- DequeueBatch (S fuel) rb dst_ids dst_prices dst_qtys ;;
   DequeueBatch (S fuel) (fst (fst r)) dst_ids dst_prices dst_qtys)
    = Returned (rb, (dst_ids, dst_prices, dst_qtys), 0).
Proof.
  intros Hv Hlt.
  pose proof (Dequeue_behind rb fuel cycleVal Hv Hlt) as Hd.
  pose proof (DequeueBatch_behind rb fuel cycleVal dst_ids dst_prices dst_qtys Hv Hlt) as Hb.
  split; [exact Hd |]. split; [rewrite Hd; cbn [bind fst]; exact Hd |].
  split; [exact Hb |]. rewrite Hb. cbn [bind fst]. exact Hb.
Qed.

Lemma empty_dequeue_is_idempotent_witness :
  reachable 4 (mkRingBuffer 4 3 1 1 [4; 1; 2; 3] [5; 0; 0; 0] [100; 0; 0; 0]%float [1; 0; 0; 0]) /\
  Dequeue 1 (mkRingBuffer 4 3 1 1 [4; 1; 2; 3] [5; 0; 0; 0] [100; 0; 0; 0]%float [1; 0; 0; 0])
    = Returned (mkRingBuffer 4 3 1 1 [4; 1; 2; 3] [5; 0; 0; 0] [100; 0; 0; 0]%float [1; 0; 0; 0],
                None).
Proof.
  split.
  - exists 1%nat, [OpEnqueue 5 100 1; OpDequeue]. split; vm_compute; reflexivity.
  - refine (proj1 (empty_dequeue_is_idempotent _ 0 1 [0; 0] [0; 0]%float [0; 0] _ _)).
    + vm_compute. reflexivity.
    + vm_compute. reflexivity.
Defined.

(** C8: in every reachable state of a buffer of power-of-two capacity,
    EnqueueBatch with no ids and DequeueBatch with no ids return 0 and leave
    the cursors, every cycle and every payload entry as they were. *)
Theorem empty_batch_is_noop (c : Z) (rb : RingBuffer) (fuel : nat)
    (b : list float) (c0 : list Z) :
  is_pow2 c -> reachable c rb ->
  EnqueueBatch (S fuel) rb [] b c0 = Returned (rb, 0) /\
  DequeueBatch fuel rb [] b c0 = Returned (rb, ([], b, c0), 0).
Proof.
  intros Hp Hreach.
  destruct (reachable_inv c rb Hp Hreach) as [Hinv Hcap].
  destruct (inv_head_range rb Hinv) as [Hh Hb].
  destruct (inv_head_not_ahead rb Hinv) as (v & Hv & Hle).
  split; [| reflexivity].
  apply (EnqueueBatch_nil rb fuel b c0 v); [apply inv_shape; exact Hinv | lia | exact Hv | exact Hle].
Qed.

Lemma empty_batch_is_noop_witness :
  EnqueueBatch 1 (mkRingBuffer 2 1 2 0 [1; 2] [7; 8] [100; 100]%float [1; 1]) [] [] []
    = Returned (mkRingBuffer 2 1 2 0 [1; 2] [7; 8] [100; 100]%float [1; 1], 0) /\
  DequeueBatch 0 (mkRingBuffer 2 1 2 0 [1; 2] [7; 8] [100; 100]%float [1; 1]) [] [] []
    = Returned (mkRingBuffer 2 1 2 0 [1; 2] [7; 8] [100; 100]%float [1; 1], ([], [], []), 0).
Proof.
  apply (empty_batch_is_noop 2 _ 0 [] []).
  - exists 1. split; [lia | reflexivity].
  - exists 1%nat, [OpEnqueue 7 100 1; OpEnqueue 8 100 1]. split; vm_compute; reflexivity.
Defined.

Lemma inv_wf rb : inv rb -> 2 <= capacity rb -> wf rb.
Proof. intros [H | H] Hc; [exact H | pose proof (wf1_cap rb H); lia]. Qed.

(** C4 (as stated) fails for capacity 1: after two Enqueue calls on a fresh
    single-slot buffer, a DequeueBatch of one record advances the tail cursor
    and then waits without end for a cycle value that no longer comes; it
    returns neither 1 nor 0. *)
Lemma DequeueBatch_single_slot_spins :
  run 1 [OpEnqueue 1 100 1; OpEnqueue 2 100 1] (Newbuffer 1)
    = Returned (mkRingBuffer 1 0 2 0 [2] [2] [100]%float [1]) /\
  (1 <= length [0] <= 1)%nat /\
  forall fuel : nat,
    DequeueBatch (S fuel) (mkRingBuffer 1 0 2 0 [2] [2] [100]%float [1])
      [0] [0%float] [0] = Spinning.
Proof.
  split; [vm_compute; reflexivity |]. split; [cbn; lia |].
  assert (Hwait : forall fuel : nat,
            await_published fuel (mkRingBuffer 1 0 2 1 [2] [2] [100]%float [1]) 0 0
              = Spinning).
  { induction fuel as [| fuel IH]; [reflexivity |].
    cbn [await_published]. exact IH. }
  intros fuel. specialize (Hwait (S fuel)).
  change (DequeueBatch (S fuel) (mkRingBuffer 1 0 2 0 [2] [2] [100]%float [1])
            [0] [0%float] [0])
    with (r <- (_ <- await_published (S fuel)
                       (mkRingBuffer 1 0 2 1 [2] [2] [100]%float [1]) 0 0 ;;
                Returned (mkRingBuffer 1 0 2 1 [1] [2] [100]%float [1],
                          ([2], [100%float], [1]))) ;;
          Returned (r, 1)).
  rewrite Hwait. reflexivity.
Qed.

(** C4 (as amended): on a buffer of power-of-two capacity at least 2, in every
    reachable state, a batch of [n] records with [1 <= n <= capacity] (three
    slices of length [n]) is written whole or not at all.  EnqueueBatch
    returns [n], with the records at the cursor positions [head, ...,
    head + n - 1], each slot's cycle published and nothing else changed, when
    [head + n <= tail + capacity]; otherwise it returns 0 with the state
    unchanged.  DequeueBatch returns [n], with the output buffers holding the
    records of the positions [tail, ..., tail + n - 1] in that order and each
    slot released, when [tail + n <= head]; otherwise it returns 0 with the
    state and the output buffers unchanged. *)
Theorem batch_all_or_nothing (c : Z) (rb : RingBuffer) (fuel : nat)
    (xs : list Z) (ps : list float) (qs : list Z) :
  is_pow2 c -> 2 <= c -> reachable c rb ->
  (1 <= length xs)%nat -> Z.of_nat (length xs) <= c ->
  length ps = length xs -> length qs = length xs ->
  ((writeIndex rb + Z.of_nat (length xs) <= readIndex rb + c /\
    exists rb',
      EnqueueBatch (S fuel) rb xs ps qs = Returned (rb', Z.of_nat (length xs)) /\
      enqueued xs ps qs rb rb') \/
   (readIndex rb + c < writeIndex rb + Z.of_nat (length xs) /\
    EnqueueBatch (S fuel) rb xs ps qs = Returned (rb, 0))) /\
  ((readIndex rb + Z.of_nat (length xs) <= writeIndex rb /\
    exists rb' xs' ps' qs',
      DequeueBatch (S fuel) rb xs ps qs
        = Returned (rb', (xs', ps', qs'), Z.of_nat (length xs)) /\
      dequeued (length xs) rb rb' /\
      length xs' = length xs /\ length ps' = length xs /\ length qs' = length xs /\
      forall j : nat, (j < length xs)%nat ->
        xs' !! j = ids rb !! slot c (readIndex rb + Z.of_nat j) /\
        ps' !! j = prices rb !! slot c (readIndex rb + Z.of_nat j) /\
        qs' !! j = qtys rb !! slot c (readIndex rb + Z.of_nat j)) \/
   (writeIndex rb < readIndex rb + Z.of_nat (length xs) /\
    DequeueBatch (S fuel) rb xs ps qs = Returned (rb, (xs, ps, qs), 0))).
Proof.
  intros Hp Hc Hreach Hn Hnc Hps Hqs.
  destruct (reachable_inv c rb Hp Hreach) as [Hinv Hcap].
  assert (Hwf : wf rb) by (apply inv_wf; [exact Hinv | lia]).
  pose proof (wf_tail rb Hwf) as Ht. pose proof (wf_bound rb Hwf) as Hb.
  rewrite Hcap in Hb.
  split.
  - assert (Hun := EnqueueBatch_wf_unfold rb Hwf fuel xs ps qs Hn ltac:(lia)).
    rewrite Hcap in Hun.
    destruct (Z.leb_spec (writeIndex rb + Z.of_nat (length xs)) (readIndex rb + c))
      as [Hroom | Hfull]; [left | right; split; [lia | exact Hun]].
    split; [exact Hroom |].
    change 0 with (Z.of_nat 0) in Hun.
    destruct (EnqueueBatch_copy_total xs ps qs (writeIndex rb) (length xs) 0
                (set_writeIndex (writeIndex rb + Z.of_nat (length xs)) rb))
      as [rb' Hcopy];
      [apply shape_set_writeIndex, (wf_shape rb Hwf) | cbn [Nat.add]; lia ..|].
    rewrite Hcopy in Hun. cbn [bind] in Hun.
    exists rb'. split; [exact Hun |].
    apply EnqueueBatch_copy_enqueued; [exact (wf_shape rb Hwf) | lia | lia | lia |].
    exact Hcopy.
  - destruct (DequeueBatch_wf_total rb Hwf fuel xs ps qs)
      as ([[rb' [[xs' ps'] qs']] r] & Hrun); [lia | lia | lia |].
    pose proof Hrun as Hcase.
    apply (DequeueBatch_wf_returned rb Hwf) in Hcase
      as [(-> & -> & -> & -> & ->) | (-> & _ & Havail & D & (L1 & L2 & L3) & Hout & _)];
      [| | lia].
    + right. split; [| exact Hrun].
      rewrite (DequeueBatch_wf_unfold rb Hwf fuel) in Hrun by lia.
      destruct (Z.leb_spec (readIndex rb + Z.of_nat (length xs)) (writeIndex rb));
        [| lia].
      apply bind_Returned in Hrun as (r & _ & Hret). injection Hret as _ Hz. lia.
    + left. split; [exact Havail |]. exists rb', xs', ps', qs'.
      rewrite <- Hcap.
      split; [exact Hrun |]. split; [exact D |].
      split; [exact L1 |]. split; [lia |]. split; [lia |]. exact Hout.
Qed.

Lemma batch_all_or_nothing_witness :
  reachable 4 (mkRingBuffer 4 3 2 1 [4; 2; 2; 3] [7; 8; 0; 0] [100; 100; 0; 0]%float
                 [1; 1; 0; 0]) /\
  (1 <= length [1; 2; 3])%nat /\ Z.of_nat (length [1; 2; 3]) <= 4 /\
  exists rb',
    EnqueueBatch 1 (mkRingBuffer 4 3 2 1 [4; 2; 2; 3] [7; 8; 0; 0] [100; 100; 0; 0]%float
                      [1; 1; 0; 0])
      [1; 2; 3] [100; 100; 100]%float [1; 1; 1] = Returned (rb', 3).
Proof.
  assert (Hr : reachable 4 (mkRingBuffer 4 3 2 1 [4; 2; 2; 3] [7; 8; 0; 0]
                              [100; 100; 0; 0]%float [1; 1; 0; 0])).
  { exists 1%nat, [OpEnqueue 7 100 1; OpEnqueue 8 100 1; OpDequeue].
    split; vm_compute; reflexivity. }
  split; [exact Hr |]. split; [cbn; lia |]. split; [cbn; lia |].
  destruct (batch_all_or_nothing 4 _ 0 [1; 2; 3] [100; 100; 100]%float [1; 1; 1]
              ltac:(exists 2; split; [lia | reflexivity]) ltac:(lia) Hr
              ltac:(cbn; lia) ltac:(cbn; lia) eq_refl eq_refl)
    as [[(_ & rb' & Hrun & _) | (Hfull & _)] _].
  - exists rb'. exact Hrun.
  - exfalso. cbn in Hfull. lia.
Defined.

(** * The batch length is the length of [ids] *)

Lemma EnqueueBatch_returns_count fuel rb a b c0 rb' r :
  EnqueueBatch fuel rb a b c0 = Returned (rb', r) ->
  r = 0 \/ r = Z.of_nat (length a).
Proof.
  induction fuel as [| fuel IH]; cbn [EnqueueBatch]; [discriminate |].
  intros Hrun. apply bind_Returned in Hrun as (v & _ & Hrun).
  destruct (_ <? 0); [injection Hrun as _ <-; left; reflexivity |].
  destruct (_ =? 0); [| exact (IH Hrun)].
  apply bind_Returned in Hrun as (w & _ & Hrun).
  destruct (_ <? 0); [injection Hrun as _ <-; left; reflexivity |].
  apply bind_Returned in Hrun as (rb1 & _ & Hrun).
  injection Hrun as _ <-. right. reflexivity.
Qed.

Lemma DequeueBatch_returns_limit fuel rb di dp dq rb' outs r :
  DequeueBatch fuel rb di dp dq = Returned (rb', outs, r) ->
  r = 0 \/ r = Z.of_nat (length di).
Proof.
  unfold DequeueBatch, DequeueBatch_attempt.
  destruct (_ =? 0); [intros [= _ _ <-]; left; reflexivity |].
  destruct fuel as [| fuel]; [discriminate |].
  intros Hrun. apply bind_Returned in Hrun as (v & _ & Hrun).
  destruct (_ <? 0); [injection Hrun as _ _ <-; left; reflexivity |].
  apply bind_Returned in Hrun as (w & _ & Hrun).
  destruct (_ <? 0); [injection Hrun as _ _ <-; left; reflexivity |].
  apply bind_Returned in Hrun as (r1 & _ & Hrun).
  injection Hrun as _ <-. right. reflexivity.
Qed.

Lemma load_take {A : Type} (s : list A) (n i : nat) :
  (i < n)%nat -> load (take n s) (Z.of_nat i) = load s (Z.of_nat i).
Proof. intros Hi. unfold load. rewrite Nat2Z.id, lookup_take_lt by exact Hi. reflexivity. Qed.

Lemma EnqueueBatch_copy_take a b c0 head n :
  forall (todo i : nat) (rb : RingBuffer),
    (i + todo <= n)%nat ->
    EnqueueBatch_copy todo (Z.of_nat i) head rb a b c0 =
    EnqueueBatch_copy todo (Z.of_nat i) head rb a (take n b) (take n c0).
Proof.
  induction todo as [| todo IH]; intros i rb Hi; cbn [EnqueueBatch_copy]; [reflexivity |].
  rewrite !load_take by lia.
  destruct (load a (Z.of_nat i)) as [id | |]; cbn [bind]; try reflexivity.
  destruct (load b (Z.of_nat i)) as [price | |]; cbn [bind]; try reflexivity.
  destruct (load c0 (Z.of_nat i)) as [qty | |]; cbn [bind]; try reflexivity.
  destruct (store_payload _ id price qty rb) as [rb1 | |]; cbn [bind]; try reflexivity.
  destruct (store_cycle _ _ rb1) as [rb2 | |]; cbn [bind]; try reflexivity.
  replace (Z.of_nat i + 1) with (Z.of_nat (S i)) by lia.
  apply IH. lia.
Qed.

(** Entries of [prices] and [qtys] past [len(ids)] are never read. *)
Lemma EnqueueBatch_take fuel rb a b c0 :
  EnqueueBatch fuel rb a b c0 =
  EnqueueBatch fuel rb a (take (length a) b) (take (length a) c0).
Proof.
  induction fuel as [| fuel IH]; cbn [EnqueueBatch]; [reflexivity |].
  destruct (load _ _) as [v | |]; cbn [bind]; try reflexivity.
  destruct (_ <? 0); [reflexivity |].
  destruct (_ =? 0); [| exact IH].
  destruct (load _ _) as [w | |]; cbn [bind]; try reflexivity.
  destruct (_ <? 0); [reflexivity |].
  rewrite Nat2Z.id. change 0 with (Z.of_nat 0).
  rewrite (EnqueueBatch_copy_take a b c0 _ (length a)) by (cbn [Nat.add]; lia).
  reflexivity.
Qed.

(** * One goroutine alone computes what the sequential functions compute *)

Lemma solo_next n rb f rb1 f1 x :
  frame_step rb f = Returned (rb1, inl f1) ->
  solo n rb1 f1 = Returned x ->
  solo (S n) rb f = Returned x.
Proof. intros Hstep Hrest. cbn [solo]. rewrite Hstep. exact Hrest. Qed.

Lemma solo_last n rb f rb1 a :
  frame_step rb f = Returned (rb1, inr a) ->
  solo (S n) rb f = Returned (rb1, a).
Proof. intros Hstep. cbn [solo]. rewrite Hstep. reflexivity. Qed.

Ltac run_step_cbn :=
  cbn [frame_step Enqueue_step Dequeue_step EnqueueBatch_step DequeueBatch_step
       bind fst snd capacity mask writeIndex readIndex cycleState ids prices qtys
       set_writeIndex set_readIndex set_cycleState set_ids set_prices set_qtys].

Ltac run_step := run_step_cbn; try (unfold store_cycle; run_step_cbn).

Ltac run_step_in H :=
  cbn [bind fst snd capacity mask writeIndex readIndex cycleState ids prices qtys
       set_writeIndex set_readIndex set_cycleState set_ids set_prices set_qtys] in H.

Lemma solo_Enqueue fuel rb id price qty rb' ok :
  Enqueue fuel rb id price qty = Returned (rb', ok) ->
  exists n, solo n rb (InEnqueue id price qty EnqLoadHead) = Returned (rb', AnsEnqueue ok).
Proof.
  induction fuel as [| fuel IH]; cbn [Enqueue]; [discriminate |].
  intros Hrun. apply bind_Returned in Hrun as (v & Hv & Hrun).
  destruct (Z.eqb_spec (isub64 (int64 v) (int64 (writeIndex rb))) 0) as [Hz | Hnz].
  - unfold store_payload, store_cycle in Hrun.
    apply bind_Returned in Hrun as (rb1 & Hpay & Hrun).
    apply bind_Returned in Hpay as (a & Ha & Hpay).
    apply bind_Returned in Hpay as (b & Hb & Hpay).
    apply bind_Returned in Hpay as (c & Hc & Hpay).
    injection Hpay as <-.
    apply bind_Returned in Hrun as (rb2 & Hcyc & Hrun).
    apply bind_Returned in Hcyc as (cs & Hcs & Hcyc).
    injection Hcyc as <-. injection Hrun as <- <-.
    run_step_in Ha. run_step_in Hb. run_step_in Hc. run_step_in Hcs.
    exists 7%nat.
    eapply solo_next; [reflexivity |].
    eapply solo_next; [run_step; rewrite Hv; run_step; rewrite Hz; reflexivity |].
    eapply solo_next; [run_step; rewrite Z.eqb_refl; reflexivity |].
    eapply solo_next; [run_step; rewrite Ha; reflexivity |].
    eapply solo_next; [run_step; rewrite Hb; reflexivity |].
    eapply solo_next; [run_step; rewrite Hc; reflexivity |].
    eapply solo_last. run_step. rewrite Hcs. reflexivity.
  - destruct (Z.ltb_spec (isub64 (int64 v) (int64 (writeIndex rb))) 0) as [Hlt | Hge].
    + injection Hrun as <- <-. exists 2%nat.
      eapply solo_next; [reflexivity |].
      eapply solo_last. run_step. rewrite Hv. run_step.
      destruct (Z.eqb_spec (isub64 (int64 v) (int64 (writeIndex rb))) 0); [lia |].
      destruct (Z.ltb_spec (isub64 (int64 v) (int64 (writeIndex rb))) 0); [reflexivity | lia].
    + destruct (IH Hrun) as [n Hn]. exists (S (S n)).
      eapply solo_next; [reflexivity |].
      eapply solo_next; [| exact Hn].
      run_step. rewrite Hv. run_step.
      destruct (Z.eqb_spec (isub64 (int64 v) (int64 (writeIndex rb))) 0); [lia |].
      destruct (Z.ltb_spec (isub64 (int64 v) (int64 (writeIndex rb))) 0); [lia | reflexivity].
Qed.

Lemma solo_Dequeue fuel rb rb' r :
  Dequeue fuel rb = Returned (rb', r) ->
  exists n, solo n rb (InDequeue DeqLoadTail) = Returned (rb', AnsDequeue r).
Proof.
  induction fuel as [| fuel IH]; cbn [Dequeue]; [discriminate |].
  intros Hrun. apply bind_Returned in Hrun as (v & Hv & Hrun).
  set (d := isub64 (int64 v) (int64 (add64 (readIndex rb) 1))) in *.
  destruct (Z.eqb_spec d 0) as [Hz | Hnz].
  - apply bind_Returned in Hrun as (id & Hid & Hrun).
    apply bind_Returned in Hrun as (price & Hprice & Hrun).
    apply bind_Returned in Hrun as (qty & Hqty & Hrun).
    unfold store_cycle in Hrun.
    apply bind_Returned in Hrun as (rb2 & Hcyc & Hrun).
    apply bind_Returned in Hcyc as (cs & Hcs & Hcyc).
    injection Hcyc as <-. injection Hrun as <- <-.
    run_step_in Hid. run_step_in Hprice. run_step_in Hqty. run_step_in Hcs.
    exists 7%nat.
    eapply solo_next; [reflexivity |].
    eapply solo_next; [run_step; rewrite Hv; run_step; fold d; rewrite Hz; reflexivity |].
    eapply solo_next; [run_step; rewrite Z.eqb_refl; reflexivity |].
    eapply solo_next; [run_step; rewrite Hid; reflexivity |].
    eapply solo_next; [run_step; rewrite Hprice; reflexivity |].
    eapply solo_next; [run_step; rewrite Hqty; reflexivity |].
    eapply solo_last. run_step. rewrite Hcs. reflexivity.
  - destruct (Z.ltb_spec d 0) as [Hlt | Hge].
    + injection Hrun as <- <-. exists 2%nat.
      eapply solo_next; [reflexivity |].
      eapply solo_last. run_step. rewrite Hv. run_step. fold d.
      destruct (Z.eqb_spec d 0); [lia |].
      destruct (Z.ltb_spec d 0); [reflexivity | lia].
    + destruct (IH Hrun) as [n Hn]. exists (S (S n)).
      eapply solo_next; [reflexivity |].
      eapply solo_next; [| exact Hn].
      run_step. rewrite Hv. run_step. fold d.
      destruct (Z.eqb_spec d 0); [lia |].
      destruct (Z.ltb_spec d 0); [lia | reflexivity].
Qed.

Lemma solo_EnqueueBatch_copy a b c head :
  forall (todo i : nat) (rb rb' : RingBuffer),
    EnqueueBatch_copy todo (Z.of_nat i) head rb a b c = Returned rb' ->
    (i + todo = length a)%nat ->
    exists n,
      match eb_loop (Z.of_nat (length a)) head (Z.of_nat i) with
      | inl p => solo n rb (InEnqueueBatch a b c p)
      | inr k => Returned (rb, AnsEnqueueBatch k)
      end = Returned (rb', AnsEnqueueBatch (Z.of_nat (length a))).
Proof.
  induction todo as [| todo IH]; intros i rb rb' Hrun Hlen; cbn [EnqueueBatch_copy] in Hrun.
  - injection Hrun as <-. exists 0%nat. unfold eb_loop.
    destruct (Z.ltb_spec (Z.of_nat i) (Z.of_nat (length a))); [lia | reflexivity].
  - apply bind_Returned in Hrun as (id & Hid & Hrun).
    apply bind_Returned in Hrun as (price & Hprice & Hrun).
    apply bind_Returned in Hrun as (qty & Hqty & Hrun).
    apply bind_Returned in Hrun as (rb1 & Hpay & Hrun).
    unfold store_payload in Hpay.
    apply bind_Returned in Hpay as (a1 & Ha & Hpay).
    apply bind_Returned in Hpay as (b1 & Hb & Hpay).
    apply bind_Returned in Hpay as (c1 & Hc & Hpay).
    injection Hpay as <-.
    apply bind_Returned in Hrun as (rb2 & Hcyc & Hrun).
    unfold store_cycle in Hcyc.
    apply bind_Returned in Hcyc as (cs & Hcs & Hcyc).
    injection Hcyc as <-.
    run_step_in Hcs.
    replace (Z.of_nat i + 1) with (Z.of_nat (S i)) in Hrun by lia.
    apply IH in Hrun as [m Hm]; [| lia].
    exists (S (S (S (S m)))). unfold eb_loop at 1.
    destruct (Z.ltb_spec (Z.of_nat i) (Z.of_nat (length a))); [| lia].
    eapply solo_next; [run_step; rewrite Hid; run_step; rewrite Ha; reflexivity |].
    eapply solo_next; [run_step; rewrite Hprice; run_step; rewrite Hb; reflexivity |].
    eapply solo_next; [run_step; rewrite Hqty; run_step; rewrite Hc; reflexivity |].
    cbn [solo]. run_step. rewrite Hcs. run_step.
    replace (Z.of_nat i + 1) with (Z.of_nat (S i)) by lia.
    destruct (eb_loop (Z.of_nat (length a)) head (Z.of_nat (S i))); exact Hm.
Qed.

Lemma solo_EnqueueBatch fuel rb a b c rb' r :
  EnqueueBatch fuel rb a b c = Returned (rb', r) ->
  exists n, solo n rb (InEnqueueBatch a b c EbLoadHead) = Returned (rb', AnsEnqueueBatch r).
Proof.
  induction fuel as [| fuel IH]; cbn [EnqueueBatch]; [discriminate |].
  intros Hrun. apply bind_Returned in Hrun as (v & Hv & Hrun).
  set (d := isub64 (int64 v) (int64 (writeIndex rb))) in *.
  destruct (Z.ltb_spec d 0) as [Hlt | Hge].
  - injection Hrun as <- <-. exists 2%nat.
    eapply solo_next; [reflexivity |].
    eapply solo_last. run_step. rewrite Hv. run_step. fold d.
    destruct (Z.ltb_spec d 0); [reflexivity | lia].
  - destruct (Z.eqb_spec d 0) as [Hz | Hnz].
    + apply bind_Returned in Hrun as (w & Hw & Hrun).
      set (e := isub64 (int64 w) _) in *.
      destruct (Z.ltb_spec e 0) as [Hlt' | Hge'].
      * injection Hrun as <- <-. exists 3%nat.
        eapply solo_next; [reflexivity |].
        eapply solo_next;
          [run_step; rewrite Hv; run_step; fold d;
           destruct (Z.ltb_spec d 0); [lia |];
           destruct (Z.eqb_spec d 0); [reflexivity | lia] |].
        eapply solo_last. run_step. rewrite Hw. run_step. fold e.
        destruct (Z.ltb_spec e 0); [reflexivity | lia].
      * apply bind_Returned in Hrun as (rb1 & Hcopy & Hrun).
        injection Hrun as <- <-.
        rewrite Nat2Z.id in Hcopy. change 0 with (Z.of_nat 0) in Hcopy.
        apply solo_EnqueueBatch_copy in Hcopy as [m Hm]; [| reflexivity].
        exists (S (S (S (S m)))).
        eapply solo_next; [reflexivity |].
        eapply solo_next;
          [run_step; rewrite Hv; run_step; fold d;
           destruct (Z.ltb_spec d 0); [lia |];
           destruct (Z.eqb_spec d 0); [reflexivity | lia] |].
        eapply solo_next;
          [run_step; rewrite Hw; run_step; fold e;
           destruct (Z.ltb_spec e 0); [lia | reflexivity] |].
        cbn [solo]. run_step. rewrite Z.eqb_refl. run_step.
        change (Z.of_nat 0) with 0 in Hm.
        destruct (eb_loop (Z.of_nat (length a)) (writeIndex rb) 0); exact Hm.
    + destruct (IH Hrun) as [n Hn]. exists (S (S n)).
      eapply solo_next; [reflexivity |].
      eapply solo_next; [| exact Hn].
      run_step. rewrite Hv. run_step. fold d.
      destruct (Z.ltb_spec d 0); [lia |].
      destruct (Z.eqb_spec d 0); [lia | reflexivity].
Qed.

Lemma await_published_Returned fuel rb off idx :
  await_published fuel rb off idx = Returned tt ->
  load (cycleState rb) off = Returned (add64 idx 1).
Proof.
  induction fuel as [| fuel IH]; cbn [await_published]; [discriminate |].
  intros Hrun. apply bind_Returned in Hrun as (v & Hv & Hrun).
  destruct (Z.eqb_spec v (add64 idx 1)) as [-> | Hne]; [exact Hv | auto].
Qed.

Lemma solo_DequeueBatch_copy fuel tail limit :
  forall (todo i : nat) (rb : RingBuffer) (di : list Z) (dp : list float) (dq : list Z)
         (rb' : RingBuffer) (outs' : out_buffers),
    DequeueBatch_copy fuel todo (Z.of_nat i) tail rb di dp dq = Returned (rb', outs') ->
    Z.of_nat (i + todo) = limit ->
    exists n,
      match db_loop limit tail (Z.of_nat i) (di, dp, dq) with
      | inl p => solo n rb (InDequeueBatch limit p)
      | inr (k, outs) => Returned (rb, AnsDequeueBatch k outs)
      end = Returned (rb', AnsDequeueBatch limit outs').
Proof.
  induction todo as [| todo IH]; intros i rb di dp dq rb' outs' Hrun Hlen;
    cbn [DequeueBatch_copy] in Hrun.
  - injection Hrun as <- <-. exists 0%nat. unfold db_loop.
    destruct (Z.ltb_spec (Z.of_nat i) limit); [lia | reflexivity].
  - apply bind_Returned in Hrun as ([] & Hw & Hrun).
    apply await_published_Returned in Hw.
    apply bind_Returned in Hrun as (id & Hid & Hrun).
    apply bind_Returned in Hrun as (di1 & Hdi & Hrun).
    apply bind_Returned in Hrun as (price & Hprice & Hrun).
    apply bind_Returned in Hrun as (dp1 & Hdp & Hrun).
    apply bind_Returned in Hrun as (qty & Hqty & Hrun).
    apply bind_Returned in Hrun as (dq1 & Hdq & Hrun).
    apply bind_Returned in Hrun as (rb2 & Hcyc & Hrun).
    unfold store_cycle in Hcyc.
    apply bind_Returned in Hcyc as (cs & Hcs & Hcyc).
    injection Hcyc as <-.
    replace (Z.of_nat i + 1) with (Z.of_nat (S i)) in Hrun by lia.
    apply IH in Hrun as [m Hm]; [| lia].
    exists (S (S (S (S (S m))))). unfold db_loop at 1.
    destruct (Z.ltb_spec (Z.of_nat i) limit); [| lia].
    eapply solo_next;
      [run_step; rewrite Hw; run_step; rewrite Z.eqb_refl; reflexivity |].
    eapply solo_next; [run_step; rewrite Hid; run_step; rewrite Hdi; reflexivity |].
    eapply solo_next; [run_step; rewrite Hprice; run_step; rewrite Hdp; reflexivity |].
    eapply solo_next; [run_step; rewrite Hqty; run_step; rewrite Hdq; reflexivity |].
    cbn [solo]. run_step. rewrite Hcs. run_step.
    replace (Z.of_nat i + 1) with (Z.of_nat (S i)) by lia.
    destruct (db_loop limit tail (Z.of_nat (S i)) (di1, dp1, dq1)) as [p | [k outs]];
      exact Hm.
Qed.

Lemma solo_DequeueBatch fuel rb di dp dq rb' outs' r :
  DequeueBatch fuel rb di dp dq = Returned (rb', outs', r) ->
  exists n,
    solo n rb (InDequeueBatch (Z.of_nat (length di)) (DbLoadTail (di, dp, dq)))
      = Returned (rb', AnsDequeueBatch r outs').
Proof.
  unfold DequeueBatch. set (limit := Z.of_nat (length di)).
  destruct (Z.eqb_spec limit 0) as [Hz | Hnz].
  - intros [= <- <- <-]. exists 1%nat.
    eapply solo_last. run_step. rewrite (proj2 (Z.eqb_eq limit 0) Hz). reflexivity.
  - destruct fuel as [| fuel]; [discriminate |].
    unfold DequeueBatch_attempt. intros Hrun.
    apply bind_Returned in Hrun as (v & Hv & Hrun).
    set (d := isub64 (int64 v) _) in *.
    assert (Hstart : frame_step rb (InDequeueBatch limit (DbLoadTail (di, dp, dq)))
              = Returned (rb, inl (InDequeueBatch limit
                                     (DbLoadCycle (readIndex rb) (di, dp, dq))))).
    { run_step. destruct (Z.eqb_spec limit 0); [lia | reflexivity]. }
    destruct (Z.ltb_spec d 0) as [Hlt | Hge].
    + injection Hrun as <- <- <-. exists 2%nat.
      eapply solo_next; [exact Hstart |].
      eapply solo_last. run_step. rewrite Hv. run_step. fold d.
      destruct (Z.ltb_spec d 0); [reflexivity | lia].
    + apply bind_Returned in Hrun as (w & Hw & Hrun).
      set (e := isub64 (int64 w) _) in *.
      destruct (Z.ltb_spec e 0) as [Hlt' | Hge'].
      * injection Hrun as <- <- <-. exists 3%nat.
        eapply solo_next; [exact Hstart |].
        eapply solo_next;
          [run_step; rewrite Hv; run_step; fold d;
           destruct (Z.ltb_spec d 0); [lia | reflexivity] |].
        eapply solo_last. run_step. rewrite Hw. run_step. fold e.
        destruct (Z.ltb_spec e 0); [reflexivity | lia].
      * apply bind_Returned in Hrun as ([rb1 outs1] & Hcopy & Hrun).
        injection Hrun as <- <- <-.
        change 0 with (Z.of_nat 0) in Hcopy.
        apply (solo_DequeueBatch_copy _ _ limit) in Hcopy as [m Hm];
          [| cbn [Nat.add]; unfold limit; lia].
        exists (S (S (S (S m)))).
        eapply solo_next; [exact Hstart |].
        eapply solo_next;
          [run_step; rewrite Hv; run_step; fold d;
           destruct (Z.ltb_spec d 0); [lia | reflexivity] |].
        eapply solo_next;
          [run_step; rewrite Hw; run_step; fold e;
           destruct (Z.ltb_spec e 0); [lia | reflexivity] |].
        cbn [solo]. run_step. rewrite Z.eqb_refl. run_step.
        change (Z.of_nat 0) with 0 in Hm.
        destruct (db_loop limit (readIndex rb) 0 (di, dp, dq)) as [p | [k outs]];
          exact Hm.
Qed.

(** Whatever a call returns in the sequential model, a goroutine that runs
    the same call alone, access by access, returns as well. *)
Theorem solo_agrees_with_sequential (fuel : nat) (rb rb' : RingBuffer) :
  (forall id price qty ok,
     Enqueue fuel rb id price qty = Returned (rb', ok) ->
     exists n, solo n rb (enter (CallEnqueue id price qty))
               = Returned (rb', AnsEnqueue ok)) /\
  (forall r,
     Dequeue fuel rb = Returned (rb', r) ->
     exists n, solo n rb (enter CallDequeue) = Returned (rb', AnsDequeue r)) /\
  (forall a b c r,
     EnqueueBatch fuel rb a b c = Returned (rb', r) ->
     exists n, solo n rb (enter (CallEnqueueBatch a b c))
               = Returned (rb', AnsEnqueueBatch r)) /\
  (forall a b c outs r,
     DequeueBatch fuel rb a b c = Returned (rb', outs, r) ->
     exists n, solo n rb (enter (CallDequeueBatch a b c))
               = Returned (rb', AnsDequeueBatch r outs)).
Proof.
  split; [| split; [| split]].
  - intros id price qty ok. apply solo_Enqueue.
  - intros r. apply solo_Dequeue.
  - intros a b c r. apply solo_EnqueueBatch.
  - intros a b c outs r. apply solo_DequeueBatch.
Qed.

(** C10 does not hold of the code.  EnqueueBatch looks at the cycle of the
    first and of the last slot of the range it reserves and then writes every
    slot of the range, while a consumer that has won the compare-and-swap for
    a slot in between may not have read it yet (DequeueBatch, on its side,
    waits for each slot before it reads).  In the interleaving
    [lossy_schedule], one producer enqueues the records 1 to 8 with four
    Enqueue calls and one EnqueueBatch call, all accepted; two consumers call
    Dequeue until it answers [false]; every goroutine finishes; the buffer
    answers "empty"; and the consumers have received 1, 3, 4, 5 and 6: record
    2 was overwritten before it was read, and records 7 and 8 stay behind a
    slot whose cycle went backwards. *)
Theorem interleaving_loses_records :
  exists final : system,
    exec lossy_schedule lossy_start = Returned final /\
    quiescent final /\
    map (fun th => last (history th)) (threads final) =
      [Some (CallEnqueueBatch [5; 6; 7; 8] [100; 100; 100; 100]%float [1; 1; 1; 1],
             AnsEnqueueBatch 4);
       Some (CallDequeue, AnsDequeue None);
       Some (CallDequeue, AnsDequeue None)] /\
    Dequeue 1 (buffer final) = Returned (buffer final, None) /\
    all_accepted final = [1; 2; 3; 4; 5; 6; 7; 8] /\
    all_delivered final = [1; 3; 4; 5; 6] /\
    ~ Permutation (all_delivered final) (all_accepted final).
Proof.
  eexists. split; [vm_compute; reflexivity |].
  split; [repeat constructor |].
  split; [reflexivity |].
  split; [vm_compute; reflexivity |].
  split; [reflexivity |].
  split; [reflexivity |].
  intros Hperm. apply Permutation_length in Hperm. discriminate Hperm.
Qed.

(** * The lengths a batch call reads *)

Lemma enqueued_nil b c0 rb : enqueued [] b c0 rb rb.
Proof.
  constructor; try reflexivity.
  - cbn [length Z.of_nat]. lia.
  - intros j Hj. cbn in Hj. lia.
  - intros s _. repeat split; reflexivity.
Qed.

Lemma dequeued_zero rb : dequeued 0 rb rb.
Proof.
  constructor; try reflexivity.
  - cbn [Z.of_nat]. lia.
  - intros j Hj. lia.
Qed.

(** C9 (as stated) fails for capacity 1: after two Enqueue calls on a fresh
    single-slot buffer, a DequeueBatch of one record whose [prices] and [qtys]
    are empty passes both checks and reserves (its fourth step moves the tail
    cursor), and then waits at line 146 for ever; it never indexes [prices] or
    [qtys] and does not panic. *)
Lemma DequeueBatch_single_slot_indexes_nothing :
  run 1 [OpEnqueue 1 100 1; OpEnqueue 2 100 1] (Newbuffer 1)
    = Returned (mkRingBuffer 1 0 2 0 [2] [2] [100]%float [1]) /\
  (length (@nil float) < length [0])%nat /\
  exec [0; 0; 0; 0]%nat
    (mkSystem (mkRingBuffer 1 0 2 0 [2] [2] [100]%float [1])
       [mkThread None [CallDequeueBatch [0] [] []] []])
    = Returned
        (mkSystem (mkRingBuffer 1 0 2 1 [2] [2] [100]%float [1])
           [mkThread (Some (CallDequeueBatch [0] [] [],
                            InDequeueBatch 1 (DbWait 0 0 ([0], [], []))))
              [] []]) /\
  (forall k : nat,
     exec (replicate k 0%nat)
       (mkSystem (mkRingBuffer 1 0 2 1 [2] [2] [100]%float [1])
          [mkThread (Some (CallDequeueBatch [0] [] [],
                           InDequeueBatch 1 (DbWait 0 0 ([0], [], []))))
             [] []])
     = Returned
         (mkSystem (mkRingBuffer 1 0 2 1 [2] [2] [100]%float [1])
            [mkThread (Some (CallDequeueBatch [0] [] [],
                             InDequeueBatch 1 (DbWait 0 0 ([0], [], []))))
               [] []])) /\
  forall fuel : nat,
    DequeueBatch (S fuel) (mkRingBuffer 1 0 2 0 [2] [2] [100]%float [1]) [0] [] []
      = Spinning.
Proof.
  split; [vm_compute; reflexivity |]. split; [cbn; lia |].
  split; [vm_compute; reflexivity |]. split.
  - induction k as [| k IH]; [reflexivity |].
    cbn [replicate exec].
    change (sched _ 0%nat)
      with (Returned
              (mkSystem (mkRingBuffer 1 0 2 1 [2] [2] [100]%float [1])
                 [mkThread (Some (CallDequeueBatch [0] [] [],
                                  InDequeueBatch 1 (DbWait 0 0 ([0], [], []))))
                    [] []])).
    cbn [bind]. exact IH.
  - assert (Hwait : forall fuel : nat,
              await_published fuel (mkRingBuffer 1 0 2 1 [2] [2] [100]%float [1]) 0 0
                = Spinning).
    { induction fuel as [| fuel IH]; [reflexivity |].
      cbn [await_published]. exact IH. }
    intros fuel. specialize (Hwait (S fuel)).
    unfold DequeueBatch, DequeueBatch_attempt.
    cbn [length readIndex mask cycleState].
    change (Z.of_nat 1) with 1.
    change (1 =? 0) with false. cbv iota.
    change (load [2] (Z.land 0 0)) with (Returned (A := Z) 2).
    cbn [bind].
    change (isub64 (int64 2) (int64 (add64 0 1)) <? 0) with false. cbv iota.
    change (load [2] (Z.land (sub64 (add64 0 1) 1) 0)) with (Returned (A := Z) 2).
    cbn [bind].
    change (isub64 (int64 2) (int64 (add64 0 1)) <? 0) with false. cbv iota.
    change (Z.to_nat 1) with 1%nat.
    cbn [DequeueBatch_copy].
    match goal with
    | |- context [await_published ?f ?r ?o ?i] =>
        change (await_published f r o i)
          with (await_published f (mkRingBuffer 1 0 2 1 [2] [2] [100]%float [1]) 0 0)
    end.
    rewrite Hwait. reflexivity.
Qed.

(** C9 (as amended): on a buffer of power-of-two capacity at least 2, in every
    reachable state, the batch operations take the number of records from
    [len(ids)] alone and compare no lengths.

    EnqueueBatch: without room for [len(ids)] records it returns 0 and leaves
    the buffer as it is, whatever the lengths of [prices] and [qtys].  With
    room, [prices] and [qtys] at least as long as [ids] (longer is accepted,
    entries past [len(ids)] are never read) give [len(ids)] and all the
    records are written; a shorter [prices] or [qtys] makes the copy loop,
    run on the buffer whose head cursor is already advanced, index out of
    range and panic.

    DequeueBatch likewise with [limit = len(ids)]: fewer than [limit] records
    waiting give 0 with buffer and outputs unchanged, whatever the lengths;
    otherwise long enough outputs receive [limit] records in cursor order,
    entries past [limit] keeping their values, and a shorter [prices] or
    [qtys] makes the copy loop panic after the tail cursor was advanced. *)
Theorem batch_count_is_len_ids (c : Z) (rb : RingBuffer) (fuel : nat)
    (a : list Z) (b : list float) (c0 : list Z) :
  is_pow2 c -> 2 <= c -> reachable c rb ->
  (readIndex rb + c < writeIndex rb + Z.of_nat (length a) ->
   writeIndex rb + Z.of_nat (length a) < 2 ^ 63 ->
   EnqueueBatch (S fuel) rb a b c0 = Returned (rb, 0)) /\
  (writeIndex rb + Z.of_nat (length a) <= readIndex rb + c ->
   ((length a <= length b)%nat /\ (length a <= length c0)%nat ->
    exists rb',
      EnqueueBatch (S fuel) rb a b c0 = Returned (rb', Z.of_nat (length a)) /\
      enqueued a b c0 rb rb') /\
   ((length b < length a)%nat \/ (length c0 < length a)%nat ->
    EnqueueBatch (S fuel) rb a b c0 = Panicked /\
    EnqueueBatch_copy (length a) 0 (writeIndex rb)
      (set_writeIndex (writeIndex rb + Z.of_nat (length a)) rb) a b c0 = Panicked)) /\
  EnqueueBatch (S fuel) rb a b c0 =
    EnqueueBatch (S fuel) rb a (take (length a) b) (take (length a) c0) /\
  (writeIndex rb < readIndex rb + Z.of_nat (length a) ->
   readIndex rb + Z.of_nat (length a) < 2 ^ 63 ->
   DequeueBatch (S fuel) rb a b c0 = Returned (rb, (a, b, c0), 0)) /\
  (readIndex rb + Z.of_nat (length a) <= writeIndex rb ->
   ((length a <= length b)%nat /\ (length a <= length c0)%nat ->
    exists rb' di dp dq,
      DequeueBatch (S fuel) rb a b c0
        = Returned (rb', (di, dp, dq), Z.of_nat (length a)) /\
      dequeued (length a) rb rb' /\
      (forall j : nat, (j < length a)%nat ->
         di !! j = ids rb !! slot c (readIndex rb + Z.of_nat j) /\
         dp !! j = prices rb !! slot c (readIndex rb + Z.of_nat j) /\
         dq !! j = qtys rb !! slot c (readIndex rb + Z.of_nat j)) /\
      (forall j : nat, (length a <= j)%nat -> dp !! j = b !! j /\ dq !! j = c0 !! j)) /\
   ((length b < length a)%nat \/ (length c0 < length a)%nat ->
    DequeueBatch (S fuel) rb a b c0 = Panicked /\
    DequeueBatch_copy (S fuel) (length a) 0 (readIndex rb)
      (set_readIndex (readIndex rb + Z.of_nat (length a)) rb) a b c0 = Panicked)).
Proof.
  intros Hp Hc Hreach.
  destruct (reachable_inv c rb Hp Hreach) as [Hinv Hcap].
  assert (Hwf : wf rb) by (apply inv_wf; [exact Hinv | lia]).
  pose proof (wf_tail rb Hwf) as Ht. pose proof (wf_bound rb Hwf) as Hb.
  pose proof (wf_occ rb Hwf) as Ho. pose proof (wf_shape rb Hwf) as Hs.
  rewrite Hcap in Hb, Ho.
  assert (HcopyE : (length b < length a)%nat \/ (length c0 < length a)%nat ->
            EnqueueBatch_copy (length a) 0 (writeIndex rb)
              (set_writeIndex (writeIndex rb + Z.of_nat (length a)) rb) a b c0
            = Panicked).
  { intros Hshort. change 0 with (Z.of_nat 0).
    apply EnqueueBatch_copy_short;
      [apply shape_set_writeIndex; exact Hs | cbn [Nat.add]; lia
      | cbn [Nat.add]; exact Hshort | lia | lia]. }
  assert (HcopyD : readIndex rb + Z.of_nat (length a) <= writeIndex rb ->
            (length b < length a)%nat \/ (length c0 < length a)%nat ->
            DequeueBatch_copy (S fuel) (length a) 0 (readIndex rb)
              (set_readIndex (readIndex rb + Z.of_nat (length a)) rb) a b c0
            = Panicked).
  { intros Havail Hshort. change 0 with (Z.of_nat 0).
    apply DequeueBatch_copy_short;
      [ apply shape_set_readIndex; exact Hs | lia
      | cbn [Nat.add set_readIndex capacity]; rewrite Hcap; lia
      | cbn [set_readIndex capacity]; rewrite Hcap; lia
      | | cbn [Nat.add]; lia | cbn [Nat.add]; exact Hshort | lia | lia ].
    intros j Hj. cbn [set_readIndex capacity cycleState].
    apply (wf_filled rb Hwf). lia. }
  split; [| split; [| split; [apply EnqueueBatch_take | split]]].
  - intros Hnoroom Hbound.
    rewrite (EnqueueBatch_wf_unfold rb Hwf fuel a b c0) by lia. rewrite Hcap.
    destruct (Z.leb_spec (writeIndex rb + Z.of_nat (length a)) (readIndex rb + c));
      [lia | reflexivity].
  - intros Hroom. split.
    + intros [Hlb Hlc].
      destruct (EnqueueBatch_wf_total rb Hwf fuel a b c0 ltac:(lia) Hlb Hlc)
        as (rb' & r & Hrun).
      pose proof Hrun as Hcase.
      apply (EnqueueBatch_wf_returned rb Hwf) in Hcase
        as [(-> & ->) | (-> & _ & _ & Henq)]; [| eauto | lia].
      destruct a as [| a0 a'].
      * exists rb. split; [exact Hrun | apply enqueued_nil].
      * rewrite (EnqueueBatch_wf_unfold rb Hwf) in Hrun by (cbn [length] in *; lia).
        rewrite Hcap in Hrun.
        destruct (Z.leb_spec (writeIndex rb + Z.of_nat (length (a0 :: a')))
                    (readIndex rb + c)); [| lia].
        apply bind_Returned in Hrun as (rb1 & _ & Hret).
        injection Hret as _ Hz. cbn [length] in Hz. lia.
    + intros Hshort. split; [| exact (HcopyE Hshort)].
      rewrite (EnqueueBatch_wf_unfold rb Hwf fuel a b c0) by lia. rewrite Hcap.
      destruct (Z.leb_spec (writeIndex rb + Z.of_nat (length a)) (readIndex rb + c));
        [| lia].
      rewrite (HcopyE Hshort). reflexivity.
  - intros Hfew Hbound.
    rewrite (DequeueBatch_wf_unfold rb Hwf fuel a b c0) by lia.
    destruct (Z.leb_spec (readIndex rb + Z.of_nat (length a)) (writeIndex rb));
      [lia | reflexivity].
  - intros Havail. split.
    + intros [Hlb Hlc].
      destruct (DequeueBatch_wf_total rb Hwf fuel a b c0 ltac:(lia) Hlb Hlc)
        as ([[rb' [[di dp] dq]] r] & Hrun).
      pose proof Hrun as Hcase.
      apply (DequeueBatch_wf_returned rb Hwf) in Hcase
        as [(-> & -> & -> & -> & ->)
           | (-> & _ & _ & Hdeq & _ & Hfirst & Hrest)]; [| | lia].
      * destruct a as [| a0 a'].
        -- exists rb, [], b, c0. split; [exact Hrun |].
           split; [apply dequeued_zero |].
           split; [intros j Hj; cbn [length] in Hj; lia |].
           intros j _. split; reflexivity.
        -- rewrite (DequeueBatch_wf_unfold rb Hwf) in Hrun by (cbn [length] in *; lia).
           destruct (Z.leb_spec (readIndex rb + Z.of_nat (length (a0 :: a')))
                       (writeIndex rb)); [| lia].
           apply bind_Returned in Hrun as (r1 & _ & Hret).
           injection Hret as _ Hz. cbn [length] in Hz. lia.
      * exists rb', di, dp, dq. split; [exact Hrun |].
        split; [exact Hdeq |]. rewrite Hcap in Hfirst.
        split; [exact Hfirst | exact Hrest].
    + intros Hshort. split; [| exact (HcopyD Havail Hshort)].
      rewrite (DequeueBatch_wf_unfold rb Hwf fuel a b c0) by lia.
      destruct (Z.leb_spec (readIndex rb + Z.of_nat (length a)) (writeIndex rb));
        [| lia].
      rewrite (HcopyD Havail Hshort). reflexivity.
Qed.

Lemma batch_count_is_len_ids_witness :
  reachable 4 (mkRingBuffer 4 3 2 0 [1; 2; 2; 3] [7; 8; 0; 0] [100; 100; 0; 0]%float
                 [1; 1; 0; 0]) /\
  EnqueueBatch 1 (mkRingBuffer 4 3 2 0 [1; 2; 2; 3] [7; 8; 0; 0] [100; 100; 0; 0]%float
                    [1; 1; 0; 0])
    [1; 2] [100]%float [1; 1] = Panicked /\
  DequeueBatch 1 (mkRingBuffer 4 3 2 0 [1; 2; 2; 3] [7; 8; 0; 0] [100; 100; 0; 0]%float
                    [1; 1; 0; 0])
    [1; 2] [100]%float [1; 1] = Panicked.
Proof.
  assert (Hr : reachable 4 (mkRingBuffer 4 3 2 0 [1; 2; 2; 3] [7; 8; 0; 0]
                              [100; 100; 0; 0]%float [1; 1; 0; 0])).
  { exists 1%nat, [OpEnqueue 7 100 1; OpEnqueue 8 100 1].
    split; vm_compute; reflexivity. }
  split; [exact Hr |].
  destruct (batch_count_is_len_ids 4 _ 0 [1; 2] [100]%float [1; 1]
              ltac:(exists 2; split; [lia | reflexivity]) ltac:(lia) Hr)
    as (_ & He & _ & _ & Hd).
  destruct (He ltac:(cbn; lia)) as [_ He'].
  destruct (Hd ltac:(cbn; lia)) as [_ Hd'].
  split; [apply He' | apply Hd']; left; cbn; lia.
Defined.

(** * The buffer is a bounded first-in first-out queue *)

Lemma contents_lookup rb (j : nat) :
  contents rb !! j =
    if decide (Z.of_nat j < writeIndex rb - readIndex rb)
    then Some (record_at rb (readIndex rb + Z.of_nat j)) else None.
Proof.
  unfold contents. rewrite list_lookup_fmap.
  destruct (decide _).
  - rewrite lookup_seqZ_lt by assumption. reflexivity.
  - rewrite lookup_seqZ_ge by lia. reflexivity.
Qed.

Lemma length_contents rb :
  length (contents rb) = Z.to_nat (writeIndex rb - readIndex rb).
Proof. unfold contents. rewrite length_fmap, length_seqZ. reflexivity. Qed.

Lemma total_lookup_eq {A : Type} `{Inhabited A} (l k : list A) (i j : nat) :
  l !! i = k !! j -> l !!! i = k !!! j.
Proof. intros Heq. rewrite !list_lookup_total_alt, Heq. reflexivity. Qed.

Lemma total_lookup_Some {A : Type} `{Inhabited A} (l : list A) (i : nat) (x : A) :
  l !! i = Some x -> l !!! i = x.
Proof. intros Heq. rewrite list_lookup_total_alt, Heq. reflexivity. Qed.

Lemma records_lookup a b c (j : nat) x y z :
  a !! j = Some x -> b !! j = Some y -> c !! j = Some z ->
  records a b c !! j = Some (x, y, z).
Proof.
  intros Ha Hb Hc. unfold records.
  apply lookup_zip_with_Some. exists (x, y), z. split; [reflexivity |].
  split; [| exact Hc].
  apply lookup_zip_with_Some. exists x, y. auto.
Qed.

Lemma length_records a b c :
  (length a <= length b)%nat -> (length a <= length c)%nat ->
  length (records a b c) = length a.
Proof. intros Hb Hc. unfold records. rewrite !length_zip_with. lia. Qed.

Lemma contents_enqueued a b c0 rb rb' :
  wf rb -> enqueued a b c0 rb rb' ->
  writeIndex rb + Z.of_nat (length a) <= readIndex rb + capacity rb ->
  (length a <= length b)%nat -> (length a <= length c0)%nat ->
  contents rb' = contents rb ++ records a b c0.
Proof.
  intros Hwf E Hroom Hb Hc.
  pose proof (wf_cap2 rb Hwf) as Hcap. pose proof (wf_tail rb Hwf) as Ht.
  apply list_eq. intros i.
  rewrite contents_lookup, (enq_head _ _ _ _ _ E), (enq_tail _ _ _ _ _ E).
  destruct (decide (Z.of_nat i < writeIndex rb - readIndex rb)) as [Hold | Hnew].
  - rewrite lookup_app_l by (rewrite length_contents; lia).
    rewrite contents_lookup. destruct (decide _); [| lia].
    destruct (decide _); [| lia]. f_equal.
    unfold record_at. rewrite (enq_capacity _ _ _ _ _ E).
    destruct (enq_others _ _ _ _ _ E (slot (capacity rb) (readIndex rb + Z.of_nat i)))
      as (_ & H1 & H2 & H3).
    { intros j Hj Heq.
      apply (slot_inj (capacity rb) (readIndex rb)) in Heq; lia. }
    rewrite (total_lookup_eq _ _ _ _ H1), (total_lookup_eq _ _ _ _ H2),
            (total_lookup_eq _ _ _ _ H3).
    reflexivity.
  - rewrite lookup_app_r by (rewrite length_contents; lia).
    rewrite length_contents.
    set (j := (i - Z.to_nat (writeIndex rb - readIndex rb))%nat).
    destruct (decide (Z.of_nat i < writeIndex rb + Z.of_nat (length a) - readIndex rb))
      as [Hin | Hout].
    + assert (Hj : (j < length a)%nat) by lia.
      destruct (lookup_lt_is_Some_2 a j Hj) as [x Hx].
      destruct (lookup_lt_is_Some_2 b j ltac:(lia)) as [y Hy].
      destruct (lookup_lt_is_Some_2 c0 j ltac:(lia)) as [z Hz].
      rewrite (records_lookup a b c0 j x y z Hx Hy Hz). f_equal.
      destruct (enq_slots _ _ _ _ _ E j Hj) as (_ & H1 & H2 & H3).
      unfold record_at. rewrite (enq_capacity _ _ _ _ _ E).
      replace (readIndex rb + Z.of_nat i) with (writeIndex rb + Z.of_nat j) by lia.
      rewrite Hx in H1. rewrite Hy in H2. rewrite Hz in H3.
      rewrite (total_lookup_Some _ _ _ H1), (total_lookup_Some _ _ _ H2),
              (total_lookup_Some _ _ _ H3).
      reflexivity.
    + symmetry. apply lookup_ge_None. rewrite length_records by assumption. lia.
Qed.

Lemma contents_dequeued n rb rb' :
  wf rb -> dequeued n rb rb' ->
  readIndex rb + Z.of_nat n <= writeIndex rb ->
  contents rb' = drop n (contents rb).
Proof.
  intros Hwf D Havail. pose proof (wf_tail rb Hwf) as Ht.
  apply list_eq. intros i.
  rewrite lookup_drop, !contents_lookup, (deq_head _ _ _ D), (deq_tail _ _ _ D).
  unfold record_at.
  rewrite (deq_capacity _ _ _ D), (deq_ids _ _ _ D), (deq_prices _ _ _ D),
          (deq_qtys _ _ _ D).
  replace (readIndex rb + Z.of_nat n + Z.of_nat i)
    with (readIndex rb + Z.of_nat (n + i)) by lia.
  destruct (decide _), (decide _); try lia; reflexivity.
Qed.

Lemma enqueued_aligned a b c0 rb rb' :
  shape rb -> enqueued a b c0 rb rb' ->
  (length a <= length b)%nat /\ (length a <= length c0)%nat.
Proof.
  intros Hs E. destruct (Nat.eq_dec (length a) 0%nat) as [-> | Hnz]; [lia |].
  pose proof (shape_cap_pos rb Hs) as Hc.
  destruct (enq_slots _ _ _ _ _ E (length a - 1)%nat ltac:(lia)) as (_ & _ & H2 & H3).
  pose proof (shape_enqueued _ _ _ _ _ Hs E) as Hs'.
  assert (Hlt : (slot (capacity rb) (writeIndex rb + Z.of_nat (length a - 1))
                 < Z.to_nat (capacity rb))%nat) by (apply slot_lt; lia).
  destruct (lookup_lt_is_Some_2 (prices rb') _
              ltac:(rewrite (shape_prices rb' Hs'), (enq_capacity _ _ _ _ _ E); exact Hlt))
    as [y Hy].
  destruct (lookup_lt_is_Some_2 (qtys rb') _
              ltac:(rewrite (shape_qtys rb' Hs'), (enq_capacity _ _ _ _ _ E); exact Hlt))
    as [z Hz].
  rewrite H2 in Hy. rewrite H3 in Hz.
  apply lookup_lt_Some in Hy, Hz. lia.
Qed.

Section QueueView.
Variable rb : RingBuffer.
Hypothesis Hwf : wf rb.

Lemma wf_length_contents :
  Z.of_nat (length (contents rb)) = writeIndex rb - readIndex rb.
Proof. pose proof (wf_tail rb Hwf). rewrite length_contents. lia. Qed.

Lemma Enqueue_contents fuel id price qty :
  exists rb',
    Enqueue (S fuel) rb id price qty
      = Returned (rb', Z.of_nat (length (contents rb)) <? capacity rb) /\
    contents rb' =
      if Z.of_nat (length (contents rb)) <? capacity rb
      then contents rb ++ [(id, price, qty)] else contents rb.
Proof.
  pose proof (wf_tail rb Hwf) as Ht. pose proof (wf_shape rb Hwf) as Hs.
  rewrite (Enqueue_wf rb Hwf), wf_length_contents.
  destruct (Z.ltb_spec (writeIndex rb) (readIndex rb + capacity rb)) as [Hroom | Hfull].
  - destruct (Z.ltb_spec (writeIndex rb - readIndex rb) (capacity rb)); [| lia].
    eexists. split; [reflexivity |].
    apply (contents_enqueued [id] [price] [qty] rb); cbn [length Z.of_nat]; try lia;
      [exact Hwf | apply enqueued_single; exact Hs].
  - destruct (Z.ltb_spec (writeIndex rb - readIndex rb) (capacity rb)); [lia |].
    exists rb. split; reflexivity.
Qed.

Lemma Dequeue_contents fuel :
  exists rb',
    Dequeue (S fuel) rb = Returned (rb', head (contents rb)) /\
    contents rb' = drop 1 (contents rb).
Proof.
  pose proof (wf_tail rb Hwf) as Ht. pose proof (wf_shape rb Hwf) as Hs.
  rewrite head_lookup, contents_lookup. cbn [Z.of_nat].
  destruct (Z.eq_dec (readIndex rb) (writeIndex rb)) as [Hempty | Hne].
  - rewrite (Dequeue_wf_empty rb Hwf fuel Hempty).
    destruct (decide _); [lia |]. exists rb. split; [reflexivity |].
    rewrite (nil_length_inv (contents rb)) by (rewrite length_contents; lia).
    reflexivity.
  - destruct (Dequeue_wf_take rb Hwf fuel ltac:(lia))
      as (id & price & qty & Hid & Hprice & Hqty & ->).
    destruct (decide _); [| lia]. eexists. split.
    + do 3 f_equal. unfold record_at. rewrite Z.add_0_r.
      rewrite (total_lookup_Some _ _ _ Hid), (total_lookup_Some _ _ _ Hprice),
              (total_lookup_Some _ _ _ Hqty).
      reflexivity.
    + apply (contents_dequeued 1 rb); [exact Hwf | apply dequeued_single; exact Hs | lia].
Qed.

Lemma EnqueueBatch_contents fuel a b c0 rb' r :
  writeIndex rb + Z.of_nat (length a) < 2 ^ 63 ->
  EnqueueBatch (S fuel) rb a b c0 = Returned (rb', r) ->
  if Z.of_nat (length (contents rb)) + Z.of_nat (length a) <=? capacity rb
  then r = Z.of_nat (length a) /\ contents rb' = contents rb ++ records a b c0
  else r = 0 /\ rb' = rb.
Proof.
  intros Hbound Hrun.
  pose proof (wf_tail rb Hwf) as Ht. pose proof (wf_shape rb Hwf) as Hs.
  pose proof (wf_cap2 rb Hwf) as Hc.
  rewrite wf_length_contents.
  destruct (Nat.eq_dec (length a) 0%nat) as [Hz | Hnz].
  - destruct a; [| discriminate]. cbn [length Z.of_nat] in *.
    destruct (wf_head_not_ahead rb Hwf) as (v & Hv & Hle).
    rewrite (EnqueueBatch_nil rb fuel b c0 v) in Hrun;
      [| exact Hs | lia | exact Hv | exact Hle].
    injection Hrun as <- <-.
    pose proof (wf_occ rb Hwf).
    change (Z.of_nat 0) with 0.
    destruct (Z.leb_spec (writeIndex rb - readIndex rb + 0) (capacity rb)); [| lia].
    split; [reflexivity |]. unfold records. cbn. rewrite app_nil_r. reflexivity.
  - rewrite (EnqueueBatch_wf_unfold rb Hwf) in Hrun by lia.
    destruct (Z.leb_spec (writeIndex rb + Z.of_nat (length a))
                (readIndex rb + capacity rb)) as [Hroom | Hfull].
    + destruct (Z.leb_spec (writeIndex rb - readIndex rb + Z.of_nat (length a))
                  (capacity rb)); [| lia].
      apply bind_Returned in Hrun as (rb1 & Hcopy & Hret). injection Hret as <- <-.
      apply EnqueueBatch_copy_enqueued in Hcopy; [| exact Hs | lia | lia | lia].
      destruct (enqueued_aligned _ _ _ _ _ Hs Hcopy) as [Hb Hc0].
      split; [reflexivity |]. apply contents_enqueued; assumption.
    + destruct (Z.leb_spec (writeIndex rb - readIndex rb + Z.of_nat (length a))
                  (capacity rb)); [lia |].
      injection Hrun as <- <-. split; reflexivity.
Qed.

Lemma DequeueBatch_contents fuel di dp dq rb' di' dp' dq' r :
  readIndex rb + Z.of_nat (length di) < 2 ^ 63 ->
  DequeueBatch fuel rb di dp dq = Returned (rb', (di', dp', dq'), r) ->
  if (length di <=? length (contents rb))%nat
  then r = Z.of_nat (length di) /\
       contents rb' = drop (length di) (contents rb) /\
       records (take (length di) di') (take (length di) dp') (take (length di) dq')
         = take (length di) (contents rb) /\
       length di' = length di /\
       drop (length di) dp' = drop (length di) dp /\
       drop (length di) dq' = drop (length di) dq
  else r = 0 /\ rb' = rb /\ di' = di /\ dp' = dp /\ dq' = dq.
Proof.
  intros Hbound Hrun.
  pose proof (wf_tail rb Hwf) as Ht. pose proof (wf_shape rb Hwf) as Hs.
  pose proof (wf_cap2 rb Hwf) as Hc.
  pose proof wf_length_contents as Hlen.
  pose proof Hrun as Hcase.
  apply (DequeueBatch_wf_returned rb Hwf) in Hcase
    as [(-> & -> & -> & -> & ->) | (-> & Hn & Havail & D & (L1 & L2 & L3) & Hout & Hrest)];
    [| | exact Hbound].
  - destruct (Nat.leb_spec (length di) (length (contents rb))) as [Hle | Hgt];
      [| repeat split; reflexivity].
    destruct (Nat.eq_dec (length di) 0%nat) as [Hz | Hnz].
    + rewrite Hz. cbn [Z.of_nat take drop]. repeat split; reflexivity.
    + exfalso. destruct fuel as [| fuel'].
      { unfold DequeueBatch in Hrun.
        destruct (Z.eqb_spec (Z.of_nat (length di)) 0); [lia | discriminate]. }
      rewrite (DequeueBatch_wf_unfold rb Hwf fuel') in Hrun by lia.
      destruct (Z.leb_spec (readIndex rb + Z.of_nat (length di)) (writeIndex rb));
        [| lia].
      apply bind_Returned in Hrun as (r1 & _ & Hret). injection Hret as _ Hzero. lia.
  - destruct (Nat.leb_spec (length di) (length (contents rb))); [| lia].
    split; [reflexivity |].
    split; [apply contents_dequeued; assumption |].
    split; [| split; [exact L1 | split]].
    + apply list_eq. intros j.
      destruct (decide (j < length di)%nat) as [Hj | Hj].
      * rewrite lookup_take_lt, contents_lookup by exact Hj.
        destruct (decide _); [| lia].
        destruct (Hout j Hj) as (H1 & H2 & H3).
        assert (Hslot : (slot (capacity rb) (readIndex rb + Z.of_nat j)
                         < Z.to_nat (capacity rb))%nat) by (apply slot_lt; lia).
        destruct (lookup_lt_is_Some_2 (ids rb) _
                    ltac:(rewrite (shape_ids rb Hs); exact Hslot)) as [x Hx].
        destruct (lookup_lt_is_Some_2 (prices rb) _
                    ltac:(rewrite (shape_prices rb Hs); exact Hslot)) as [y Hy].
        destruct (lookup_lt_is_Some_2 (qtys rb) _
                    ltac:(rewrite (shape_qtys rb Hs); exact Hslot)) as [z Hz].
        unfold record_at.
        rewrite (total_lookup_Some _ _ _ Hx), (total_lookup_Some _ _ _ Hy),
                (total_lookup_Some _ _ _ Hz).
        apply records_lookup; rewrite lookup_take_lt by exact Hj; congruence.
      * rewrite lookup_take_ge by lia.
        apply lookup_ge_None. unfold records. rewrite !length_zip_with, !length_take. lia.
    + apply list_eq. intros j. rewrite !lookup_drop. apply Hrest. lia.
    + apply list_eq. intros j. rewrite !lookup_drop. apply Hrest. lia.
Qed.
End QueueView.

Lemma step_contents fuel rb o rb' :
  wf rb ->
  writeIndex rb + op_weight o + capacity rb < 2 ^ 63 ->
  step fuel rb o = Returned rb' ->
  contents rb' = queue_step (capacity rb) (contents rb) o.
Proof.
  intros Hwf Hbound Hrun.
  pose proof (wf_tail rb Hwf) as Ht. pose proof (wf_cap2 rb Hwf) as Hc.
  destruct o as [id price qty | | a b c0 | di dp dq]; cbn [step op_weight queue_step] in *.
  - destruct fuel as [| fuel]; [discriminate |].
    destruct (Enqueue_contents rb Hwf fuel id price qty) as (rb1 & Heq & Hcont).
    rewrite Heq in Hrun. cbn [bind fst] in Hrun. injection Hrun as <-. exact Hcont.
  - destruct fuel as [| fuel]; [discriminate |].
    destruct (Dequeue_contents rb Hwf fuel) as (rb1 & Heq & Hcont).
    rewrite Heq in Hrun. cbn [bind fst] in Hrun. injection Hrun as <-. exact Hcont.
  - destruct fuel as [| fuel]; [discriminate |].
    apply bind_Returned in Hrun as ([rb1 r] & Hcall & Hret).
    cbn [fst] in Hret. injection Hret as ->.
    apply (EnqueueBatch_contents rb Hwf) in Hcall; [| lia].
    destruct (_ <=? _); [apply Hcall | destruct Hcall as [_ ->]; reflexivity].
  - apply bind_Returned in Hrun as ([[rb1 [[di' dp'] dq']] r] & Hcall & Hret).
    cbn [fst] in Hret. injection Hret as ->.
    apply (DequeueBatch_contents rb Hwf) in Hcall; [| lia].
    destruct (_ <=? _)%nat; [apply Hcall | destruct Hcall as (_ & -> & _); reflexivity].
Qed.

Lemma run_contents fuel ops :
  forall rb rb',
    wf rb ->
    writeIndex rb + ops_weight ops + capacity rb < 2 ^ 63 ->
    run fuel ops rb = Returned rb' ->
    contents rb' = foldl (queue_step (capacity rb)) (contents rb) ops.
Proof.
  induction ops as [| o ops IH]; intros rb rb' Hwf Hbound Hrun;
    cbn [run ops_weight foldl] in *.
  - injection Hrun as <-. reflexivity.
  - apply bind_Returned in Hrun as (rb1 & Hstep & Hrun).
    pose proof (ops_weight_nonneg ops) as Hw.
    pose proof (op_weight_nonneg o) as Hw'.
    rewrite <- (step_contents fuel rb o rb1 Hwf ltac:(lia) Hstep).
    apply step_wf in Hstep as (Hwf1 & Hcap1 & Hh1); [| exact Hwf | lia].
    rewrite <- Hcap1. apply IH; [exact Hwf1 | rewrite Hcap1; lia | exact Hrun].
Qed.

Lemma reachable_wf c rb : is_pow2 c -> 2 <= c -> reachable c rb -> wf rb /\ capacity rb = c.
Proof.
  intros Hp Hc Hreach. destruct (reachable_inv c rb Hp Hreach) as [Hinv Hcap].
  split; [apply inv_wf; [exact Hinv | lia] | exact Hcap].
Qed.

Lemma contents_Newbuffer c : contents (Newbuffer c) = [].
Proof. reflexivity. Qed.

(** Enqueue on a buffer with at least two slots appends the record to the
    waiting records and returns [true] when fewer than [capacity] records
    wait; otherwise it returns [false] and the waiting records stay as they
    were. *)
Theorem Enqueue_appends_record (c : Z) (rb : RingBuffer) (fuel : nat)
    (id : Z) (price : float) (qty : Z) :
  is_pow2 c -> 2 <= c -> reachable c rb ->
  exists rb',
    Enqueue (S fuel) rb id price qty
      = Returned (rb', Z.of_nat (length (contents rb)) <? c) /\
    contents rb' =
      if Z.of_nat (length (contents rb)) <? c
      then contents rb ++ [(id, price, qty)] else contents rb.
Proof.
  intros Hp Hc Hreach. destruct (reachable_wf c rb Hp Hc Hreach) as [Hwf <-].
  apply Enqueue_contents. exact Hwf.
Qed.

Lemma Enqueue_appends_record_witness :
  exists rb',
    Enqueue 1 (mkRingBuffer 2 1 1 0 [1; 1] [7; 0] [100; 0]%float [1; 0]) 8 100%float 1
      = Returned (rb', true) /\
    contents rb' = [(7, 100%float, 1); (8, 100%float, 1)].
Proof.
  apply (Enqueue_appends_record 2 (mkRingBuffer 2 1 1 0 [1; 1] [7; 0] [100; 0]%float [1; 0])
           0 8 100%float 1).
  - exists 1. split; [lia | reflexivity].
  - lia.
  - exists 1%nat, [OpEnqueue 7 100 1]. split; vm_compute; reflexivity.
Defined.

(** Dequeue on a buffer with at least two slots returns the oldest waiting
    record and removes it; with no record waiting it returns [false]. *)
Theorem Dequeue_takes_oldest_record (c : Z) (rb : RingBuffer) (fuel : nat) :
  is_pow2 c -> 2 <= c -> reachable c rb ->
  exists rb',
    Dequeue (S fuel) rb = Returned (rb', head (contents rb)) /\
    contents rb' = drop 1 (contents rb).
Proof.
  intros Hp Hc Hreach. destruct (reachable_wf c rb Hp Hc Hreach) as [Hwf _].
  apply Dequeue_contents. exact Hwf.
Qed.

Lemma Dequeue_takes_oldest_record_witness :
  exists rb',
    Dequeue 1 (mkRingBuffer 2 1 2 0 [1; 2] [7; 8] [100; 100]%float [1; 1])
      = Returned (rb', Some (7, 100%float, 1)) /\
    contents rb' = [(8, 100%float, 1)].
Proof.
  apply (Dequeue_takes_oldest_record 2
           (mkRingBuffer 2 1 2 0 [1; 2] [7; 8] [100; 100]%float [1; 1]) 0).
  - exists 1. split; [lia | reflexivity].
  - lia.
  - exists 1%nat, [OpEnqueue 7 100 1; OpEnqueue 8 100 1]. split; vm_compute; reflexivity.
Defined.

(** EnqueueBatch on a buffer with at least two slots, given [prices] and
    [qtys] at least as long as [ids]: when the waiting records and the batch
    together fit the capacity it returns [len(ids)] and appends the records
    of the batch, in order, behind the waiting ones; otherwise it returns 0
    and changes nothing. *)
Theorem EnqueueBatch_appends_records (c : Z) (rb : RingBuffer) (fuel : nat)
    (a : list Z) (b : list float) (c0 : list Z) :
  is_pow2 c -> 2 <= c -> reachable c rb ->
  (length a <= length b)%nat -> (length a <= length c0)%nat ->
  writeIndex rb + Z.of_nat (length a) < 2 ^ 63 ->
  exists rb',
    EnqueueBatch (S fuel) rb a b c0
      = Returned (rb',
                  if Z.of_nat (length (contents rb)) + Z.of_nat (length a) <=? c
                  then Z.of_nat (length a) else 0) /\
    (if Z.of_nat (length (contents rb)) + Z.of_nat (length a) <=? c
     then contents rb' = contents rb ++ records a b c0
     else rb' = rb).
Proof.
  intros Hp Hc Hreach Hb Hc0 Hbound.
  destruct (reachable_wf c rb Hp Hc Hreach) as [Hwf <-].
  destruct (EnqueueBatch_wf_total rb Hwf fuel a b c0 Hbound Hb Hc0) as (rb' & r & Hrun).
  exists rb'. pose proof (EnqueueBatch_contents rb Hwf fuel a b c0 rb' r Hbound Hrun) as H.
  destruct (_ <=? _); destruct H as [-> H]; split; assumption.
Qed.

Lemma EnqueueBatch_appends_records_witness :
  exists rb',
    EnqueueBatch 1 (mkRingBuffer 4 3 1 0 [1; 1; 2; 3] [7; 0; 0; 0] [100; 0; 0; 0]%float
                      [1; 0; 0; 0])
      [8; 9] [50; 60; 70]%float [2; 3] = Returned (rb', 2) /\
    contents rb' = [(7, 100%float, 1); (8, 50%float, 2); (9, 60%float, 3)].
Proof.
  apply (EnqueueBatch_appends_records 4
           (mkRingBuffer 4 3 1 0 [1; 1; 2; 3] [7; 0; 0; 0] [100; 0; 0; 0]%float [1; 0; 0; 0])
           0 [8; 9] [50; 60; 70]%float [2; 3]).
  - exists 2. split; [lia | reflexivity].
  - lia.
  - exists 1%nat, [OpEnqueue 7 100 1]. split; vm_compute; reflexivity.
  - cbn. lia.
  - cbn. lia.
  - vm_compute. reflexivity.
Defined.

(** DequeueBatch on a buffer with at least two slots, given output buffers
    [prices] and [qtys] at least as long as [ids]: when at least [len(ids)]
    records wait it returns [len(ids)], the first [len(ids)] entries of the
    output buffers are the oldest waiting records in order, those records are
    removed, and the rest of the output buffers is untouched; otherwise it
    returns 0 and changes neither the buffer nor the output buffers. *)
Theorem DequeueBatch_takes_oldest_records (c : Z) (rb : RingBuffer) (fuel : nat)
    (di : list Z) (dp : list float) (dq : list Z) :
  is_pow2 c -> 2 <= c -> reachable c rb ->
  (length di <= length dp)%nat -> (length di <= length dq)%nat ->
  readIndex rb + Z.of_nat (length di) < 2 ^ 63 ->
  exists rb' di' dp' dq',
    DequeueBatch (S fuel) rb di dp dq
      = Returned (rb', (di', dp', dq'),
                  if (length di <=? length (contents rb))%nat
                  then Z.of_nat (length di) else 0) /\
    (if (length di <=? length (contents rb))%nat
     then contents rb' = drop (length di) (contents rb) /\
          records (take (length di) di') (take (length di) dp') (take (length di) dq')
            = take (length di) (contents rb) /\
          length di' = length di /\
          drop (length di) dp' = drop (length di) dp /\
          drop (length di) dq' = drop (length di) dq
     else rb' = rb /\ di' = di /\ dp' = dp /\ dq' = dq).
Proof.
  intros Hp Hc Hreach Hlp Hlq Hbound.
  destruct (reachable_wf c rb Hp Hc Hreach) as [Hwf _].
  destruct (DequeueBatch_wf_total rb Hwf fuel di dp dq Hbound Hlp Hlq)
    as ([[rb' [[di' dp'] dq']] r] & Hrun).
  exists rb', di', dp', dq'.
  pose proof (DequeueBatch_contents rb Hwf (S fuel) di dp dq rb' di' dp' dq' r Hbound Hrun)
    as H.
  destruct (_ <=? _)%nat; destruct H as [-> H]; split; assumption.
Qed.

Lemma DequeueBatch_takes_oldest_records_witness :
  exists rb' di' dp' dq',
    DequeueBatch 1 (mkRingBuffer 4 3 3 0 [1; 2; 3; 3] [7; 8; 9; 0] [100; 50; 60; 0]%float
                      [1; 2; 3; 0])
      [0; 0] [0; 0; 5]%float [0; 0] = Returned (rb', (di', dp', dq'), 2) /\
    contents rb' = [(9, 60%float, 3)] /\
    records (take 2 di') (take 2 dp') (take 2 dq')
      = [(7, 100%float, 1); (8, 50%float, 2)].
Proof.
  destruct (DequeueBatch_takes_oldest_records 4
              (mkRingBuffer 4 3 3 0 [1; 2; 3; 3] [7; 8; 9; 0] [100; 50; 60; 0]%float
                 [1; 2; 3; 0])
              0 [0; 0] [0; 0; 5]%float [0; 0])
    as (rb' & di' & dp' & dq' & Hrun & Hc & Hr & _).
  - exists 2. split; [lia | reflexivity].
  - lia.
  - exists 1%nat, [OpEnqueue 7 100 1; OpEnqueueBatch [8; 9] [50; 60]%float [2; 3]].
    split; vm_compute; reflexivity.
  - cbn. lia.
  - cbn. lia.
  - vm_compute. reflexivity.
  - exists rb', di', dp', dq'. split; [exact Hrun |]. split; [exact Hc | exact Hr].
Defined.

(** A sequential program of Enqueue, Dequeue, EnqueueBatch and DequeueBatch
    calls on a fresh buffer with at least two slots leaves in the buffer
    exactly the records a bounded first-in first-out queue of the same
    capacity would hold after the same operations. *)
Theorem queue_refinement (c : Z) (fuel : nat) (ops : list op) (rb : RingBuffer) :
  is_pow2 c -> 2 <= c ->
  ops_weight ops + c < 2 ^ 63 ->
  run fuel ops (Newbuffer c) = Returned rb ->
  contents rb = foldl (queue_step c) [] ops.
Proof.
  intros Hp Hc Hbound Hrun. pose proof (ops_weight_nonneg ops) as Hw.
  apply run_contents in Hrun; [exact Hrun | | cbn; lia].
  apply Newbuffer_wf; [exact Hp | exact Hc | lia].
Qed.

Lemma queue_refinement_witness :
  contents (mkRingBuffer 4 3 5 2 [5; 5; 3; 4] [12; 2; 10; 11]
              [4; 2; 2; 3]%float [1; 1; 1; 1])
    = [(10, 2%float, 1); (11, 3%float, 1); (12, 4%float, 1)].
Proof.
  apply (queue_refinement 4 1
           [OpEnqueue 1 1 1; OpEnqueue 2 2 1; OpDequeueBatch [0; 0; 0] [0; 0; 0]%float [0; 0; 0];
            OpEnqueueBatch [10; 11] [2; 3]%float [1; 1]; OpDequeueBatch [0; 0] [0; 0]%float [0; 0];
            OpEnqueueBatch [20; 21; 22] [0; 0; 0]%float [0; 0; 0]; OpEnqueue 12 4 1]).
  - exists 2. split; [lia | reflexivity].
  - lia.
  - vm_compute. reflexivity.
  - vm_compute. reflexivity.
Defined.

(** * A batch call and the single calls it stands for *)

Lemma RingBuffer_eq rb1 rb2 :
  capacity rb1 = capacity rb2 -> mask rb1 = mask rb2 ->
  writeIndex rb1 = writeIndex rb2 -> readIndex rb1 = readIndex rb2 ->
  cycleState rb1 = cycleState rb2 -> ids rb1 = ids rb2 ->
  prices rb1 = prices rb2 -> qtys rb1 = qtys rb2 ->
  rb1 = rb2.
Proof. destruct rb1, rb2. cbn. intros. subst. reflexivity. Qed.

(** A slot is the slot of one of the positions [h, ..., h + n - 1], or of
    none of them. *)
Lemma slot_in_range_dec c h (n s : nat) :
  0 < c -> Z.of_nat n <= c ->
  (exists j : nat, (j < n)%nat /\ slot c (h + Z.of_nat j) = s) \/
  (forall j : nat, (j < n)%nat -> slot c (h + Z.of_nat j) <> s).
Proof.
  intros Hc Hn.
  destruct (decide (s < Z.to_nat c)%nat) as [Hs | Hs].
  - set (q := window_pos c h (Z.of_nat s)).
    pose proof (window_pos_range c h (Z.of_nat s) Hc) as Hr. fold q in Hr.
    assert (Hq : slot c q = s).
    { unfold q. rewrite slot_window_pos by exact Hc.
      unfold slot. rewrite Z.mod_small by lia. lia. }
    destruct (decide (q - h < Z.of_nat n)) as [Hin | Hout].
    + left. exists (Z.to_nat (q - h)). split; [lia |].
      replace (h + Z.of_nat (Z.to_nat (q - h))) with q by lia. exact Hq.
    + right. intros j Hj Heq. rewrite <- Hq in Heq.
      apply (slot_inj c h) in Heq; lia.
  - right. intros j Hj Heq. pose proof (slot_lt c (h + Z.of_nat j) Hc). lia.
Qed.

Lemma enqueued_unique a b c0 rb rb1 rb2 :
  shape rb -> Z.of_nat (length a) <= capacity rb ->
  enqueued a b c0 rb rb1 -> enqueued a b c0 rb rb2 -> rb1 = rb2.
Proof.
  intros Hs Hn E1 E2. pose proof (shape_cap_pos rb Hs) as Hc.
  assert (Hlook : forall s : nat,
            cycleState rb1 !! s = cycleState rb2 !! s /\ ids rb1 !! s = ids rb2 !! s /\
            prices rb1 !! s = prices rb2 !! s /\ qtys rb1 !! s = qtys rb2 !! s).
  { intros s.
    destruct (slot_in_range_dec (capacity rb) (writeIndex rb) (length a) s ltac:(lia) Hn)
      as [(j & Hj & <-) | Hnone].
    - destruct (enq_slots _ _ _ _ _ E1 j Hj) as (A1 & A2 & A3 & A4).
      destruct (enq_slots _ _ _ _ _ E2 j Hj) as (B1 & B2 & B3 & B4).
      repeat split; congruence.
    - destruct (enq_others _ _ _ _ _ E1 s Hnone) as (A1 & A2 & A3 & A4).
      destruct (enq_others _ _ _ _ _ E2 s Hnone) as (B1 & B2 & B3 & B4).
      repeat split; congruence. }
  apply RingBuffer_eq.
  - rewrite (enq_capacity _ _ _ _ _ E1), (enq_capacity _ _ _ _ _ E2). reflexivity.
  - rewrite (enq_mask _ _ _ _ _ E1), (enq_mask _ _ _ _ _ E2). reflexivity.
  - rewrite (enq_head _ _ _ _ _ E1), (enq_head _ _ _ _ _ E2). reflexivity.
  - rewrite (enq_tail _ _ _ _ _ E1), (enq_tail _ _ _ _ _ E2). reflexivity.
  - apply list_eq. intros s. apply Hlook.
  - apply list_eq. intros s. apply Hlook.
  - apply list_eq. intros s. apply Hlook.
  - apply list_eq. intros s. apply Hlook.
Qed.

Lemma enqueued_cons x y z a b c0 rb rb1 rb2 :
  shape rb -> Z.of_nat (S (length a)) <= capacity rb ->
  enqueued [x] [y] [z] rb rb1 -> enqueued a b c0 rb1 rb2 ->
  enqueued (x :: a) (y :: b) (z :: c0) rb rb2.
Proof.
  intros Hs Hn E1 E2. pose proof (shape_cap_pos rb Hs) as Hc.
  pose proof (enq_capacity _ _ _ _ _ E1) as Hcap1.
  assert (Hh1 : writeIndex rb1 = writeIndex rb + 1)
    by (rewrite (enq_head _ _ _ _ _ E1); cbn [length]; lia).
  assert (Hfirst : forall j : nat, (j < length a)%nat ->
            slot (capacity rb1) (writeIndex rb1 + Z.of_nat j)
              <> slot (capacity rb) (writeIndex rb)).
  { intros j Hj Heq. rewrite Hcap1, Hh1 in Heq.
    apply (slot_inj (capacity rb) (writeIndex rb)) in Heq; lia. }
  constructor.
  - rewrite (enq_capacity _ _ _ _ _ E2). exact Hcap1.
  - rewrite (enq_mask _ _ _ _ _ E2). exact (enq_mask _ _ _ _ _ E1).
  - rewrite (enq_head _ _ _ _ _ E2), Hh1. cbn [length]. lia.
  - rewrite (enq_tail _ _ _ _ _ E2). exact (enq_tail _ _ _ _ _ E1).
  - rewrite (enq_len_cycle _ _ _ _ _ E2). exact (enq_len_cycle _ _ _ _ _ E1).
  - rewrite (enq_len_ids _ _ _ _ _ E2). exact (enq_len_ids _ _ _ _ _ E1).
  - rewrite (enq_len_prices _ _ _ _ _ E2). exact (enq_len_prices _ _ _ _ _ E1).
  - rewrite (enq_len_qtys _ _ _ _ _ E2). exact (enq_len_qtys _ _ _ _ _ E1).
  - intros [| j] Hj.
    + cbn [Z.of_nat]. rewrite Z.add_0_r.
      destruct (enq_others _ _ _ _ _ E2 (slot (capacity rb) (writeIndex rb)) Hfirst)
        as (-> & -> & -> & ->).
      pose proof (enq_slots _ _ _ _ _ E1 0%nat ltac:(cbn; lia)) as H0.
      cbn [Z.of_nat] in H0. rewrite Z.add_0_r in H0. exact H0.
    + cbn [length] in Hj.
      pose proof (enq_slots _ _ _ _ _ E2 j ltac:(lia)) as Hj'.
      rewrite Hcap1, Hh1 in Hj'.
      replace (writeIndex rb + 1 + Z.of_nat j) with (writeIndex rb + Z.of_nat (S j))
        in Hj' by lia.
      exact Hj'.
  - intros s Hne.
    destruct (enq_others _ _ _ _ _ E2 s) as (-> & -> & -> & ->).
    { intros j Hj. rewrite Hcap1, Hh1.
      replace (writeIndex rb + 1 + Z.of_nat j) with (writeIndex rb + Z.of_nat (S j)) by lia.
      apply Hne. cbn [length]. lia. }
    apply (enq_others _ _ _ _ _ E1). intros j Hj. cbn in Hj.
    assert (j = 0%nat) as -> by lia. apply (Hne 0%nat). cbn [length]. lia.
Qed.

Lemma run_enqueue_each fuel :
  forall a b c0 rb,
    wf rb ->
    (length a <= length b)%nat -> (length a <= length c0)%nat ->
    writeIndex rb + Z.of_nat (length a) <= readIndex rb + capacity rb ->
    writeIndex rb + Z.of_nat (length a) + capacity rb < 2 ^ 63 ->
    exists rb',
      run (S fuel) (enqueue_each a b c0) rb = Returned rb' /\
      enqueued a b c0 rb rb'.
Proof.
  induction a as [| x a IH]; intros b c0 rb Hwf Hb Hc0 Hroom Hbound.
  - exists rb. split; [reflexivity | apply enqueued_nil].
  - destruct b as [| y b]; [cbn in Hb; lia |].
    destruct c0 as [| z c0]; [cbn in Hc0; lia |].
    cbn [length] in *.
    pose proof (wf_tail rb Hwf) as Ht. pose proof (wf_shape rb Hwf) as Hs.
    pose proof (wf_cap2 rb Hwf) as Hc.
    change (enqueue_each (x :: a) (y :: b) (z :: c0))
      with (OpEnqueue x y z :: enqueue_each a b c0).
    cbn [run step]. rewrite (Enqueue_wf rb Hwf).
    destruct (Z.ltb_spec (writeIndex rb) (readIndex rb + capacity rb)); [| lia].
    cbn [bind fst].
    set (rb1 := write_slot _ x y z _ _).
    pose proof (enqueued_single rb x y z Hs) as E1. fold rb1 in E1.
    assert (Hwf1 : wf rb1).
    { apply (wf_enqueued [x] [y] [z] rb); cbn [length Z.of_nat]; try lia; assumption. }
    destruct (IH b c0 rb1 Hwf1) as (rb' & Hrun & E2); try lia.
    + rewrite (enq_head _ _ _ _ _ E1), (enq_tail _ _ _ _ _ E1), (enq_capacity _ _ _ _ _ E1).
      cbn [length Z.of_nat]. lia.
    + rewrite (enq_head _ _ _ _ _ E1), (enq_capacity _ _ _ _ _ E1).
      cbn [length Z.of_nat]. lia.
    + exists rb'. split; [exact Hrun |].
      apply (enqueued_cons x y z a b c0 rb rb1 rb'); try assumption. lia.
Qed.

Lemma EnqueueBatch_wf_fits rb fuel a b c0 :
  wf rb ->
  (length a <= length b)%nat -> (length a <= length c0)%nat ->
  writeIndex rb + Z.of_nat (length a) <= readIndex rb + capacity rb ->
  exists rb',
    EnqueueBatch (S fuel) rb a b c0 = Returned (rb', Z.of_nat (length a)) /\
    enqueued a b c0 rb rb'.
Proof.
  intros Hwf Hb Hc0 Hroom.
  pose proof (wf_tail rb Hwf) as Ht. pose proof (wf_shape rb Hwf) as Hs.
  pose proof (wf_bound rb Hwf) as Hbd.
  destruct (Nat.eq_dec (length a) 0%nat) as [Hz | Hnz].
  - destruct a; [| discriminate].
    destruct (wf_head_not_ahead rb Hwf) as (v & Hv & Hle).
    exists rb. split; [| apply enqueued_nil].
    apply (EnqueueBatch_nil rb fuel b c0 v); [exact Hs | lia | exact Hv | exact Hle].
  - rewrite (EnqueueBatch_wf_unfold rb Hwf) by lia.
    destruct (Z.leb_spec (writeIndex rb + Z.of_nat (length a))
                (readIndex rb + capacity rb)); [| lia].
    change 0 with (Z.of_nat 0).
    destruct (EnqueueBatch_copy_total a b c0 (writeIndex rb) (length a) 0
                (set_writeIndex (writeIndex rb + Z.of_nat (length a)) rb))
      as [rb' Hcopy];
      [apply shape_set_writeIndex; exact Hs | cbn [Nat.add]; lia ..|].
    rewrite Hcopy. cbn [bind]. exists rb'. split; [reflexivity |].
    apply EnqueueBatch_copy_enqueued; [exact Hs | lia | lia | lia | exact Hcopy].
Qed.

(** When a batch fits, EnqueueBatch leaves the buffer in exactly the state
    that Enqueue calls for its records, one after the other in the same
    order, leave it in: same cursors, same cycle of every slot, same payload
    of every slot. *)
Theorem EnqueueBatch_as_single_calls (c : Z) (rb : RingBuffer) (fuel : nat)
    (a : list Z) (b : list float) (c0 : list Z) :
  is_pow2 c -> 2 <= c -> reachable c rb ->
  (length a <= length b)%nat -> (length a <= length c0)%nat ->
  Z.of_nat (length (contents rb)) + Z.of_nat (length a) <= c ->
  writeIndex rb + Z.of_nat (length a) + c < 2 ^ 63 ->
  exists rb',
    EnqueueBatch (S fuel) rb a b c0 = Returned (rb', Z.of_nat (length a)) /\
    run (S fuel) (enqueue_each a b c0) rb = Returned rb'.
Proof.
  intros Hp Hc Hreach Hb Hc0 Hfits Hbound.
  destruct (reachable_wf c rb Hp Hc Hreach) as [Hwf <-].
  rewrite (wf_length_contents rb Hwf) in Hfits.
  destruct (EnqueueBatch_wf_fits rb fuel a b c0 Hwf Hb Hc0 ltac:(lia)) as (rb1 & Hrun1 & E1).
  destruct (run_enqueue_each fuel a b c0 rb Hwf Hb Hc0 ltac:(lia) Hbound)
    as (rb2 & Hrun2 & E2).
  exists rb1. split; [exact Hrun1 |].
  rewrite (enqueued_unique a b c0 rb rb1 rb2 (wf_shape rb Hwf) ltac:(pose proof (wf_tail rb Hwf); lia) E1 E2).
  exact Hrun2.
Qed.

Lemma EnqueueBatch_as_single_calls_witness :
  exists rb',
    EnqueueBatch 1 (mkRingBuffer 4 3 1 0 [1; 1; 2; 3] [7; 0; 0; 0] [100; 0; 0; 0]%float
                      [1; 0; 0; 0])
      [8; 9] [50; 60]%float [2; 3] = Returned (rb', 2) /\
    run 1 [OpEnqueue 8 50 2; OpEnqueue 9 60 3]
      (mkRingBuffer 4 3 1 0 [1; 1; 2; 3] [7; 0; 0; 0] [100; 0; 0; 0]%float [1; 0; 0; 0])
      = Returned rb'.
Proof.
  apply (EnqueueBatch_as_single_calls 4
           (mkRingBuffer 4 3 1 0 [1; 1; 2; 3] [7; 0; 0; 0] [100; 0; 0; 0]%float [1; 0; 0; 0])
           0 [8; 9] [50; 60]%float [2; 3]).
  - exists 2. split; [lia | reflexivity].
  - lia.
  - exists 1%nat, [OpEnqueue 7 100 1]. split; vm_compute; reflexivity.
  - cbn. lia.
  - cbn. lia.
  - vm_compute. discriminate.
  - vm_compute. reflexivity.
Defined.

Lemma dequeued_unique n rb rb1 rb2 :
  shape rb -> Z.of_nat n <= capacity rb ->
  dequeued n rb rb1 -> dequeued n rb rb2 -> rb1 = rb2.
Proof.
  intros Hs Hn D1 D2. pose proof (shape_cap_pos rb Hs) as Hc.
  apply RingBuffer_eq.
  - rewrite (deq_capacity _ _ _ D1), (deq_capacity _ _ _ D2). reflexivity.
  - rewrite (deq_mask _ _ _ D1), (deq_mask _ _ _ D2). reflexivity.
  - rewrite (deq_head _ _ _ D1), (deq_head _ _ _ D2). reflexivity.
  - rewrite (deq_tail _ _ _ D1), (deq_tail _ _ _ D2). reflexivity.
  - apply list_eq. intros s.
    destruct (slot_in_range_dec (capacity rb) (readIndex rb) n s ltac:(lia) Hn)
      as [(j & Hj & <-) | Hnone].
    + rewrite (deq_slots _ _ _ D1 j Hj), (deq_slots _ _ _ D2 j Hj). reflexivity.
    + rewrite (deq_others _ _ _ D1 s Hnone), (deq_others _ _ _ D2 s Hnone). reflexivity.
  - rewrite (deq_ids _ _ _ D1), (deq_ids _ _ _ D2). reflexivity.
  - rewrite (deq_prices _ _ _ D1), (deq_prices _ _ _ D2). reflexivity.
  - rewrite (deq_qtys _ _ _ D1), (deq_qtys _ _ _ D2). reflexivity.
Qed.

Lemma dequeued_succ n rb rb1 rb2 :
  shape rb -> Z.of_nat (S n) <= capacity rb ->
  dequeued 1 rb rb1 -> dequeued n rb1 rb2 -> dequeued (S n) rb rb2.
Proof.
  intros Hs Hn D1 D2. pose proof (shape_cap_pos rb Hs) as Hc.
  pose proof (deq_capacity _ _ _ D1) as Hcap1.
  assert (Ht1 : readIndex rb1 = readIndex rb + 1)
    by (rewrite (deq_tail _ _ _ D1); lia).
  constructor.
  - rewrite (deq_capacity _ _ _ D2). exact Hcap1.
  - rewrite (deq_mask _ _ _ D2). exact (deq_mask _ _ _ D1).
  - rewrite (deq_head _ _ _ D2). exact (deq_head _ _ _ D1).
  - rewrite (deq_tail _ _ _ D2), Ht1. lia.
  - rewrite (deq_ids _ _ _ D2). exact (deq_ids _ _ _ D1).
  - rewrite (deq_prices _ _ _ D2). exact (deq_prices _ _ _ D1).
  - rewrite (deq_qtys _ _ _ D2). exact (deq_qtys _ _ _ D1).
  - rewrite (deq_len_cycle _ _ _ D2). exact (deq_len_cycle _ _ _ D1).
  - intros [| j] Hj.
    + cbn [Z.of_nat]. rewrite Z.add_0_r.
      rewrite (deq_others _ _ _ D2).
      * pose proof (deq_slots _ _ _ D1 0%nat ltac:(lia)) as H0.
        cbn [Z.of_nat] in H0. rewrite Z.add_0_r in H0. exact H0.
      * intros j Hj' Heq. rewrite Hcap1, Ht1 in Heq.
        apply (slot_inj (capacity rb) (readIndex rb)) in Heq; lia.
    + pose proof (deq_slots _ _ _ D2 j ltac:(lia)) as Hj'.
      rewrite Hcap1, Ht1 in Hj'.
      replace (readIndex rb + 1 + Z.of_nat j) with (readIndex rb + Z.of_nat (S j))
        in Hj' by lia.
      exact Hj'.
  - intros s Hne.
    rewrite (deq_others _ _ _ D2).
    + apply (deq_others _ _ _ D1). intros j Hj.
      assert (j = 0%nat) as -> by lia. apply (Hne 0%nat). lia.
    + intros j Hj. rewrite Hcap1, Ht1.
      replace (readIndex rb + 1 + Z.of_nat j) with (readIndex rb + Z.of_nat (S j)) by lia.
      apply Hne. lia.
Qed.

Lemma run_dequeue_each fuel :
  forall (n : nat) rb,
    wf rb ->
    readIndex rb + Z.of_nat n <= writeIndex rb ->
    exists rb',
      run (S fuel) (replicate n OpDequeue) rb = Returned rb' /\
      dequeued n rb rb'.
Proof.
  induction n as [| n IH]; intros rb Hwf Havail.
  - exists rb. split; [reflexivity | apply dequeued_zero].
  - pose proof (wf_tail rb Hwf) as Ht. pose proof (wf_shape rb Hwf) as Hs.
    pose proof (wf_occ rb Hwf) as Ho.
    cbn [replicate run step].
    destruct (Dequeue_wf_take rb Hwf fuel ltac:(lia))
      as (id & price & qty & _ & _ & _ & ->).
    cbn [bind fst]. set (rb1 := set_cycleState _ _).
    pose proof (dequeued_single rb Hs) as D1. fold rb1 in D1.
    assert (Hwf1 : wf rb1) by (apply (wf_dequeued 1 rb); [exact Hwf | exact D1 | lia]).
    destruct (IH rb1 Hwf1) as (rb' & Hrun & D2).
    + rewrite (deq_tail _ _ _ D1), (deq_head _ _ _ D1). lia.
    + exists rb'. split; [exact Hrun |].
      apply (dequeued_succ n rb rb1 rb'); try assumption. lia.
Qed.

(** When enough records wait, DequeueBatch leaves the buffer in exactly the
    state that [len(ids)] Dequeue calls leave it in: same cursors and same
    cycle of every slot. *)
Theorem DequeueBatch_as_single_calls (c : Z) (rb : RingBuffer) (fuel : nat)
    (di : list Z) (dp : list float) (dq : list Z) :
  is_pow2 c -> 2 <= c -> reachable c rb ->
  (length di <= length dp)%nat -> (length di <= length dq)%nat ->
  (length di <= length (contents rb))%nat ->
  exists rb' outs,
    DequeueBatch (S fuel) rb di dp dq = Returned (rb', outs, Z.of_nat (length di)) /\
    run (S fuel) (replicate (length di) OpDequeue) rb = Returned rb'.
Proof.
  intros Hp Hc Hreach Hlp Hlq Havail.
  destruct (reachable_wf c rb Hp Hc Hreach) as [Hwf Hcap].
  pose proof (wf_length_contents rb Hwf) as Hlen.
  pose proof (wf_tail rb Hwf) as Ht. pose proof (wf_occ rb Hwf) as Ho.
  pose proof (wf_bound rb Hwf) as Hb.
  destruct (DequeueBatch_wf_total rb Hwf fuel di dp dq ltac:(lia) Hlp Hlq)
    as ([[rb1 [[di' dp'] dq']] r] & Hrun1).
  pose proof (DequeueBatch_contents rb Hwf (S fuel) di dp dq rb1 di' dp' dq' r
                ltac:(lia) Hrun1) as Hview.
  destruct (Nat.leb_spec (length di) (length (contents rb))); [| lia].
  destruct Hview as (-> & _).
  destruct (run_dequeue_each fuel (length di) rb Hwf ltac:(lia)) as (rb2 & Hrun2 & D2).
  exists rb1, (di', dp', dq'). split; [exact Hrun1 |].
  pose proof Hrun1 as Hcase.
  apply (DequeueBatch_wf_returned rb Hwf) in Hcase
    as [(Hz & -> & _) | (_ & _ & _ & D1 & _)]; [| | lia].
  - assert (length di = 0%nat) as Hnil by lia. rewrite Hnil. reflexivity.
  - rewrite (dequeued_unique (length di) rb rb1 rb2 (wf_shape rb Hwf) ltac:(lia) D1 D2).
    exact Hrun2.
Qed.

Lemma DequeueBatch_as_single_calls_witness :
  exists rb' outs,
    DequeueBatch 1 (mkRingBuffer 4 3 3 0 [1; 2; 3; 3] [7; 8; 9; 0] [100; 50; 60; 0]%float
                      [1; 2; 3; 0])
      [0; 0] [0; 0]%float [0; 0] = Returned (rb', outs, 2) /\
    run 1 [OpDequeue; OpDequeue]
      (mkRingBuffer 4 3 3 0 [1; 2; 3; 3] [7; 8; 9; 0] [100; 50; 60; 0]%float [1; 2; 3; 0])
      = Returned rb'.
Proof.
  apply (DequeueBatch_as_single_calls 4
           (mkRingBuffer 4 3 3 0 [1; 2; 3; 3] [7; 8; 9; 0] [100; 50; 60; 0]%float
              [1; 2; 3; 0])
           0 [0; 0] [0; 0]%float [0; 0]).
  - exists 2. split; [lia | reflexivity].
  - lia.
  - exists 1%nat, [OpEnqueue 7 100 1; OpEnqueueBatch [8; 9] [50; 60]%float [2; 3]].
    split; vm_compute; reflexivity.
  - cbn. lia.
  - cbn. lia.
  - vm_compute. lia.
Defined.
